(** * capital-claims-zip2-api: scope cascade and statistics engine

    A shallow embedding of the claim-metrics handlers of the repository:

    - [Unfiltered]  the pg cascade handler without row filters
                    (src/unnamed/part_000);
    - [Filtered]    the pg cascade handler with [exclude_zero] / [min_paid]
                    (src/unnamed/part_001, first document);
    - [ZipMetrics]  the Supabase exact-ZIP handler with interpolated
                    percentiles (src/unnamed/part_002, first document);
    - [Paged]       the cursor-paginated scope loop
                    (src/pages/api/claim-metrics.ts, first document);
    - [Sql]         the meaning of the SQL text sent by the cascade handlers
                    over in-memory tables;
    - [Spec]        the notions the properties are stated with;
    - [ClaimNumber] the claim number of the cursor-paginated handler
                    (src/pages/api/claim-metrics.ts);
    - [DebugDb]     the masked connection string of the diagnostics
                    endpoint (src/api/debug-db.js);
    - [Notions]     further notions: what handler code does on every run.

    A JavaScript number is a rational or one of the three non-finite
    values.  Every binary64 value is a rational, and [+], [-], [*] and [/]
    give the exact result rounded to the nearest binary64 value, a tie
    going to the even significand, with gradual underflow and overflow to
    an infinity ([JS.fl]).  Comparisons, [Math.floor], [Math.ceil] and
    [Math.round] are exact.  The sign of zero is not kept.  A request is
    taken after its parameters are parsed, a row after [Number(..)] is
    applied to its columns; writing headers and logging to the console are
    left out. *)

From Stdlib Require Import List Bool Arith ZArith QArith Qround Qabs Qpower.
From Stdlib Require Import Lia Lqa String Ascii Permutation Sorted.
From Stdlib Require Import DecimalString.
Import ListNotations.

Set Implicit Arguments.

(* ================================================================== *)
(** ** JavaScript values used by the handlers *)

Module JS.

(** A JS [number]: a finite value, [NaN], [Infinity] or [-Infinity]. *)
Inductive number : Type :=
| Fin (q : Q)
| NaN
| PosInf
| NegInf.

(** [Number.isFinite]. *)
Definition isFinite (v : number) : bool :=
  match v with Fin _ => true | _ => false end.

(** Three-way comparison of two numbers; [None] when either is [NaN]. *)
Definition compare (a b : number) : option comparison :=
  match a, b with
  | NaN, _ | _, NaN => None
  | Fin x, Fin y => Some (x ?= y)%Q
  | NegInf, NegInf => Some Eq
  | PosInf, PosInf => Some Eq
  | NegInf, _ => Some Lt
  | _, NegInf => Some Gt
  | PosInf, _ => Some Gt
  | _, PosInf => Some Lt
  end.

(** [a <= b], [a >= b], [a < b] and [a > b]: false as soon as a [NaN] is
    involved. *)
Definition le (a b : number) : bool :=
  match compare a b with Some Lt | Some Eq => true | _ => false end.
Definition ge (a b : number) : bool :=
  match compare a b with Some Gt | Some Eq => true | _ => false end.
Definition lt (a b : number) : bool :=
  match compare a b with Some Lt => true | _ => false end.
Definition gt (a b : number) : bool :=
  match compare a b with Some Gt => true | _ => false end.

(** Equality of the property keys [String(a)] and [String(b)]; also the
    [SameValueZero] test of a [Map] keyed by numbers. *)
Definition same_key (a b : number) : bool :=
  match a, b with
  | Fin x, Fin y => Qeq_bool x y
  | NaN, NaN | PosInf, PosInf | NegInf, NegInf => true
  | _, _ => false
  end.

(** [Math.round]: the nearest integer, a tie going to the larger one. *)
Definition round (q : Q) : Z := Qfloor (q + (1 # 2)).

(** [x || 0] followed by [Number] and [Math.round], on a possibly
    [undefined] number. *)
Definition round_or_zero (n : option number) : number :=
  match n with
  | None | Some NaN => Fin 0
  | Some (Fin q) => Fin (inject_Z (round q))
  | Some PosInf => PosInf
  | Some NegInf => NegInf
  end.

(** [arr.filter(Number.isFinite)]. *)
Fixpoint finite_only (l : list number) : list Q :=
  match l with
  | [] => []
  | Fin q :: l' => q :: finite_only l'
  | _ :: l' => finite_only l'
  end.

Section Sorting.
Variable A : Type.
(** [after a b]: the comparator [cmp(a,b)] is positive. *)
Variable after : A -> A -> bool.

Fixpoint insert (x : A) (l : list A) : list A :=
  match l with
  | [] => [x]
  | y :: l' => if after x y then y :: insert x l' else x :: l
  end.

(** [Array.prototype.sort(cmp)]: a stable sort. *)
Definition sort (l : list A) : list A := fold_right insert [] l.

(** [x] is not after [y]: the order [sort] establishes. *)
Definition upto (x y : A) : Prop := after x y = false.
End Sorting.

(** [.sort((a,b) => a - b)] on finite numbers and on arbitrary numbers.
    [Infinity - Infinity] is [NaN], which [sort] reads as zero.  With a
    [NaN] in the array the comparator is not consistent and the order is
    left to the engine: nothing below is stated about the sorted array
    in that case. *)
Definition Qafter (a b : Q) : bool := negb (Qle_bool a b).
Definition sortQ : list Q -> list Q := sort Qafter.
Definition sortN : list number -> list number := sort gt.

(** *** binary64 arithmetic *)

(** The binary exponent of a positive rational [a]: the [e] with
    [2^e <= a < 2^(e+1)]. *)
Definition exponent (a : Q) : Z :=
  let e0 := (Z.log2 (Qnum a) - Z.log2 (Zpos (Qden a)))%Z in
  if Qle_bool (2 ^ e0) a then e0 else (e0 - 1)%Z.

(** The nearest integer, a tie going to the even one. *)
Definition round_even (y : Q) : Z :=
  let f := Qfloor y in
  match (y - inject_Z f ?= 1 # 2)%Q with
  | Lt => f
  | Gt => (f + 1)%Z
  | Eq => if Z.even f then f else (f + 1)%Z
  end.

(** The binary64 value of an exact result [q]: the nearest multiple of
    [2^(e-52)], a tie going to the even multiple, where [e] is the
    exponent of [q] and at least -1022; a result that rounds to [2^1024]
    or beyond is an infinity.  The value is given in lowest terms. *)
Definition fl (q : Q) : number :=
  let r := Qred q in
  let a := Qabs r in
  if Qeq_bool a 0 then Fin 0
  else
    let x := (Z.max (exponent a) (-1022) - 52)%Z in
    let v := Qred (inject_Z (round_even (a / 2 ^ x)) * 2 ^ x) in
    if Qle_bool (2 ^ 1024) v
    then (if Qle_bool 0 r then PosInf else NegInf)
    else Fin (if Qle_bool 0 r then v else - v).

(** The sign of a number; [NaN] has none and is given [Eq]. *)
Definition sgn (a : number) : comparison :=
  match a with
  | Fin x => (x ?= 0)%Q
  | PosInf => Gt
  | NegInf => Lt
  | NaN => Eq
  end.

Definition neg (a : number) : number :=
  match a with
  | Fin x => Fin (- x)
  | NaN => NaN
  | PosInf => NegInf
  | NegInf => PosInf
  end.

(** [a + b] and [a - b]. *)
Definition add (a b : number) : number :=
  match a, b with
  | NaN, _ | _, NaN => NaN
  | Fin x, Fin y => fl (x + y)
  | PosInf, NegInf | NegInf, PosInf => NaN
  | PosInf, _ | _, PosInf => PosInf
  | NegInf, _ | _, NegInf => NegInf
  end.

Definition sub (a b : number) : number := add a (neg b).

(** [a * b]; an infinity times zero is [NaN]. *)
Definition mul (a b : number) : number :=
  match a, b with
  | NaN, _ | _, NaN => NaN
  | Fin x, Fin y => fl (x * y)
  | _, _ =>
      match sgn a, sgn b with
      | Eq, _ | _, Eq => NaN
      | Gt, Gt | Lt, Lt => PosInf
      | _, _ => NegInf
      end
  end.

(** [a / b]; a zero divisor is taken as [+0]. *)
Definition div (a b : number) : number :=
  match a, b with
  | NaN, _ | _, NaN => NaN
  | Fin x, Fin y =>
      if Qeq_bool y 0
      then match (x ?= 0)%Q with Eq => NaN | Gt => PosInf | Lt => NegInf end
      else fl (x / y)
  | Fin _, _ => Fin 0
  | _, Fin y => if Qle_bool 0 y then a else neg a
  | _, _ => NaN
  end.

(** [arr.reduce((s,n) => s + n, 0)]. *)
Definition sum (l : list number) : number := fold_left add l (Fin 0).

(** [arr.length] as a number. *)
Definition size (A : Type) (l : list A) : number :=
  Fin (inject_Z (Z.of_nat (List.length l))).

(** An array element as an operand: [undefined] is read as [NaN]. *)
Definition operand (v : option number) : number :=
  match v with Some x => x | None => NaN end.

(** [arr[i]] for a natural index: [undefined] out of range. *)
Definition at_ (A : Type) (l : list A) (i : nat) : option A := nth_error l i.

(** [arr[i]] for an integer-valued index. *)
Definition atZ (A : Type) (l : list A) (i : Z) : option A :=
  if (i <? 0)%Z then None else nth_error l (Z.to_nat i).

Section Keyed.
Variables K V : Type.
Variable same : K -> K -> bool.

(** [(m[k] = m[k] || []).push(v)] on an object or [Map] kept in
    insertion order of its keys. *)
Fixpoint push (k : K) (v : V) (m : list (K * list V)) : list (K * list V) :=
  match m with
  | [] => [(k, [v])]
  | (k', vs) :: m' =>
      if same k k' then (k', vs ++ [v]) :: m'
      else (k', vs) :: push k v m'
  end.
End Keyed.

End JS.

(* ================================================================== *)
(** ** Response payload of the cascade handlers *)

Module Wire.

Record Meta := {
  representative_zip : option string;
  (** absent, [null] or a number *)
  distance_miles : option (option JS.number);
  state : option string
}.

Definition no_meta : Meta :=
  {| representative_zip := None; distance_miles := None; state := None |}.

Record UsedScope := {
  level : option string;
  sample_size : nat;
  meta : Meta
}.

Record TrendEntry := { year : JS.number; median_of_year : JS.number }.

Record Metrics := {
  year_window : JS.number * JS.number;
  mean : JS.number;
  median : JS.number;
  p25 : JS.number;
  p75 : JS.number;
  trend_by_year : list TrendEntry
}.

Record Envelope := {
  query_zip : string;
  used_scope : UsedScope;
  metrics : option Metrics
}.

(** What is handed to [res.json] with its status code, or [res.end]. *)
Inductive Body :=
| BEnvelope (e : Envelope)
| BNull
| BBadParams
| BServerError (detail : option string).

Inductive Response :=
| End_ (status : nat)
| Json (status : nat) (body : Body).

(** [{ query_zip: zip, used_scope: { level: null, sample_size: 0 },
      metrics: null }]. *)
Definition no_data (zip : string) : Envelope :=
  {| query_zip := zip;
     used_scope := {| level := None; sample_size := 0; meta := no_meta |};
     metrics := None |}.

(** A claim row as the handlers read it: [Number(r.paid_amt)] and
    [Number(r.dos_year)]. *)
Record Row := { paid_amt : JS.number; dos_year : JS.number }.

End Wire.

(* ================================================================== *)
(** ** The data store as the cascade handlers see it *)

Module Db.
Import Wire.

(** The five claim queries, with their bound parameters. *)
Inductive ClaimsQuery :=
| ByZip (zip cpt : string) (y0 y1 : JS.number)
| ByZip3 (zip3 cpt : string) (y0 y1 : JS.number)
| ByRadius (lat lon : Q) (limit : nat) (cpt : string) (y0 y1 : JS.number)
| ByState (st cpt : string) (y0 y1 : JS.number)
| Nationwide (cpt : string) (y0 y1 : JS.number).

(** A row of [select state, lat, lon from zip_geometry]. *)
Record GeoRow := { g_state : option string; g_lat : Q; g_lon : Q }.

(** A row of the nearest-location query: [zip5] and [dist_mi]. *)
Record NearRow := { n_zip5 : string; n_dist_mi : JS.number }.

(** A query either resolves to its rows or rejects with a message. *)
Definition Result (A : Type) : Type := (string + A)%type.

Record Client := {
  claims : ClaimsQuery -> Result (list Row);
  geo : string -> Result (list GeoRow);
  nearest : Q -> Q -> Result (list NearRow)
}.

(** [pool.connect()]. *)
Definition Pool : Type := Result Client.

(** What a handler did with the store, in order: the queries it sent and
    the [client.release()] of its [finally] block. *)
Inductive Event :=
| EClaims (q : ClaimsQuery)
| EGeo (zip : string)
| ENearest (lat lon : Q)
| ERelease.

(** Handler code: it appends to the log of issued queries and either
    produces a value or throws. *)
Definition M (A : Type) : Type := list Event -> list Event * Result A.

Definition ret (A : Type) (a : A) : M A := fun log => (log, inr a).

Definition bind (A B : Type) (m : M A) (k : A -> M B) : M B :=
  fun log =>
    match m log with
    | (log', inl e) => (log', inl e)
    | (log', inr a) => k a log'
    end.

Definition await_claims (c : Client) (q : ClaimsQuery) : M (list Row) :=
  fun log => (log ++ [EClaims q], claims c q).
Definition await_geo (c : Client) (zip : string) : M (list GeoRow) :=
  fun log => (log ++ [EGeo zip], geo c zip).
Definition await_nearest (c : Client) (lat lon : Q) : M (list NearRow) :=
  fun log => (log ++ [ENearest lat lon], nearest c lat lon).

(** Parsed request: [zip] and [cpt] after [String(..).trim()], the years
    and [min_paid] after [Number(..)], the flags after [=== "1"]. *)
Record Request := {
  method : string;
  zip : string;
  cpt : string;
  year_from : JS.number;
  year_to : JS.number;
  debug : bool;
  exclude_zero : bool;
  min_paid : JS.number
}.

Definition is_digit (c : ascii) : bool :=
  (48 <=? nat_of_ascii c) && (nat_of_ascii c <=? 57).

Fixpoint all_digits (s : string) : bool :=
  match s with
  | EmptyString => true
  | String c s' => is_digit c && all_digits s'
  end.

(** [/^\d{5}$/.test(zip)] and [/^\d{4,5}$/.test(cpt)]. *)
Definition zip_ok (s : string) : bool :=
  all_digits s && (String.length s =? 5).
Definition cpt_ok (s : string) : bool :=
  all_digits s && (4 <=? String.length s) && (String.length s <=? 5).

(** Truthiness of a string that may be [null]. *)
Definition truthy (s : option string) : bool :=
  match s with
  | Some (String _ _) => true
  | _ => false
  end.

(** The [catch] block: status 500, with the message only under [debug]. *)
Definition server_error (req : Request) (msg : string) : Response :=
  Json 500 (BServerError (if debug req then Some msg else None)).

(** [res.json(x)] for an [x] that may be [null]. *)
Definition json (x : option Envelope) : Response :=
  Json 200 (match x with Some e => BEnvelope e | None => BNull end).

End Db.

Notation "x <- m ;; k" := (Db.bind m (fun x => k))
  (at level 61, m at next level, right associativity).

(** [MIN_N] and [MAX_RADIUS_ZIPS], the same in both cascade files. *)
Definition MIN_N : nat := 12.
Definition MAX_RADIUS_ZIPS : nat := 50.

(* ================================================================== *)
(** ** The cascade without row filters (src/unnamed/part_000) *)

Module Unfiltered.
Import Wire Db.

Definition dollars (n : option JS.number) : JS.number := JS.round_or_zero n.

(** The closure [idx] of [summarize]: the nearest-rank index of the
    [p]-th percent, clamped to the array. *)
Definition idx (vals : list Q) (p : Q) : Z :=
  Z.max 0 (Z.min (Z.of_nat (List.length vals) - 1)
                 (Qfloor ((p / 100) * inject_Z (Z.of_nat (List.length vals))))).

(** [vals[i]] handed to [dollars]. *)
Definition pick (vals : list Q) (i : Z) : option JS.number :=
  option_map JS.Fin (JS.atZ vals i).

(** The [rows.forEach] loop that fills [byYear]. *)
Definition byYear (rows : list Row) (y0 y1 : JS.number)
  : list (JS.number * list JS.number) :=
  fold_left
    (fun m r =>
       let y := dos_year r in
       if JS.ge y y0 && JS.le y y1
       then JS.push JS.same_key y (paid_amt r) m
       else m)
    rows [].

Definition year_entry (ya : JS.number * list JS.number) : TrendEntry :=
  let arr := JS.sortN (snd ya) in
  {| year := fst ya;
     median_of_year := dollars (JS.at_ arr (Nat.div (List.length arr) 2)) |}.

(** [Object.keys(byYear).map(..).sort((a,b) => a.year - b.year)].  The keys
    are taken in insertion order; they are pairwise distinct, so the order
    in which [Object.keys] lists them does not show after the sort
    ([trend_ignores_key_order]). *)
Definition trend (byYear : list (JS.number * list JS.number))
  : list TrendEntry :=
  JS.sort (fun a b => JS.gt (year a) (year b)) (map year_entry byYear).

Definition summarize (rows : list Row) (m : Meta) (zip : string)
    (y0 y1 : JS.number) (lvl : string) : option Envelope :=
  let vals := JS.sortQ (JS.finite_only (map paid_amt rows)) in
  match vals with
  | [] => None
  | _ :: _ =>
    Some
      {| query_zip := zip;
         used_scope :=
           {| level := Some lvl; sample_size := List.length rows; meta := m |};
         metrics := Some
           {| year_window := (y0, y1);
              mean := dollars (Some
                        (JS.div (JS.sum (map JS.Fin vals)) (JS.size vals)));
              median := dollars (pick vals (Z.of_nat (Nat.div (List.length vals) 2)));
              p25 := dollars (pick vals (idx vals 25));
              p75 := dollars (pick vals (idx vals 75));
              trend_by_year := trend (byYear rows y0 y1) |} |}
  end.

(** [rep.rows[0]?.zip5 || zip] and [rep.rows[0]?.dist_mi || null]. *)
Definition repZip (rep : list NearRow) (zip : string) : string :=
  match rep with
  | r :: _ => if truthy (Some (n_zip5 r)) then n_zip5 r else zip
  | [] => zip
  end.
Definition repDist (rep : list NearRow) : option JS.number :=
  match rep with
  | r :: _ =>
      match n_dist_mi r with
      | JS.NaN => None
      | JS.Fin q => if Qeq_bool q 0 then None else Some (JS.Fin q)
      | d => Some d
      end
  | [] => None
  end.

(** The body of the inner [try]: [Some r] is a [return res.json(..)],
    threaded through the scopes in program order. *)
Definition cascade (c : Client) (req : Request) : M Response :=
  let zip := zip req in
  let cpt := cpt req in
  let y0 := year_from req in
  let y1 := year_to req in
  (* 1) Exact ZIP *)
  q <- await_claims c (ByZip zip cpt y0 y1) ;;
  if MIN_N <=? List.length q then
    ret (json (summarize q
      {| representative_zip := Some zip; distance_miles := None;
         state := None |} zip y0 y1 "zip"))
  else
  (* 2) ZIP3 *)
  let zip3 := substring 0 3 zip in
  q <- await_claims c (ByZip3 zip3 cpt y0 y1) ;;
  if MIN_N <=? List.length q then
    ret (json (summarize q no_meta zip y0 y1 "zip3"))
  else
  zg <- await_geo c zip ;;
  let qgeo := hd_error zg in
  (* 3) Radius fallback *)
  r3 <- match qgeo with
        | Some g =>
            q <- await_claims c
                   (ByRadius (g_lat g) (g_lon g) MAX_RADIUS_ZIPS cpt y0 y1) ;;
            if MIN_N <=? List.length q then
              rep <- await_nearest c (g_lat g) (g_lon g) ;;
              ret (Some (json (summarize q
                {| representative_zip := Some (repZip rep zip);
                   distance_miles := Some (repDist rep);
                   state := None |} zip y0 y1 "radius")))
            else ret None
        | None => ret None
        end ;;
  match r3 with
  | Some r => ret r
  | None =>
  (* 4) State fallback *)
  r4 <- match qgeo with
        | Some g =>
            if truthy (g_state g) then
              let st := match g_state g with Some s => s | None => EmptyString end in
              q <- await_claims c (ByState st cpt y0 y1) ;;
              if MIN_N <=? List.length q then
                ret (Some (json (summarize q
                  {| representative_zip := None; distance_miles := None;
                     state := Some st |} zip y0 y1 "state")))
              else ret None
            else ret None
        | None => ret None
        end ;;
  match r4 with
  | Some r => ret r
  | None =>
  (* 5) National *)
  q <- await_claims c (Nationwide cpt y0 y1) ;;
  if MIN_N <=? List.length q then
    ret (json (summarize q no_meta zip y0 y1 "national"))
  else
    ret (Json 200 (BEnvelope (no_data zip)))
  end
  end.

(** [handler]: the log of issued queries and the response written. *)
Definition handler (pool : Pool) (req : Request) : list Event * Response :=
  if String.eqb (method req) "OPTIONS" then ([], End_ 200)
  else if negb (zip_ok (zip req)) || negb (cpt_ok (cpt req))
  then ([], Json 400 BBadParams)
  else
    match pool with
    | inl msg => ([], server_error req msg)
    | inr client =>
        match cascade client req [] with
        | (log, inr r) => (log ++ [ERelease], r)
        | (log, inl msg) => (log ++ [ERelease], server_error req msg)
        end
    end.

End Unfiltered.

(* ================================================================== *)
(** ** The cascade with row filters (src/unnamed/part_001) *)

Module Filtered.
Import Wire Db.

Definition dollars (n : option JS.number) : JS.number := JS.round_or_zero n.

(** Names under which a property read on the function object [dollars]
    finds a truthy value: its own [length], [name] and [prototype], and
    what it inherits from [Function.prototype] and [Object.prototype]. *)
Definition function_props : list string :=
  [ "length"; "name"; "prototype"; "constructor"; "apply"; "bind"; "call";
    "toString"; "toLocaleString"; "valueOf"; "hasOwnProperty";
    "isPrototypeOf"; "propertyIsEnumerable"; "__proto__";
    "__defineGetter__"; "__defineSetter__"; "__lookupGetter__";
    "__lookupSetter__" ]%string.

(** The property key of an integer-valued index: its decimal numeral. *)
Definition key_of (i : Z) : string := NilZero.string_of_int (Z.to_int i).

(** Truthiness of [dollars[i]]. *)
Definition dollars_at (i : Z) : bool :=
  existsb (String.eqb (key_of i)) function_props.

(** [filterRows(rows, excludeZero, minPaid)]. *)
Definition keep_row (excludeZero : bool) (minPaid : JS.number) (r : Row)
  : bool :=
  let v := paid_amt r in
  if negb (JS.isFinite v) then false
  else if excludeZero && JS.le v (JS.Fin 0) then false
  else if JS.lt v minPaid then false
  else true.

Definition filterRows (rows : list Row) (excludeZero : bool)
    (minPaid : JS.number) : list Row :=
  filter (keep_row excludeZero minPaid) rows.

Definition idx (vals : list Q) (p : Q) : Z :=
  Z.max 0 (Z.min (Z.of_nat (List.length vals) - 1)
                 (Qfloor ((p / 100) * inject_Z (Z.of_nat (List.length vals))))).

Definition pick (vals : list Q) (i : Z) : option JS.number :=
  option_map JS.Fin (JS.atZ vals i).

Definition byYear (rows : list Row) (y0 y1 : JS.number)
  : list (JS.number * list JS.number) :=
  fold_left
    (fun m r =>
       let y := dos_year r in
       if JS.ge y y0 && JS.le y y1
       then JS.push JS.same_key y (paid_amt r) m
       else m)
    rows [].

Definition year_entry (ya : JS.number * list JS.number) : TrendEntry :=
  let arr := JS.sortN (snd ya) in
  {| year := fst ya;
     median_of_year := dollars (JS.at_ arr (Nat.div (List.length arr) 2)) |}.

Definition trend (byYear : list (JS.number * list JS.number))
  : list TrendEntry :=
  JS.sort (fun a b => JS.gt (year a) (year b)) (map year_entry byYear).

Definition summarize (rows : list Row) (m : Meta) (zip : string)
    (y0 y1 : JS.number) (lvl : string) : option Envelope :=
  let vals := JS.sortQ (JS.finite_only (map paid_amt rows)) in
  match vals with
  | [] => None
  | _ :: _ =>
    Some
      {| query_zip := zip;
         used_scope :=
           {| level := Some lvl; sample_size := List.length rows; meta := m |};
         metrics := Some
           {| year_window := (y0, y1);
              mean := dollars (Some
                        (JS.div (JS.sum (map JS.Fin vals)) (JS.size vals)));
              median := dollars (pick vals (Z.of_nat (Nat.div (List.length vals) 2)));
              p25 := dollars (pick vals (idx vals 25));
              p75 := if dollars_at (idx vals 75)
                     then dollars (pick vals (idx vals 75))
                     else dollars (pick vals (Z.of_nat (List.length vals) - 1));
              trend_by_year := trend (byYear rows y0 y1) |} |}
  end.

(** The closure [runQuery] of [handler]. *)
Definition runQuery (c : Client) (req : Request) (q : ClaimsQuery)
    (lvl : string) (m : Meta) : M (option Envelope) :=
  rows <- await_claims c q ;;
  let filtered := filterRows rows (exclude_zero req) (min_paid req) in
  if MIN_N <=? List.length filtered
  then ret (summarize filtered m (zip req) (year_from req) (year_to req) lvl)
  else ret None.

Definition cascade (c : Client) (req : Request) : M Response :=
  let zip := zip req in
  let cpt := cpt req in
  let y0 := year_from req in
  let y1 := year_to req in
  (* 1) Exact ZIP *)
  resObj <- runQuery c req (ByZip zip cpt y0 y1) "zip"
              {| representative_zip := Some zip; distance_miles := None;
                 state := None |} ;;
  match resObj with
  | Some e => ret (Json 200 (BEnvelope e))
  | None =>
  (* 2) ZIP3 *)
  let zip3 := substring 0 3 zip in
  resObj <- runQuery c req (ByZip3 zip3 cpt y0 y1) "zip3" no_meta ;;
  match resObj with
  | Some e => ret (Json 200 (BEnvelope e))
  | None =>
  zg <- await_geo c zip ;;
  let qgeo := hd_error zg in
  (* 3) Radius *)
  resObj <- match qgeo with
            | Some g =>
                runQuery c req
                  (ByRadius (g_lat g) (g_lon g) MAX_RADIUS_ZIPS cpt y0 y1)
                  "radius"
                  {| representative_zip := Some zip; distance_miles := None;
                     state := None |}
            | None => ret None
            end ;;
  match resObj with
  | Some e => ret (Json 200 (BEnvelope e))
  | None =>
  (* 4) State *)
  resObj <- match qgeo with
            | Some g =>
                if truthy (g_state g) then
                  let st := match g_state g with
                            | Some s => s
                            | None => EmptyString
                            end in
                  runQuery c req (ByState st cpt y0 y1) "state"
                    {| representative_zip := None; distance_miles := None;
                       state := Some st |}
                else ret None
            | None => ret None
            end ;;
  match resObj with
  | Some e => ret (Json 200 (BEnvelope e))
  | None =>
  (* 5) National *)
  resObj <- runQuery c req (Nationwide cpt y0 y1) "national" no_meta ;;
  match resObj with
  | Some e => ret (Json 200 (BEnvelope e))
  | None => ret (Json 200 (BEnvelope (no_data zip)))
  end
  end
  end
  end
  end.

Definition handler (pool : Pool) (req : Request) : list Event * Response :=
  if String.eqb (method req) "OPTIONS" then ([], End_ 200)
  else if negb (zip_ok (zip req)) || negb (cpt_ok (cpt req))
  then ([], Json 400 BBadParams)
  else
    match pool with
    | inl msg => ([], server_error req msg)
    | inr client =>
        match cascade client req [] with
        | (log, inr r) => (log ++ [ERelease], r)
        | (log, inl msg) => (log ++ [ERelease], server_error req msg)
        end
    end.

End Filtered.

(* ================================================================== *)
(** ** The exact-ZIP handler with interpolated percentiles
       (src/unnamed/part_002, first document) *)

Module ZipMetrics.
Import Wire.

(** [toNum], on the value [Number(v)]. *)
Definition toNum (v : JS.number) : option Q :=
  match v with JS.Fin q => Some q | _ => None end.

(** [pct(sorted, p)] read over the rationals, every product, difference
    and sum exact; [None] is [null].  What the engine computes is [pct64]
    below. *)
Definition pct (sorted : list Q) (p : Q) : option Q :=
  match sorted with
  | [] => None
  | _ :: _ =>
      if Qle_bool p 0 then JS.at_ sorted 0
      else if Qle_bool 1 p then JS.at_ sorted (List.length sorted - 1)
      else
        let i := inject_Z (Z.of_nat (List.length sorted) - 1) * p in
        let lo := Qfloor i in
        let hi := Qceiling i in
        if (lo =? hi)%Z then JS.atZ sorted lo
        else
          match JS.atZ sorted lo, JS.atZ sorted hi with
          | Some a, Some b =>
              Some (a * (1 - (i - inject_Z lo)) + b * (i - inject_Z lo))
          | _, _ => None
          end
  end.

Definition median (s : list Q) : option Q := pct s (1 # 2).

(** [pct(sorted, p)] as the engine evaluates it, in binary64.  An index
    that is [NaN] equals no index, and reads [undefined]. *)
Definition pct64 (sorted : list JS.number) (p : JS.number)
  : option JS.number :=
  match sorted with
  | [] => None
  | _ :: _ =>
      if JS.le p (JS.Fin 0) then JS.at_ sorted 0
      else if JS.ge p (JS.Fin 1) then JS.at_ sorted (List.length sorted - 1)
      else
        let i :=
          JS.mul (JS.Fin (inject_Z (Z.of_nat (List.length sorted) - 1))) p in
        match i with
        | JS.Fin q =>
            let lo := Qfloor q in
            let hi := Qceiling q in
            if (lo =? hi)%Z then JS.atZ sorted lo
            else
              let w := JS.sub i (JS.Fin (inject_Z lo)) in
              Some (JS.add
                      (JS.mul (JS.operand (JS.atZ sorted lo))
                              (JS.sub (JS.Fin 1) w))
                      (JS.mul (JS.operand (JS.atZ sorted hi)) w))
        | JS.NaN => Some JS.NaN
        | _ => None
        end
  end.

Definition median64 (s : list JS.number) : option JS.number :=
  pct64 s (JS.Fin (1 # 2)).

Definition mean (a : list JS.number) : option JS.number :=
  match a with
  | [] => None
  | _ :: _ => Some (JS.div (JS.sum a) (JS.size a))
  end.

(** The [for (const r of claims || [])] loop: [amounts] and the [Map]
    [byYear], in insertion order. *)
Definition collect (ignoreZero : bool) (claims : list Row)
  : list Q * list (Q * list Q) :=
  fold_left
    (fun st r =>
       match toNum (paid_amt r), toNum (dos_year r) with
       | Some amt, Some yr =>
           if ignoreZero && Qle_bool amt 0 then st
           else (fst st ++ [amt], JS.push Qeq_bool yr amt (snd st))
       | _, _ => st
       end)
    claims ([], []).

(** A row of [rvu_master] as the handler reads it: [Number(r.year)] and
    [Number(r.wrvu)]. *)
Record RvuRow := { r_year : JS.number; r_wrvu : JS.number }.

(** [wrvuByYear.set(yr, w)] and [wrvuByYear.get(yr)]. *)
Fixpoint map_set (k v : Q) (m : list (Q * Q)) : list (Q * Q) :=
  match m with
  | [] => [(k, v)]
  | (k', v') :: m' =>
      if Qeq_bool k k' then (k', v) :: m' else (k', v') :: map_set k v m'
  end.

Definition map_get (k : Q) (m : list (Q * Q)) : option Q :=
  option_map snd (find (fun e => Qeq_bool k (fst e)) m).

(** [w && w > 0]. *)
Definition positive (w : Q) : bool :=
  negb (Qeq_bool w 0) && negb (Qle_bool w 0).

(** The [for (const r of rvuRows || [])] loop. *)
Definition wrvuByYear_of (rvuRows : list RvuRow) : list (Q * Q) :=
  fold_left
    (fun m r =>
       match toNum (r_year r), toNum (r_wrvu r) with
       | Some yr, Some w =>
           if negb (Qeq_bool yr 0) && positive w then map_set yr w m else m
       | _, _ => m
       end)
    rvuRows [].

(** The second loop over the claims: one ratio per kept row whose year
    has a positive wRVU. *)
Definition ratios (ignoreZero : bool) (claims : list Row)
    (wrvuByYear : list (Q * Q)) : list JS.number :=
  fold_left
    (fun ratios r =>
       match toNum (paid_amt r), toNum (dos_year r) with
       | Some amt, Some yr =>
           if ignoreZero && Qle_bool amt 0 then ratios
           else
             match map_get yr wrvuByYear with
             | Some w =>
                 if positive w
                 then ratios ++ [JS.div (JS.Fin amt) (JS.Fin w)]
                 else ratios
             | None => ratios
             end
       | _, _ => ratios
       end)
    claims [].

(** [Array.from(byYear.entries()).sort((a,b) => a[0]-b[0]).map(..)]. *)
Definition trend_by_year (byYear : list (Q * list Q))
  : list (Q * option JS.number) :=
  map (fun ya => (fst ya, median64 (map JS.Fin (JS.sortQ (snd ya)))))
      (JS.sort (fun a b => JS.Qafter (fst a) (fst b)) byYear).

Record ZMetrics := {
  z_year_window : Z * Z;
  z_mean : option JS.number;
  z_median : option JS.number;
  z_p25 : option JS.number;
  z_p75 : option JS.number;
  z_mean_per_wrvu : option JS.number;
  z_median_per_wrvu : option JS.number;
  z_ratio_sample_size : nat;
  z_trend_by_year : list (Q * option JS.number);
  z_ignore_zero_applied : bool
}.

Record ZPayload := {
  z_api_version : nat;
  z_current_year : Z;
  z_code_selected : string;
  z_query_zip : string;
  z_level : string;
  z_sample_size : nat;
  z_representative_zip : string;
  z_metrics : ZMetrics
}.

Inductive ZResponse :=
| ZEnd (status : nat)
| ZError (status : nat) (msg : string)
| ZOk (p : ZPayload).

(** The awaited result of a Supabase query: [{ data, error }], the error
    by its message. *)
Record SbResult (A : Type) := {
  data : option (list A);
  error : option string
}.

Definition handler (method zip cpt : string) (ignoreZero : bool)
    (currentYear : Z) (claimsRes : SbResult Row) (rvuRes : SbResult RvuRow)
  : ZResponse :=
  if String.eqb method "OPTIONS" then ZEnd 204
  else if negb (String.eqb method "GET") then ZError 405 "Method not allowed"
  else if negb (Db.zip_ok zip) then ZError 400 "zip must be 5 digits"
  else if negb (Db.all_digits cpt && (String.length cpt =? 5))
  then ZError 400 "cpt must be 5 digits"
  else
    let yStart := (currentYear - 4)%Z in
    let yEnd := currentYear in
    match error claimsRes with
    | Some m => ZError 500 ("db error: " ++ m)
    | None =>
        let claims := match data claimsRes with Some l => l | None => [] end in
        let st := collect ignoreZero claims in
        let sorted := map JS.Fin (JS.sortQ (fst st)) in
        let rvuRows := match data rvuRes with Some l => l | None => [] end in
        let ratiosSorted :=
          JS.sortN (ratios ignoreZero claims (wrvuByYear_of rvuRows)) in
        ZOk {| z_api_version := 2;
               z_current_year := currentYear;
               z_code_selected := cpt;
               z_query_zip := zip;
               z_level := "zip";
               z_sample_size := List.length sorted;
               z_representative_zip := zip;
               z_metrics :=
                 {| z_year_window := (yStart, yEnd);
                    z_mean := mean sorted;
                    z_median := median64 sorted;
                    z_p25 := pct64 sorted (JS.Fin (1 # 4));
                    z_p75 := pct64 sorted (JS.Fin (3 # 4));
                    z_mean_per_wrvu := mean ratiosSorted;
                    z_median_per_wrvu := median64 ratiosSorted;
                    z_ratio_sample_size := List.length ratiosSorted;
                    z_trend_by_year := trend_by_year (snd st);
                    z_ignore_zero_applied := ignoreZero |} |}
    end.

End ZipMetrics.

(* ================================================================== *)
(** ** The cursor-paginated scope loop
       (src/pages/api/claim-metrics.ts, first document) *)

Module Paged.
Import ZipMetrics.

Inductive PScope := PZip5 | PZip3 | PState | PNational.

(** A row of [v_claim_metrics]: its [id]; the other selected columns are
    passed through untouched and left out. *)
Record VRow := { v_id : Z }.

(** The query parameters the payload depends on and the [x-org-id]
    header; [p_limit] is [Number(limit)] when [limit] is given. *)
Record PRequest := {
  p_zip : option string;
  p_state : option string;
  p_excludeZero : option string;
  p_limit : option JS.number;
  p_org : option string
}.

Record PPayload := {
  pp_query_zip : option string;
  pp_used_scope : option PScope;
  pp_exclude_zero : bool;
  pp_limit : JS.number;
  pp_nextCursor : option Z;
  pp_results : list (VRow * string)
}.

Inductive PResponse :=
| POk (p : PPayload)
| PError (msg : string).

(** [Math.min(Math.max(Number(limit ?? 50), 1), 100)]. *)
Definition page_limit (limit : option JS.number) : JS.number :=
  match limit with
  | None => JS.Fin 50
  | Some JS.NaN => JS.NaN
  | Some n =>
      if JS.lt n (JS.Fin 1) then JS.Fin 1
      else if JS.gt n (JS.Fin 100) then JS.Fin 100
      else n
  end.

(** [zipFallbacks]. *)
Definition zipFallbacks (zip : option string)
  : option string * option string :=
  match zip with
  | Some (String c z) =>
      let zip5 := substring 0 5 (String c z) in
      let zip3 := substring 0 3 zip5 in
      (Some zip5, Some zip3)
  | _ => (None, None)
  end.

Section Handler.
(** [makeStableClaimNumber(orgId, rowId)], a digest. *)
Variable makeStableClaimNumber : string -> Z -> string.
(** The awaited [fetchScope(s)] of this request: it rejects, or resolves
    to [{ data, error }]. *)
Variable fetchScope : PScope -> Db.Result (SbResult VRow).

(** The [for (const s of scopes)] loop: [usedScope] and [rows]. *)
Fixpoint scan (scopes : list PScope)
  : Db.Result (option PScope * list VRow) :=
  match scopes with
  | [] => inr (None, [])
  | s :: rest =>
      match fetchScope s with
      | inl e => inl e
      | inr r =>
          match error r with
          | Some _ => scan rest
          | None =>
              match data r with
              | Some (x :: l) => inr (Some s, x :: l)
              | _ => scan rest
              end
          end
      end
  end.

Definition scopes_of (req : PRequest) : list PScope :=
  let zz := zipFallbacks (p_zip req) in
  (if Db.truthy (fst zz) then [PZip5] else [])
  ++ (if Db.truthy (snd zz) then [PZip3] else [])
  ++ (if Db.truthy (p_state req) then [PState] else [])
  ++ [PNational].

Definition handler (req : PRequest) : PResponse :=
  let orgId := if Db.truthy (p_org req)
               then match p_org req with Some o => o | None => EmptyString end
               else "org_demo"%string in
  let ex0 := match p_excludeZero req with
             | Some s => String.eqb s "1"
             | None => false
             end in
  match scan (scopes_of req) with
  | inl msg =>
      PError (match msg with
              | EmptyString => "Server error"%string
              | _ => msg
              end)
  | inr (usedScope, rows) =>
      let results :=
        map (fun r => (r, makeStableClaimNumber orgId (v_id r))) rows in
      POk {| pp_query_zip := p_zip req;
             pp_used_scope := usedScope;
             pp_exclude_zero := ex0;
             pp_limit := page_limit (p_limit req);
             pp_nextCursor := option_map (fun x => v_id (fst x))
                                         (last (map Some results) None);
             pp_results := results |}
  end.
End Handler.

End Paged.

(* ================================================================== *)
(** ** The SQL sent by the cascade handlers, over in-memory tables

    [zip_geometry] coordinates are taken as not null.  The great-circle
    expression of the radius queries is a parameter [dist_mi qlat qlon lat
    lon]; [order by dist_mi asc] keeps table order among equal distances. *)

Module Sql.
Import Wire Db.

Record Claim := {
  c_zip5 : string;
  c_state : option string;
  c_cpt : string;
  c_paid_amt : JS.number;
  c_dos_year : JS.number
}.

Record Geometry := {
  z_zip5 : string;
  z_state : option string;
  z_lat : Q;
  z_lon : Q
}.

Record Tables := { claims_table : list Claim; zip_geometry : list Geometry }.

Section Queries.
Variable dist_mi : Q -> Q -> Q -> Q -> Q.
Variable db : Tables.

(** [select paid_amt, dos_year]. *)
Definition project (c : Claim) : Row :=
  {| paid_amt := c_paid_amt c; dos_year := c_dos_year c |}.

(** [cpt = $c and dos_year between $y0 and $y1]. *)
Definition cpt_years (cpt : string) (y0 y1 : JS.number) (c : Claim) : bool :=
  String.eqb (c_cpt c) cpt
  && JS.ge (c_dos_year c) y0 && JS.le (c_dos_year c) y1.

(** [from zip_geometry z, q order by dist_mi asc]. *)
Definition by_distance (qlat qlon : Q) : list Geometry :=
  JS.sort
    (fun a b =>
       JS.Qafter (dist_mi qlat qlon (z_lat a) (z_lon a))
                 (dist_mi qlat qlon (z_lat b) (z_lon b)))
    (zip_geometry db).

(** The CTE [nearest] with [limit $3], and the nearest-1 query. *)
Definition nearest_rows (qlat qlon : Q) (limit : nat) : list NearRow :=
  map (fun z =>
         {| n_zip5 := z_zip5 z;
            n_dist_mi := JS.Fin (dist_mi qlat qlon (z_lat z) (z_lon z)) |})
      (firstn limit (by_distance qlat qlon)).

Definition run_claims (q : ClaimsQuery) : list Row :=
  match q with
  | ByZip zip cpt y0 y1 =>
      map project
        (filter (fun c => String.eqb (c_zip5 c) zip && cpt_years cpt y0 y1 c)
                (claims_table db))
  | ByZip3 zip3 cpt y0 y1 =>
      map project
        (filter (fun c => String.eqb (substring 0 3 (c_zip5 c)) zip3
                          && cpt_years cpt y0 y1 c)
                (claims_table db))
  | ByRadius lat lon limit cpt y0 y1 =>
      flat_map
        (fun n =>
           map project
             (filter (fun c => String.eqb (c_zip5 c) (n_zip5 n)
                               && cpt_years cpt y0 y1 c)
                     (claims_table db)))
        (nearest_rows lat lon limit)
  | ByState st cpt y0 y1 =>
      map project
        (filter (fun c =>
                   match c_state c with
                   | Some s => String.eqb s st
                   | None => false
                   end && cpt_years cpt y0 y1 c)
                (claims_table db))
  | Nationwide cpt y0 y1 =>
      map project (filter (cpt_years cpt y0 y1) (claims_table db))
  end.

(** [select state, lat, lon from zip_geometry where zip5 = $1 limit 1]. *)
Definition run_geo (zip : string) : list GeoRow :=
  map (fun z => {| g_state := z_state z; g_lat := z_lat z; g_lon := z_lon z |})
      (firstn 1 (filter (fun z => String.eqb (z_zip5 z) zip)
                        (zip_geometry db))).

(** A client over the tables: every query resolves. *)
Definition client : Client :=
  {| claims := fun q => inr (run_claims q);
     geo := fun zip => inr (run_geo zip);
     nearest := fun lat lon => inr (nearest_rows lat lon 1) |}.
End Queries.

End Sql.

(* ================================================================== *)
(** ** Notions the properties are stated with *)

Module Spec.
Import Wire Db.

(** The percentile as the specification words it: index [(n-1)*p], the
    floor neighbour blended with the ceiling neighbour by the fractional
    weight. *)
Definition blend (s : list Q) (i : Q) : Q :=
  let w := i - inject_Z (Qfloor i) in
  (1 - w) * nth (Z.to_nat (Qfloor i)) s 0
  + w * nth (Z.to_nat (Qceiling i)) s 0.

Definition interp (s : list Q) (p : Q) : Q :=
  blend s (inject_Z (Z.of_nat (List.length s) - 1) * p).

(** Nearest integer, a tie going away from zero. *)
Definition round_half_away (q : Q) : Z :=
  if Qle_bool 0 q then Qfloor (q + (1 # 2)) else Qceiling (q - (1 # 2)).

(** Arithmetic average. *)
Definition average (l : list Q) : Q :=
  fold_right Qplus 0 l / inject_Z (Z.of_nat (List.length l)).

(** The scope levels in their priority order. *)
Inductive Scope := Exact | Prefix | Radius | Region | National.

Definition order : list Scope := [Exact; Prefix; Radius; Region; National].

Definition label (s : Scope) : string :=
  match s with
  | Exact => "zip"
  | Prefix => "zip3"
  | Radius => "radius"
  | Region => "state"
  | National => "national"
  end.

(** The query of a scope, when the scope can be tried at all: [Radius]
    needs the geo row of the query location, [Region] its state. *)
Definition scope_query (req : Request) (qgeo : option GeoRow) (s : Scope)
  : option ClaimsQuery :=
  let y0 := year_from req in
  let y1 := year_to req in
  match s with
  | Exact => Some (ByZip (zip req) (cpt req) y0 y1)
  | Prefix => Some (ByZip3 (substring 0 3 (zip req)) (cpt req) y0 y1)
  | Radius =>
      match qgeo with
      | Some g =>
          Some (ByRadius (g_lat g) (g_lon g) MAX_RADIUS_ZIPS (cpt req) y0 y1)
      | None => None
      end
  | Region =>
      match qgeo with
      | Some {| g_state := Some (String a s') |} =>
          Some (ByState (String a s') (cpt req) y0 y1)
      | _ => None
      end
  | National => Some (Nationwide (cpt req) y0 y1)
  end.

Definition candidates (req : Request) (qgeo : option GeoRow)
  : list (Scope * ClaimsQuery) :=
  flat_map
    (fun s =>
       match scope_query req qgeo s with
       | Some q => [(s, q)]
       | None => []
       end)
    order.

(** The first candidate, in order, whose count reaches [MIN_N]. *)
Definition first_qualifying (count : ClaimsQuery -> nat)
    (cands : list (Scope * ClaimsQuery)) : option (Scope * ClaimsQuery) :=
  find (fun sq => MIN_N <=? count (snd sq)) cands.

(** The candidates tried: up to and including the first qualifying one. *)
Fixpoint tried (count : ClaimsQuery -> nat)
    (cands : list (Scope * ClaimsQuery)) : list (Scope * ClaimsQuery) :=
  match cands with
  | [] => []
  | sq :: rest =>
      if MIN_N <=? count (snd sq) then [sq] else sq :: tried count rest
  end.

(** The scope metadata each cascade reports with an accepted scope;
    [rep] is the answer to the nearest-location query. *)
Definition meta_filtered (req : Request) (qgeo : option GeoRow) (s : Scope)
  : Meta :=
  match s with
  | Exact | Radius =>
      {| representative_zip := Some (zip req); distance_miles := None;
         state := None |}
  | Region =>
      {| representative_zip := None; distance_miles := None;
         state := match qgeo with Some g => g_state g | None => None end |}
  | Prefix | National => no_meta
  end.

Definition meta_unfiltered (req : Request) (qgeo : option GeoRow)
    (rep : list NearRow) (s : Scope) : Meta :=
  match s with
  | Exact =>
      {| representative_zip := Some (zip req); distance_miles := None;
         state := None |}
  | Radius =>
      {| representative_zip := Some (Unfiltered.repZip rep (zip req));
         distance_miles := Some (Unfiltered.repDist rep);
         state := None |}
  | Region =>
      {| representative_zip := None; distance_miles := None;
         state := match qgeo with Some g => g_state g | None => None end |}
  | Prefix | National => no_meta
  end.

(** The claim queries of a log, in order. *)
Definition claim_queries (log : list Event) : list ClaimsQuery :=
  flat_map (fun ev => match ev with EClaims q => [q] | _ => [] end) log.

(** A client none of whose queries rejects. *)
Definition total_client (rowsf : ClaimsQuery -> list Row)
    (geof : string -> list GeoRow) (nearf : Q -> Q -> list NearRow) : Client :=
  {| claims := fun q => inr (rowsf q);
     geo := fun z => inr (geof z);
     nearest := fun a b => inr (nearf a b) |}.

(** The message with which the store rejected a logged query, if it did. *)
Definition rejected (c : Client) (ev : Event) : option string :=
  match ev with
  | EClaims q => match claims c q with inl m => Some m | inr _ => None end
  | EGeo z => match geo c z with inl m => Some m | inr _ => None end
  | ENearest a b => match nearest c a b with inl m => Some m | inr _ => None end
  | ERelease => None
  end.

(** A log none of whose queries was rejected. *)
Definition clean (c : Client) (log : list Event) : Prop :=
  forall ev, In ev log -> rejected c ev = None.

(** Handler code that surfaces rejections: run from a clean log it either
    returns with a clean log, or throws the message of the query it issued
    last, the only rejected one. *)
Definition surfaces (c : Client) (A : Type) (m : M A) : Prop :=
  forall log,
    clean c log ->
    match m log with
    | (log', inr _) => clean c log'
    | (log', inl msg) =>
        exists l ev,
          log' = l ++ [ev] /\ clean c l /\ rejected c ev = Some msg
    end.

(** A request that passes the parameter check and is not a preflight. *)
Definition valid (req : Request) : Prop :=
  String.eqb (method req) "OPTIONS" = false
  /\ zip_ok (zip req) = true /\ cpt_ok (cpt req) = true.

(** The level and the metadata reported by an envelope response. *)
Definition level_of (r : Response) : option string :=
  match r with
  | Json _ (BEnvelope e) => level (used_scope e)
  | _ => None
  end.

(** The rows inside the year window, as [summarize] tests them. *)
Definition in_window (y0 y1 : JS.number) (r : Row) : bool :=
  JS.ge (dos_year r) y0 && JS.le (dos_year r) y1.

(** Amounts of the rows of service year [y] inside the window, in row
    order: what the cascade handlers group under that year. *)
Definition year_amounts (y0 y1 y : JS.number) (rows : list Row)
  : list JS.number :=
  map paid_amt
      (filter (fun r => in_window y0 y1 r && JS.same_key (dos_year r) y) rows).

(** Year and amount of a row the exact-ZIP handler keeps. *)
Definition zip_kept (ignoreZero : bool) (r : Row) : option (Q * Q) :=
  match ZipMetrics.toNum (paid_amt r), ZipMetrics.toNum (dos_year r) with
  | Some amt, Some yr =>
      if ignoreZero && Qle_bool amt 0 then None else Some (yr, amt)
  | _, _ => None
  end.

(** Amounts of the kept rows of service year [y], in row order. *)
Definition zip_year_amounts (ignoreZero : bool) (y : Q) (rows : list Row)
  : list Q :=
  flat_map
    (fun r =>
       match zip_kept ignoreZero r with
       | Some (yr, amt) => if Qeq_bool yr y then [amt] else []
       | None => []
       end)
    rows.

(** The values grouped under key [k] by a run of [JS.push]. *)
Definition grouped (K V : Type) (same : K -> K -> bool) (k : K)
    (kvs : list (K * V)) : list V :=
  map snd (filter (fun kv => same (fst kv) k) kvs).

End Spec.

(* ================================================================== *)
(** ** The claim number of the cursor-paginated handler
       (src/pages/api/claim-metrics.ts, [makeStableClaimNumber]) *)

Module ClaimNumber.

(** A character matched by [[a-f]]. *)
Definition is_af (c : ascii) : bool :=
  (97 <=? nat_of_ascii c) && (nat_of_ascii c <=? 102).

(** [String('012345'[c.charCodeAt(0) - 97])] on such a character. *)
Definition digit_for (c : ascii) : ascii :=
  ascii_of_nat (48 + (nat_of_ascii c - 97)).

(** [h.replace(/[a-f]/g, c => ..)]. *)
Fixpoint replace_af (h : string) : string :=
  match h with
  | EmptyString => EmptyString
  | String c h' =>
      String (if is_af c then digit_for c else c) (replace_af h')
  end.

Section Digest.
(** [crypto.createHash('sha256').update(s).digest('hex')]. *)
Variable sha256_hex : string -> string.

Definition makeStableClaimNumber (orgId : string) (rowId : Z) : string :=
  let h := sha256_hex
             (orgId ++ ":" ++ NilZero.string_of_int (Z.to_int rowId)) in
  substring 0 10 (replace_af h).
End Digest.

End ClaimNumber.

(* ================================================================== *)
(** ** The masked connection string of the diagnostics endpoint
       (src/api/debug-db.js)

    A string is a sequence of code units below 256, among which the line
    terminators are line feed and carriage return. *)

Module DebugDb.

(** A character that [.] does not match. *)
Definition line_end (c : ascii) : bool :=
  (nat_of_ascii c =? 10) || (nat_of_ascii c =? 13).

(** [(.+)@] tried on the text [s] that follows a colon, [taken] characters
    of the line already consumed by [.+]: the text after the match, which
    ends at the last [@] of the line that has a character before it. *)
Fixpoint after_last_at (taken : nat) (s : string) : option string :=
  match s with
  | EmptyString => None
  | String c s' =>
      if line_end c then None
      else
        match after_last_at (S taken) s' with
        | Some rest => Some rest
        | None =>
            if Ascii.eqb c "@" && (1 <=? taken) then Some s' else None
        end
  end.

(** [raw.replace(/:(.+)@/, ":*****@")]: the leftmost match is replaced. *)
Fixpoint mask (raw : string) : string :=
  match raw with
  | EmptyString => EmptyString
  | String c s' =>
      if Ascii.eqb c ":" then
        match after_last_at 0 s' with
        | Some rest => (":*****@" ++ rest)%string
        | None => String c (mask s')
        end
      else String c (mask s')
  end.

End DebugDb.

(* ================================================================== *)
(** ** Further notions: what handler code does on every run *)

Module Notions.
Import Wire Db.

(** Handler code every result of which satisfies [P], whatever the store
    answers. *)
Definition returns (A : Type) (P : A -> Prop) (m : M A) : Prop :=
  forall log, match snd (m log) with inr a => P a | inl _ => True end.

(** Handler code that only appends to the log: at most [n] events, all of
    them queries. *)
Definition within (A : Type) (n : nat) (m : M A) : Prop :=
  forall log, exists added,
    fst (m log) = log ++ added
    /\ (List.length added <= n)%nat
    /\ ~ In ERelease added.

(** An accepted scope as an envelope shows it. *)
Definition accepted (req : Request) (e : Envelope) : Prop :=
  query_zip e = zip req
  /\ (exists s, level (used_scope e) = Some (Spec.label s))
  /\ (MIN_N <= sample_size (used_scope e))%nat
  /\ metrics e <> None.

(** What a cascade handler answers when no query is rejected and a scope
    is accepted or none is: the no-data result or an accepted envelope. *)
Definition outcome (req : Request) (r : Response) : Prop :=
  r = Json 200 (BEnvelope (no_data (zip req)))
  \/ exists e, r = Json 200 (BEnvelope e) /\ accepted req e.

(** The stricter of two [minPaid] floors; a [NaN] floor drops no row. *)
Definition stricter (a b : JS.number) : JS.number :=
  match a, b with
  | JS.NaN, _ => b
  | _, JS.NaN => a
  | _, _ => if JS.lt a b then b else a
  end.

(** A lower-case hexadecimal digit, as [digest('hex')] produces them. *)
Definition is_hex (c : ascii) : bool := is_digit c || ClaimNumber.is_af c.

Fixpoint all_hex (s : string) : bool :=
  match s with
  | EmptyString => true
  | String c s' => is_hex c && all_hex s'
  end.

(** Whether a character occurs in a string. *)
Fixpoint occurs (c : ascii) (s : string) : bool :=
  match s with
  | EmptyString => false
  | String d s' => Ascii.eqb c d || occurs c s'
  end.

(** A string without a line terminator. *)
Fixpoint one_line (s : string) : bool :=
  match s with
  | EmptyString => true
  | String c s' => negb (DebugDb.line_end c) && one_line s'
  end.

(** Two optional amounts that are the same rational, or both [null]. *)
Definition same_amount (a b : option Q) : Prop :=
  match a, b with
  | Some x, Some y => (x == y)%Q
  | None, None => True
  | _, _ => False
  end.

(** The rows the exact-ZIP handler keeps, in row order. *)
Definition zip_rows (ignoreZero : bool) (claims : list Row) : list (Q * Q) :=
  flat_map (fun r => match Spec.zip_kept ignoreZero r with
                     | Some p => [p]
                     | None => []
                     end) claims.

(** Year and wRVU of a row of [rvu_master] that the exact-ZIP handler
    enters into [wrvuByYear]: both finite, the year not 0, the wRVU
    positive. *)
Definition rvu_entry (r : ZipMetrics.RvuRow) : option (Q * Q) :=
  match ZipMetrics.toNum (ZipMetrics.r_year r),
        ZipMetrics.toNum (ZipMetrics.r_wrvu r) with
  | Some yr, Some w =>
      if negb (Qeq_bool yr 0) && ZipMetrics.positive w then Some (yr, w)
      else None
  | _, _ => None
  end.

(** The wRVU of the last such row of year [y]. *)
Definition latest_wrvu (y : Q) (rvuRows : list ZipMetrics.RvuRow)
  : option Q :=
  last (map (fun p => Some (snd p))
            (filter (fun p => Qeq_bool y (fst p))
                    (flat_map (fun r => match rvu_entry r with
                                        | Some p => [p]
                                        | None => []
                                        end) rvuRows)))
       None.

(** The binary64 value nearest to the decimal [q]: what a numeric literal
    or a numeric column holds once it is read as a number. *)
Definition dbl (q : Q) : Q :=
  match JS.fl q with JS.Fin v => v | _ => 0 end.

(** An amount that is a whole number and not negative. *)
Definition whole (a : Q) : Prop :=
  (0 <= a)%Q /\ (a == inject_Z (Qfloor a))%Q.

(** The exact sum. *)
Definition total (l : list Q) : Q := fold_right Qplus 0 l.

(** The average as the handlers compute it: the running sum of the
    ascending amounts, rounded after every addition, over their number. *)
Definition average64 (vals : list Q) : JS.number :=
  JS.div (JS.sum (map JS.Fin vals)) (JS.size vals).

(** The rows of an awaited [fetchScope] that resolved without error;
    none if it resolved with an error, without data, or was rejected. *)
Definition rows_of (r : Result (ZipMetrics.SbResult Paged.VRow))
  : list Paged.VRow :=
  match r with
  | inr x =>
      match ZipMetrics.error x, ZipMetrics.data x with
      | None, Some l => l
      | _, _ => []
      end
  | inl _ => []
  end.

End Notions.

(* ================================================================== *)
(** ** Properties *)

(** *** Sorting *)

Section SortFacts.
Variable A : Type.
Variable after : A -> A -> bool.

Lemma insert_perm (x : A) (l : list A) :
  Permutation (JS.insert after x l) (x :: l).
Proof.
  induction l as [|y l IH]; simpl.
  - apply Permutation_refl.
  - destruct (after x y).
    + eapply perm_trans; [apply perm_skip, IH | apply perm_swap].
    + apply Permutation_refl.
Qed.

Lemma sort_perm (l : list A) : Permutation (JS.sort after l) l.
Proof.
  induction l as [|x l IH]; simpl.
  - constructor.
  - eapply perm_trans; [apply insert_perm | now apply perm_skip].
Qed.

Lemma sort_length (l : list A) :
  List.length (JS.sort after l) = List.length l.
Proof. apply Permutation_length, sort_perm. Qed.

Lemma sort_in (l : list A) (x : A) : In x (JS.sort after l) <-> In x l.
Proof.
  split; apply Permutation_in;
    [apply sort_perm | apply Permutation_sym, sort_perm].
Qed.

Hypothesis after_asym : forall x y, after x y = true -> after y x = false.

Lemma insert_hd (x y : A) (l : list A) :
  JS.upto after y x -> HdRel (JS.upto after) y l -> HdRel (JS.upto after) y (JS.insert after x l).
Proof.
  intros Hyx Hl. destruct l as [|z l]; simpl.
  - now constructor.
  - destruct (after x z); constructor; trivial.
    now inversion Hl.
Qed.

Lemma insert_sorted (x : A) (l : list A) :
  Sorted (JS.upto after) l -> Sorted (JS.upto after) (JS.insert after x l).
Proof.
  induction 1 as [|y l Hs IH Hd]; simpl.
  - repeat constructor.
  - destruct (after x y) eqn:E.
    + constructor; [exact IH |].
      apply insert_hd; [now apply after_asym | exact Hd].
    + constructor; [now constructor | now constructor].
Qed.

Lemma sort_sorted (l : list A) : Sorted (JS.upto after) (JS.sort after l).
Proof.
  induction l as [|x l IH]; simpl.
  - constructor.
  - now apply insert_sorted.
Qed.
End SortFacts.

Lemma Qafter_false (a b : Q) : JS.Qafter a b = false <-> (a <= b)%Q.
Proof.
  unfold JS.Qafter. rewrite negb_false_iff. apply Qle_bool_iff.
Qed.

Lemma Qafter_true (a b : Q) : JS.Qafter a b = true <-> (b < a)%Q.
Proof.
  unfold JS.Qafter. rewrite negb_true_iff.
  split; intro H.
  - apply Qnot_le_lt. intro C. apply Qle_bool_iff in C. congruence.
  - destruct (Qle_bool a b) eqn:E; trivial.
    apply Qle_bool_iff in E. exfalso. apply (Qlt_not_le _ _ H E).
Qed.

Section KeyedSort.
Variable A : Type.
Variable key : A -> Q.
Let after (a b : A) : bool := JS.Qafter (key a) (key b).

Lemma sort_by_key_sorted (l : list A) :
  StronglySorted (fun a b => (key a <= key b)%Q) (JS.sort after l).
Proof.
  apply Sorted_StronglySorted.
  - intros a b c Hab Hbc. now apply Qle_trans with (key b).
  - assert (H : Sorted (JS.upto after) (JS.sort after l)).
    { apply sort_sorted. intros x y Hxy. unfold after in *.
      apply Qafter_true in Hxy. apply Qafter_false. now apply Qlt_le_weak. }
    revert H. generalize (JS.sort after l). intros s Hs.
    induction Hs as [|a s Hs IH Hd]; constructor; trivial.
    destruct Hd; constructor. now apply Qafter_false.
Qed.

Lemma sort_by_key_hd_min (l : list A) (x : A) :
  hd_error (JS.sort after l) = Some x ->
  In x l /\ forall y, In y l -> (key x <= key y)%Q.
Proof.
  intro H. pose proof (sort_by_key_sorted l) as S.
  destruct (JS.sort after l) as [|z s] eqn:E; [discriminate |].
  injection H as ->. split.
  - apply (sort_in after l x). rewrite E. now left.
  - intros y Hy. apply (sort_in after l y) in Hy. rewrite E in Hy.
    inversion S as [|? ? _ Hall]; subst.
    destruct Hy as [<- | Hy]; [apply Qle_refl |].
    rewrite Forall_forall in Hall. now apply Hall.
Qed.
End KeyedSort.

Lemma sortQ_sorted (l : list Q) : StronglySorted Qle (JS.sortQ l).
Proof. exact (sort_by_key_sorted (fun q => q) l). Qed.

Lemma sortQ_perm (l : list Q) : Permutation (JS.sortQ l) l.
Proof. apply sort_perm. Qed.

Lemma sortQ_length (l : list Q) : List.length (JS.sortQ l) = List.length l.
Proof. apply sort_length. Qed.

Lemma sorted_nth_le (s : list Q) :
  StronglySorted Qle s ->
  forall i j, (i <= j)%nat -> (j < List.length s)%nat ->
  (nth i s 0 <= nth j s 0)%Q.
Proof.
  induction 1 as [|a s Hs IH Hall]; intros i j Hij Hj; simpl in Hj.
  - lia.
  - destruct i as [|i], j as [|j]; simpl; try lia.
    + apply Qle_refl.
    + rewrite Forall_forall in Hall. apply Hall, nth_In. lia.
    + apply IH; lia.
Qed.

(** *** Floor, ceiling and array access *)

Lemma floor_bounds (x : Q) :
  (inject_Z (Qfloor x) <= x)%Q /\ (x < inject_Z (Qfloor x) + 1)%Q.
Proof.
  split; [apply Qfloor_le |].
  pose proof (Qlt_floor x) as H. rewrite inject_Z_plus in H. exact H.
Qed.

Lemma ceiling_bounds (x : Q) :
  (x <= inject_Z (Qceiling x))%Q /\ (inject_Z (Qceiling x) - 1 < x)%Q.
Proof.
  split; [apply Qle_ceiling |].
  pose proof (Qceiling_lt x) as H.
  unfold Z.sub in H. rewrite inject_Z_plus in H. exact H.
Qed.

Lemma floor_le_ceiling (x : Q) : (Qfloor x <= Qceiling x)%Z.
Proof. rewrite Zle_Qle. apply Qle_floor_ceiling. Qed.

Lemma ceiling_le_floor_succ (x : Q) : (Qceiling x <= Qfloor x + 1)%Z.
Proof.
  destruct (floor_bounds x) as [_ H1]. destruct (ceiling_bounds x) as [_ H2].
  assert (H : (inject_Z (Qceiling x) < inject_Z (Qfloor x + 2))%Q).
  { rewrite inject_Z_plus. change (inject_Z 2) with 2%Q. lra. }
  rewrite <- Zlt_Qlt in H. lia.
Qed.

Lemma floor_range (x : Q) (n : Z) :
  (0 <= x)%Q -> (x <= inject_Z n)%Q ->
  (0 <= Qfloor x <= n)%Z /\ (0 <= Qceiling x <= n)%Z.
Proof.
  intros H0 Hn.
  pose proof (Qfloor_resp_le _ _ H0) as F0. change (Qfloor 0) with 0%Z in F0.
  pose proof (Qfloor_resp_le _ _ Hn) as Fn. rewrite Qfloor_Z in Fn.
  pose proof (Qceiling_resp_le _ _ H0) as C0. change (Qceiling 0) with 0%Z in C0.
  pose proof (Qceiling_resp_le _ _ Hn) as Cn. rewrite Qceiling_Z in Cn.
  lia.
Qed.

Lemma floor_eq_ceiling (x : Q) :
  Qfloor x = Qceiling x -> (x == inject_Z (Qfloor x))%Q.
Proof.
  intro E. destruct (floor_bounds x) as [H1 _].
  destruct (ceiling_bounds x) as [H2 _]. rewrite <- E in H2.
  apply Qle_antisym; trivial.
Qed.

Lemma floor_unique (x : Q) (z : Z) :
  (inject_Z z <= x)%Q -> (x < inject_Z z + 1)%Q -> Qfloor x = z.
Proof.
  intros L U. destruct (floor_bounds x) as [L' U'].
  assert (A : (z < Qfloor x + 1)%Z).
  { rewrite Zlt_Qlt, inject_Z_plus. change (inject_Z 1) with 1%Q. lra. }
  assert (B : (Qfloor x < z + 1)%Z).
  { rewrite Zlt_Qlt, inject_Z_plus. change (inject_Z 1) with 1%Q. lra. }
  lia.
Qed.

Lemma ceiling_unique (x : Q) (z : Z) :
  (inject_Z z - 1 < x)%Q -> (x <= inject_Z z)%Q -> Qceiling x = z.
Proof.
  intros L U. destruct (ceiling_bounds x) as [L' U'].
  assert (A : (z < Qceiling x + 1)%Z).
  { rewrite Zlt_Qlt, inject_Z_plus. change (inject_Z 1) with 1%Q. lra. }
  assert (B : (Qceiling x < z + 1)%Z).
  { rewrite Zlt_Qlt, inject_Z_plus. change (inject_Z 1) with 1%Q. lra. }
  lia.
Qed.

Lemma atZ_nth (s : list Q) (i : Z) :
  (0 <= i < Z.of_nat (List.length s))%Z ->
  JS.atZ s i = Some (nth (Z.to_nat i) s 0%Q).
Proof.
  intros [H0 H1]. unfold JS.atZ.
  destruct (i <? 0)%Z eqn:E; [apply Z.ltb_lt in E; lia |].
  apply nth_error_nth'. lia.
Qed.

(** *** Rounding to binary64 *)

(** Known values: 0.1; 0.1 + 0.2, which is 0.30000000000000004; the
    largest finite value, and the overflow half a unit above it; the
    least subnormal, and the underflow to 0 half a unit below it. *)
Example fl_known_values :
  JS.fl (1 # 10) = JS.Fin (3602879701896397 # 36028797018963968)
  /\ JS.add (JS.Fin (Notions.dbl (1 # 10))) (JS.Fin (Notions.dbl (2 # 10)))
     = JS.Fin (1351079888211149 # 4503599627370496)
  /\ JS.fl (inject_Z (2 ^ 1024 - 2 ^ 970 - 1))
     = JS.Fin (inject_Z (2 ^ 1024 - 2 ^ 971))
  /\ JS.fl (inject_Z (2 ^ 1024 - 2 ^ 970)) = JS.PosInf
  /\ JS.fl (3 # 2 ^ 1076) = JS.Fin (1 # 2 ^ 1074)
  /\ JS.fl (1 # 2 ^ 1075) = JS.Fin 0.
Proof. vm_compute. repeat split; reflexivity. Qed.

Lemma fl_comp (a b : Q) : (a == b)%Q -> JS.fl a = JS.fl b.
Proof. intro H. unfold JS.fl. now rewrite (Qred_complete a b H). Qed.

Lemma fl_not_nan (q : Q) : JS.fl q <> JS.NaN.
Proof.
  unfold JS.fl. cbv zeta.
  destruct (Qeq_bool _ 0); [discriminate |].
  destruct (Qle_bool (2 ^ 1024) _); destruct (Qle_bool 0 _); discriminate.
Qed.

Lemma fl_zero (q : Q) : (q == 0)%Q -> JS.fl q = JS.Fin 0.
Proof. intro H. now rewrite (fl_comp H). Qed.

Lemma two_pos (z : Z) : (0 < 2 ^ z)%Q.
Proof. apply Qpower_0_lt. reflexivity. Qed.

Lemma two_succ (z : Z) : (2 ^ (z + 1) == 2 * 2 ^ z)%Q.
Proof.
  rewrite Qpower_plus by discriminate. rewrite Qpower_1_r. ring.
Qed.

Lemma two_inject (z : Z) : (0 <= z)%Z -> (inject_Z (2 ^ z) == 2 ^ z)%Q.
Proof. intro H. now rewrite Zpower_Qpower. Qed.

Lemma log2_bounds (n : Z) :
  (0 < n)%Z ->
  (2 ^ Z.log2 n <= inject_Z n)%Q /\ (inject_Z n < 2 * 2 ^ Z.log2 n)%Q.
Proof.
  intro H. destruct (Z.log2_spec n H) as [L U].
  pose proof (Z.log2_nonneg n) as P.
  split.
  - rewrite <- two_inject by trivial. now rewrite <- Zle_Qle.
  - rewrite <- two_succ. rewrite <- two_inject by lia.
    rewrite <- Zlt_Qlt. now rewrite <- Z.add_1_r in U.
Qed.

(** [JS.exponent] is the binary exponent. *)
Lemma exponent_spec (a : Q) :
  (0 < a)%Q ->
  (2 ^ JS.exponent a <= a)%Q /\ (a < 2 ^ (JS.exponent a + 1))%Q.
Proof.
  intro Ha. unfold JS.exponent. cbv zeta.
  destruct a as [n d]. cbn [Qnum Qden].
  assert (Hn : (0 < n)%Z).
  { unfold Qlt in Ha. simpl in Ha. lia. }
  destruct (log2_bounds Hn) as [Ln Un].
  destruct (@log2_bounds (Zpos d) eq_refl) as [Ld Ud].
  set (ln := Z.log2 n) in *. set (ld := Z.log2 (Zpos d)) in *.
  pose proof (two_pos ln) as Pn. pose proof (two_pos ld) as Pd.
  assert (E0 : (2 ^ (ln - ld) == 2 ^ ln / 2 ^ ld)%Q)
    by (apply Qpower_minus; discriminate).
  assert (Ea : (n # d == inject_Z n / inject_Z (Zpos d))%Q)
    by apply Qmake_Qdiv.
  assert (PD : (0 < inject_Z (Zpos d))%Q) by reflexivity.
  set (N := inject_Z n) in *. set (D := inject_Z (Zpos d)) in *.
  set (A := (2 ^ ln)%Q) in *. set (B := (2 ^ ld)%Q) in *.
  destruct (Qle_bool (2 ^ (ln - ld)) (n # d)) eqn:T.
  - apply Qle_bool_iff in T. split; trivial.
    rewrite two_succ, E0, Ea. fold A B.
    apply Qlt_shift_div_r; trivial.
    assert (X : (2 * (A / B) * D == (2 * A * D) / B)%Q) by (field; lra).
    rewrite X. apply Qlt_shift_div_l; trivial. nra.
  - assert (L : (n # d < 2 ^ (ln - ld))%Q).
    { apply Qnot_le_lt. intro C. apply Qle_bool_iff in C. congruence. }
    split.
    + replace (ln - ld - 1)%Z with (ln - (ld + 1))%Z by lia.
      rewrite Qpower_minus by discriminate. rewrite two_succ, Ea.
      fold A B. apply Qle_shift_div_l; trivial.
      assert (X : (A / (2 * B) * D == (A * D) / (2 * B))%Q) by (field; lra).
      rewrite X. apply Qle_shift_div_r; [lra |]. nra.
    + now replace (ln - ld - 1 + 1)%Z with (ln - ld)%Z by lia.
Qed.

Lemma round_even_integer (y : Q) (k : Z) :
  (y == inject_Z k)%Q -> JS.round_even y = k.
Proof.
  intro H. unfold JS.round_even. cbv zeta.
  assert (F : Qfloor y = k) by (rewrite (Qfloor_comp _ _ H); apply Qfloor_Z).
  rewrite F.
  assert (C : (y - inject_Z k ?= 1 # 2)%Q = Lt).
  { apply -> Qlt_alt. lra. }
  now rewrite C.
Qed.

Lemma round_even_nonneg (y : Q) : (0 <= y)%Q -> (0 <= JS.round_even y)%Z.
Proof.
  intro H. unfold JS.round_even. cbv zeta.
  assert (F : (0 <= Qfloor y)%Z).
  { change 0%Z with (Qfloor 0). now apply Qfloor_resp_le. }
  destruct (y - inject_Z (Qfloor y) ?= 1 # 2)%Q; try lia.
  destruct (Z.even (Qfloor y)); lia.
Qed.

(** A value with at most 53 significant bits, a multiple of the least
    subnormal and below [2^1024], is its own rounding. *)
Lemma fl_exact (m j : Z) :
  (0 < m < 2 ^ 53)%Z -> (-1074 <= j)%Z ->
  (inject_Z m * 2 ^ j < 2 ^ 1024)%Q ->
  JS.fl (inject_Z m * 2 ^ j) = JS.Fin (Qred (inject_Z m * 2 ^ j)).
Proof.
  intros [M0 M1] J B.
  set (q := (inject_Z m * 2 ^ j)%Q) in *.
  assert (Pq : (0 < q)%Q).
  { unfold q. pose proof (two_pos j).
    assert (0 < inject_Z m)%Q
      by (change 0%Q with (inject_Z 0); now rewrite <- Zlt_Qlt).
    nra. }
  unfold JS.fl. cbv zeta.
  assert (Er : (Qred q == q)%Q) by apply Qred_correct.
  assert (Ea : (Qabs (Qred q) == q)%Q).
  { rewrite Er. apply Qabs_pos. lra. }
  set (a := Qabs (Qred q)) in *.
  assert (Z0 : Qeq_bool a 0 = false).
  { destruct (Qeq_bool a 0) eqn:E; trivial. apply Qeq_bool_iff in E. lra. }
  rewrite Z0.
  assert (Pa : (0 < a)%Q) by lra.
  destruct (exponent_spec Pa) as [L U].
  set (e := JS.exponent a) in *.
  set (x := (Z.max e (-1022) - 52)%Z).
  assert (X : (x <= j)%Z).
  { assert (e < 53 + j)%Z.
    { apply (Qpower_lt_compat_l_inv 2); [| reflexivity].
      rewrite Qpower_plus by discriminate.
      assert (inject_Z m < 2 ^ 53)%Q.
      { rewrite <- two_inject by lia. now rewrite <- Zlt_Qlt. }
      pose proof (two_pos j). unfold q in Ea. nra. }
    unfold x. lia. }
  assert (Y : (a / 2 ^ x == inject_Z (m * 2 ^ (j - x)))%Q).
  { rewrite Ea. unfold q. rewrite inject_Z_mult, two_inject by lia.
    rewrite Qpower_minus by discriminate.
    unfold Qdiv. now rewrite Qmult_assoc. }
  rewrite (round_even_integer Y).
  assert (V : (inject_Z (m * 2 ^ (j - x)) * 2 ^ x == q)%Q).
  { rewrite <- Y. pose proof (two_pos x). set (Px := (2 ^ x)%Q) in *.
    unfold Qdiv. rewrite <- Qmult_assoc, (Qmult_comm (/ Px)).
    rewrite Qmult_inv_r by lra. now rewrite Qmult_1_r. }
  rewrite (Qred_complete _ _ V).
  assert (O : Qle_bool (2 ^ 1024) (Qred q) = false).
  { destruct (Qle_bool (2 ^ 1024) (Qred q)) eqn:E; trivial.
    apply Qle_bool_iff in E. lra. }
  rewrite O.
  assert (S : Qle_bool 0 (Qred q) = true) by (apply Qle_bool_iff; lra).
  now rewrite S.
Qed.

(** A small multiple of a quarter is its own rounding. *)
Lemma fl_quarters (m : Z) :
  (0 <= m < 2 ^ 53)%Z -> JS.fl (inject_Z m / 4) = JS.Fin (Qred (inject_Z m / 4)).
Proof.
  intros [M0 M1].
  assert (D : m = 0%Z \/ (0 < m)%Z) by lia. destruct D as [-> | P].
  - reflexivity.
  - assert (E : (inject_Z m / 4 == inject_Z m * 2 ^ (-2))%Q) by reflexivity.
    rewrite (fl_comp E), (Qred_complete _ _ E).
    apply fl_exact; [lia | lia |].
    assert (inject_Z m < 2 ^ 53)%Q.
    { rewrite <- two_inject by lia. now rewrite <- Zlt_Qlt. }
    assert (0 < inject_Z m)%Q
      by (change 0%Q with (inject_Z 0); now rewrite <- Zlt_Qlt).
    assert ((2 : Q) ^ (-2) == 1 # 4)%Q by reflexivity.
    assert ((2 : Q) ^ 53 < 2 ^ 1024)%Q
      by (apply Qpower_lt_compat_l; [lia | reflexivity]).
    nra.
Qed.

(** The rounding of a result that is not negative is not negative. *)
Lemma fl_nonneg (q : Q) : (0 <= q)%Q -> JS.ge (JS.fl q) (JS.Fin 0) = true.
Proof.
  intro H. unfold JS.fl. cbv zeta.
  destruct (Qeq_bool (Qabs (Qred q)) 0); [reflexivity |].
  assert (S : Qle_bool 0 (Qred q) = true).
  { apply Qle_bool_iff. now rewrite Qred_correct. }
  rewrite S.
  destruct (Qle_bool (2 ^ 1024) _); [reflexivity |].
  set (x := (Z.max _ _ - 52)%Z).
  pose proof (two_pos x) as P.
  assert (R : (0 <= JS.round_even (Qabs (Qred q) / 2 ^ x))%Z).
  { apply round_even_nonneg. apply Qle_shift_div_l; trivial.
    rewrite Qmult_0_l. apply Qabs_nonneg. }
  assert (I : (0 <= inject_Z (JS.round_even (Qabs (Qred q) / 2 ^ x)))%Q)
    by (change 0%Q with (inject_Z 0); now rewrite <- Zle_Qle).
  set (v := Qred _).
  assert (V : (0 <= v)%Q) by (unfold v; rewrite Qred_correct; nra).
  unfold JS.ge, JS.compare.
  pose proof (proj1 (Qle_alt 0 v) V) as N.
  rewrite <- (Qcompare_antisym v 0) in N.
  destruct (v ?= 0)%Q; trivial. now elim N.
Qed.

Lemma ge_zero (q : Q) : JS.ge (JS.Fin q) (JS.Fin 0) = true -> (0 <= q)%Q.
Proof.
  unfold JS.ge, JS.compare. intro H.
  apply (proj2 (Qle_alt 0 q)). rewrite <- (Qcompare_antisym q 0).
  destruct (q ?= 0)%Q; simpl; discriminate.
Qed.

(** *** Sums and quotients in binary64 *)

Lemma add_not_nan (a : JS.number) (x : Q) :
  a <> JS.NaN -> JS.add a (JS.Fin x) <> JS.NaN.
Proof.
  destruct a; simpl; intro H; try discriminate; try contradiction.
  apply fl_not_nan.
Qed.

Lemma sum_from_not_nan (l : list Q) (acc : JS.number) :
  acc <> JS.NaN -> fold_left JS.add (map JS.Fin l) acc <> JS.NaN.
Proof.
  revert acc. induction l as [|x l IH]; intros acc H; simpl; trivial.
  apply IH. now apply add_not_nan.
Qed.

(** A sum of finite amounts is never [NaN]. *)
Lemma sum_not_nan (l : list Q) : JS.sum (map JS.Fin l) <> JS.NaN.
Proof. unfold JS.sum. apply sum_from_not_nan. discriminate. Qed.

Lemma size_positive (A : Type) (l : list A) :
  l <> [] -> (0 < inject_Z (Z.of_nat (List.length l)))%Q.
Proof.
  intro H. change 0%Q with (inject_Z 0). rewrite <- Zlt_Qlt.
  destruct l; [contradiction | simpl; lia].
Qed.

(** Over a positive divisor the quotient is the rounded exact quotient. *)
Lemma div_positive (a w : Q) :
  (0 < w)%Q -> JS.div (JS.Fin a) (JS.Fin w) = JS.fl (a / w).
Proof.
  intro H. cbn [JS.div].
  destruct (Qeq_bool w 0) eqn:E; trivial.
  apply Qeq_bool_iff in E. lra.
Qed.

Lemma div_size_not_nan (A : Type) (a : JS.number) (l : list A) :
  a <> JS.NaN -> l <> [] -> JS.div a (JS.size l) <> JS.NaN.
Proof.
  intros H N. pose proof (size_positive N) as P. unfold JS.size.
  set (n := inject_Z _) in *.
  assert (Z0 : Qeq_bool n 0 = false).
  { destruct (Qeq_bool n 0) eqn:E; trivial. apply Qeq_bool_iff in E. lra. }
  assert (Z1 : Qle_bool 0 n = true) by (apply Qle_bool_iff; lra).
  destruct a; simpl; rewrite ?Z0, ?Z1; try discriminate; try contradiction.
  apply fl_not_nan.
Qed.

(** The running sum of amounts that are equal one by one. *)
Lemma sum_comp (l l' : list Q) :
  Forall2 Qeq l l' -> JS.sum (map JS.Fin l) = JS.sum (map JS.Fin l').
Proof.
  intro H. unfold JS.sum. generalize (JS.Fin 0).
  induction H as [|x y l l' E _ IH]; intro acc; simpl; trivial.
  rewrite IH. f_equal.
  destruct acc; simpl; trivial. apply fl_comp. now rewrite E.
Qed.

Lemma add_nonneg (a : JS.number) (x : Q) :
  JS.ge a (JS.Fin 0) = true -> (0 <= x)%Q ->
  JS.ge (JS.add a (JS.Fin x)) (JS.Fin 0) = true.
Proof.
  intros H X. destruct a as [q| | |]; simpl in *; try discriminate; trivial.
  apply fl_nonneg. pose proof (ge_zero _ H). lra.
Qed.

(** A sum of amounts none of which is negative is not negative. *)
Lemma sum_nonneg (l : list Q) :
  Forall (fun x => (0 <= x)%Q) l ->
  JS.ge (JS.sum (map JS.Fin l)) (JS.Fin 0) = true.
Proof.
  intro H. unfold JS.sum.
  assert (G : forall acc, JS.ge acc (JS.Fin 0) = true ->
            JS.ge (fold_left JS.add (map JS.Fin l) acc) (JS.Fin 0) = true).
  { induction H as [|x l X _ IH]; intros acc A; simpl; trivial.
    apply IH. now apply add_nonneg. }
  apply G. reflexivity.
Qed.

Lemma div_size_nonneg (A : Type) (a : JS.number) (l : list A) :
  JS.ge a (JS.Fin 0) = true -> l <> [] ->
  JS.ge (JS.div a (JS.size l)) (JS.Fin 0) = true.
Proof.
  intros H N. pose proof (size_positive N) as P. unfold JS.size.
  set (n := inject_Z _) in *.
  assert (Z0 : Qeq_bool n 0 = false).
  { destruct (Qeq_bool n 0) eqn:E; trivial. apply Qeq_bool_iff in E. lra. }
  assert (Z1 : Qle_bool 0 n = true) by (apply Qle_bool_iff; lra).
  destruct a as [q| | |]; simpl in *; rewrite ?Z0, ?Z1; try discriminate;
    trivial.
  apply fl_nonneg. pose proof (ge_zero _ H).
  apply Qle_shift_div_l; lra.
Qed.

(** *** The interpolation [blend] on a sorted array *)

Section Blend.
Variable s : list Q.
Hypothesis s_sorted : StronglySorted Qle s.

Let N : Z := (Z.of_nat (List.length s) - 1)%Z.

Lemma nth_mono (a b : Z) :
  (0 <= a <= b)%Z -> (b <= N)%Z ->
  (nth (Z.to_nat a) s 0 <= nth (Z.to_nat b) s 0)%Q.
Proof.
  intros Hab Hb. apply sorted_nth_le; trivial; unfold N in *; lia.
Qed.

Lemma blend_bounds (i : Q) :
  (0 <= i)%Q -> (i <= inject_Z N)%Q ->
  (nth (Z.to_nat (Qfloor i)) s 0 <= Spec.blend s i)%Q
  /\ (Spec.blend s i <= nth (Z.to_nat (Qceiling i)) s 0)%Q.
Proof.
  intros H0 HN.
  destruct (floor_range H0 HN) as [[F0 FN] [C0 CN]].
  pose proof (floor_le_ceiling i) as FC.
  pose proof (nth_mono (conj F0 FC) CN) as Hnth.
  destruct (floor_bounds i) as [B1 B2].
  unfold Spec.blend.
  set (a := nth (Z.to_nat (Qfloor i)) s 0) in *.
  set (b := nth (Z.to_nat (Qceiling i)) s 0) in *.
  set (f := inject_Z (Qfloor i)) in *.
  split; nra.
Qed.

Lemma blend_mono (i j : Q) :
  (0 <= i)%Q -> (i <= j)%Q -> (j <= inject_Z N)%Q ->
  (Spec.blend s i <= Spec.blend s j)%Q.
Proof.
  intros H0 Hij HN.
  assert (Hi : (i <= inject_Z N)%Q) by lra.
  assert (Hj : (0 <= j)%Q) by lra.
  destruct (floor_range H0 Hi) as [[Fi0 FiN] [Ci0 CiN]].
  destruct (floor_range Hj HN) as [[Fj0 FjN] [Cj0 CjN]].
  pose proof (Qfloor_resp_le _ _ Hij) as Fm.
  pose proof (Qceiling_resp_le _ _ Hij) as Cm.
  destruct (blend_bounds H0 Hi) as [Li Ui].
  destruct (blend_bounds Hj HN) as [Lj Uj].
  destruct (Z.eq_dec (Qfloor i) (Qfloor j)) as [E | NE].
  - destruct (Z.eq_dec (Qceiling i) (Qceiling j)) as [E' | NE'].
    + pose proof (floor_le_ceiling j) as FC.
      pose proof (nth_mono (conj Fj0 FC) CjN) as Hnth.
      unfold Spec.blend. rewrite E, E'.
      set (a := nth (Z.to_nat (Qfloor j)) s 0) in *.
      set (b := nth (Z.to_nat (Qceiling j)) s 0) in *.
      set (f := inject_Z (Qfloor j)) in *.
      nra.
    + pose proof (ceiling_le_floor_succ j) as CF.
      pose proof (floor_le_ceiling i) as FCi.
      assert (Ec : Qfloor i = Qceiling i) by lia.
      apply Qle_trans with (nth (Z.to_nat (Qfloor j)) s 0); trivial.
      rewrite <- E, Ec. exact Ui.
  - pose proof (ceiling_le_floor_succ i) as CF.
    assert (Hc : (Qceiling i <= Qfloor j)%Z) by lia.
    apply Qle_trans with (nth (Z.to_nat (Qceiling i)) s 0); trivial.
    apply Qle_trans with (nth (Z.to_nat (Qfloor j)) s 0); trivial.
    apply nth_mono; lia.
Qed.
End Blend.

(** *** [pct] against the interpolation *)

Lemma blend_integer (s : list Q) (i : Q) (z : Z) :
  (i == inject_Z z)%Q -> (Spec.blend s i == nth (Z.to_nat z) s 0)%Q.
Proof.
  intro E.
  assert (F : Qfloor i = z) by (rewrite E; apply Qfloor_Z).
  assert (C : Qceiling i = z) by (rewrite E; apply Qceiling_Z).
  unfold Spec.blend. rewrite F, C, E. ring.
Qed.

Lemma inject_Z_nonneg (n : Z) : (0 <= n)%Z -> (0 <= inject_Z n)%Q.
Proof. intro H. change 0%Q with (inject_Z 0). now rewrite <- Zle_Qle. Qed.

Lemma index_range (s : list Q) (p : Q) :
  s <> [] -> (0 <= p)%Q -> (p <= 1)%Q ->
  let N := (Z.of_nat (List.length s) - 1)%Z in
  (0 <= N)%Z /\ (0 <= inject_Z N * p)%Q /\ (inject_Z N * p <= inject_Z N)%Q.
Proof.
  intros Hs H0 H1 N.
  assert (HN : (0 <= N)%Z).
  { destruct s; [congruence | unfold N; simpl List.length; lia]. }
  assert (HQ : (0 <= inject_Z N)%Q) by now apply inject_Z_nonneg.
  repeat split; trivial; nra.
Qed.

Lemma pct_interp (s : list Q) (p : Q) :
  s <> [] -> (0 <= p)%Q -> (p <= 1)%Q ->
  exists v, ZipMetrics.pct s p = Some v /\ (v == Spec.interp s p)%Q.
Proof.
  intros Hs H0 H1.
  destruct (index_range Hs H0 H1) as (HN & Hi0 & HiN).
  set (N := (Z.of_nat (List.length s) - 1)%Z) in *.
  unfold ZipMetrics.pct, Spec.interp. fold N.
  destruct s as [|a s']; [congruence |].
  set (s := a :: s') in *.
  destruct (Qle_bool p 0) eqn:E0.
  - apply Qle_bool_iff in E0.
    exists a. split; [reflexivity |].
    rewrite (@blend_integer s (inject_Z N * p) 0%Z); [reflexivity |].
    assert (p == 0)%Q by (apply Qle_antisym; trivial).
    rewrite H. change (inject_Z 0) with 0%Q. ring.
  - destruct (Qle_bool 1 p) eqn:E1.
    + apply Qle_bool_iff in E1.
      exists (nth (Z.to_nat N) s 0%Q). split.
      * unfold JS.at_. replace (List.length s - 1)%nat with (Z.to_nat N)
          by (unfold N; lia).
        apply nth_error_nth'. unfold N. simpl List.length. lia.
      * rewrite (@blend_integer s (inject_Z N * p) N); [reflexivity |].
        assert (p == 1)%Q by (apply Qle_antisym; trivial).
        rewrite H. ring.
    + set (i := (inject_Z N * p)%Q) in *.
      destruct (floor_range Hi0 HiN) as [[F0 FN] [C0 CN]].
      assert (Hlo : JS.atZ s (Qfloor i) = Some (nth (Z.to_nat (Qfloor i)) s 0%Q))
        by (apply atZ_nth; unfold N in *; lia).
      assert (Hhi : JS.atZ s (Qceiling i)
                    = Some (nth (Z.to_nat (Qceiling i)) s 0%Q))
        by (apply atZ_nth; unfold N in *; lia).
      destruct (Qfloor i =? Qceiling i)%Z eqn:E.
      * apply Z.eqb_eq in E.
        eexists. split; [exact Hlo |].
        symmetry. apply blend_integer. now apply floor_eq_ceiling.
      * rewrite Hlo, Hhi. eexists. split; [reflexivity |].
        unfold Spec.blend. ring.
Qed.

(** Over the rationals, where no product and no sum is rounded, [pct]
    does not decrease when [p] grows. *)
Lemma pct_mono (s : list Q) (p1 p2 : Q) :
  StronglySorted Qle s -> s <> [] ->
  (0 <= p1)%Q -> (p1 <= p2)%Q -> (p2 <= 1)%Q ->
  exists a b, ZipMetrics.pct s p1 = Some a /\ ZipMetrics.pct s p2 = Some b
              /\ (a <= b)%Q.
Proof.
  intros Hsorted Hs H0 H12 H1.
  assert (H1' : (p1 <= 1)%Q) by lra.
  assert (H0' : (0 <= p2)%Q) by lra.
  destruct (pct_interp Hs H0 H1') as (a & Ha & Ea).
  destruct (pct_interp Hs H0' H1) as (b & Hb & Eb).
  exists a, b. repeat split; trivial.
  rewrite Ea, Eb. unfold Spec.interp.
  destruct (index_range Hs H0 H1') as (HN & Hi0 & _).
  destruct (index_range Hs H0' H1) as (_ & _ & HjN).
  set (N := (Z.of_nat (List.length s) - 1)%Z) in *.
  assert (HQ : (0 <= inject_Z N)%Q) by now apply inject_Z_nonneg.
  apply blend_mono; trivial. nra.
Qed.

Lemma sorted_ends (s : list Q) :
  StronglySorted Qle s -> s <> [] ->
  forall x, In x s ->
  (nth 0 s 0 <= x)%Q /\ (x <= nth (List.length s - 1) s 0)%Q.
Proof.
  intros Hsorted Hs x Hx.
  destruct (In_nth s x 0%Q Hx) as (k & Hk & <-).
  split; apply sorted_nth_le; trivial; lia.
Qed.

(** *** [pct] in binary64 *)

Lemma round_even_le (y : Q) (k : Z) :
  (y <= inject_Z k)%Q -> (JS.round_even y <= k)%Z.
Proof.
  intro H. unfold JS.round_even. cbv zeta.
  assert (F : (Qfloor y <= k)%Z).
  { rewrite <- (Qfloor_Z k). now apply Qfloor_resp_le. }
  destruct (floor_bounds y) as [B1 B2].
  assert (G : (y - inject_Z (Qfloor y) ?= 1 # 2)%Q <> Lt -> (Qfloor y < k)%Z).
  { intro C. rewrite Zlt_Qlt.
    assert (1 # 2 <= y - inject_Z (Qfloor y))%Q.
    { apply Qnot_lt_le. intro L. apply C. now apply -> Qlt_alt. }
    lra. }
  destruct (y - inject_Z (Qfloor y) ?= 1 # 2)%Q eqn:C.
  - assert (Qfloor y < k)%Z by (apply G; discriminate).
    destruct (Z.even (Qfloor y)); lia.
  - exact F.
  - assert (Qfloor y < k)%Z by (apply G; discriminate). lia.
Qed.

(** The rounding of a value between 0 and a small integer stays there. *)
Lemma fl_below_integer (q : Q) (k : Z) :
  (0 <= q)%Q -> (q <= inject_Z k)%Q -> (k < 2 ^ 53)%Z ->
  exists v, JS.fl q = JS.Fin v /\ (0 <= v)%Q /\ (v <= inject_Z k)%Q.
Proof.
  intros Q0 QK K.
  assert (D : (q == 0)%Q \/ (0 < q)%Q).
  { destruct (Qlt_le_dec 0 q) as [L | L]; [now right |].
    left. now apply Qle_antisym. }
  destruct D as [E | Pq].
  - exists 0%Q. split; [now apply fl_zero |]. split; lra.
  - unfold JS.fl. cbv zeta.
    assert (Er : (Qred q == q)%Q) by apply Qred_correct.
    assert (Ea : (Qabs (Qred q) == q)%Q).
    { rewrite Er. apply Qabs_pos. lra. }
    set (a := Qabs (Qred q)) in *.
    assert (Z0 : Qeq_bool a 0 = false).
    { destruct (Qeq_bool a 0) eqn:E; trivial. apply Qeq_bool_iff in E. lra. }
    rewrite Z0.
    assert (Pa : (0 < a)%Q) by lra.
    destruct (exponent_spec Pa) as [L U].
    set (e := JS.exponent a) in *.
    set (x := (Z.max e (-1022) - 52)%Z).
    assert (K53 : (inject_Z k < 2 ^ 53)%Q).
    { rewrite <- two_inject by lia. now rewrite <- Zlt_Qlt. }
    assert (X : (x <= 0)%Z).
    { assert (e < 53)%Z.
      { apply (Qpower_lt_compat_l_inv 2); [lra | reflexivity]. }
      unfold x. lia. }
    pose proof (two_pos x) as Px.
    assert (I : (2 ^ x * inject_Z (2 ^ (- x)) == 1)%Q).
    { rewrite two_inject by lia. rewrite Qpower_opp.
      apply Qmult_inv_r. lra. }
    set (M := (k * 2 ^ (- x))%Z).
    assert (Y : (a / 2 ^ x <= inject_Z M)%Q).
    { apply Qle_shift_div_r; trivial. unfold M.
      rewrite inject_Z_mult, <- Qmult_assoc, (Qmult_comm (inject_Z (2 ^ _))).
      rewrite I. lra. }
    pose proof (round_even_le Y) as R.
    assert (R0 : (0 <= JS.round_even (a / 2 ^ x))%Z).
    { apply round_even_nonneg. apply Qle_shift_div_l; trivial. lra. }
    set (r := JS.round_even (a / 2 ^ x)) in *.
    set (v := Qred (inject_Z r * 2 ^ x)).
    assert (V : (v == inject_Z r * 2 ^ x)%Q) by apply Qred_correct.
    assert (Ir : (0 <= inject_Z r)%Q)
      by (change 0%Q with (inject_Z 0); now rewrite <- Zle_Qle).
    assert (IM : (inject_Z r <= inject_Z M)%Q) by now rewrite <- Zle_Qle.
    assert (MK : (inject_Z M * 2 ^ x == inject_Z k)%Q).
    { unfold M. rewrite inject_Z_mult, <- Qmult_assoc.
      rewrite (Qmult_comm (inject_Z (2 ^ _))), I. ring. }
    assert (V0 : (0 <= v)%Q) by (rewrite V; nra).
    assert (V1 : (v <= inject_Z k)%Q) by (rewrite V, <- MK; nra).
    assert (B : ((2 : Q) ^ 53 < 2 ^ 1024)%Q)
      by (apply Qpower_lt_compat_l; [lia | reflexivity]).
    assert (O : Qle_bool (2 ^ 1024) v = false).
    { destruct (Qle_bool (2 ^ 1024) v) eqn:E; trivial.
      apply Qle_bool_iff in E. lra. }
    rewrite O.
    assert (S : Qle_bool 0 (Qred q) = true) by (apply Qle_bool_iff; lra).
    rewrite S. exists v. split; [reflexivity |]. now split.
Qed.

Lemma nth_map_fin (s : list Q) (i : nat) :
  (i < List.length s)%nat ->
  nth i (map JS.Fin s) JS.NaN = JS.Fin (nth i s 0%Q).
Proof.
  intro H. rewrite (nth_indep _ JS.NaN (JS.Fin 0%Q))
    by (rewrite length_map; lia).
  apply map_nth.
Qed.

Lemma atN_nth (s : list JS.number) (i : Z) :
  (0 <= i < Z.of_nat (List.length s))%Z ->
  JS.atZ s i = Some (nth (Z.to_nat i) s JS.NaN).
Proof.
  intros [H0 H1]. unfold JS.atZ.
  destruct (i <? 0)%Z eqn:E; [apply Z.ltb_lt in E; lia |].
  apply nth_error_nth'. lia.
Qed.

Lemma le_false (a b : Q) : (b < a)%Q -> JS.le (JS.Fin a) (JS.Fin b) = false.
Proof.
  intro H. unfold JS.le, JS.compare.
  pose proof (proj1 (Qgt_alt a b) H) as C. now rewrite C.
Qed.

Lemma ge_false (a b : Q) : (a < b)%Q -> JS.ge (JS.Fin a) (JS.Fin b) = false.
Proof.
  intro H. unfold JS.ge, JS.compare.
  pose proof (proj1 (Qlt_alt a b) H) as C. now rewrite C.
Qed.

Section Pct64.
Variable s : list JS.number.
Hypothesis s_nonempty : s <> [].

Let n : Z := Z.of_nat (List.length s).

Lemma size_pos : (0 < n)%Z.
Proof. unfold n. destruct s; [contradiction | simpl; lia]. Qed.

Lemma pct64_unfold (p : JS.number) :
  ZipMetrics.pct64 s p
  = if JS.le p (JS.Fin 0) then JS.at_ s 0
    else if JS.ge p (JS.Fin 1) then JS.at_ s (List.length s - 1)
    else
      match JS.mul (JS.Fin (inject_Z (n - 1))) p with
      | JS.Fin q =>
          if (Qfloor q =? Qceiling q)%Z then JS.atZ s (Qfloor q)
          else
            let w := JS.sub (JS.Fin q) (JS.Fin (inject_Z (Qfloor q))) in
            Some (JS.add
                    (JS.mul (JS.operand (JS.atZ s (Qfloor q)))
                            (JS.sub (JS.Fin 1) w))
                    (JS.mul (JS.operand (JS.atZ s (Qceiling q))) w))
      | JS.NaN => Some JS.NaN
      | _ => None
      end.
Proof.
  unfold ZipMetrics.pct64, n. destruct s; [contradiction |]. cbv zeta.
  destruct (JS.le p (JS.Fin 0)); trivial.
  destruct (JS.ge p (JS.Fin 1)); trivial.
  destruct (JS.mul _ p); reflexivity.
Qed.

(** At or below 0 the first element, at or above 1 the last. *)
Lemma pct64_low (p : JS.number) :
  JS.le p (JS.Fin 0) = true -> ZipMetrics.pct64 s p = Some (nth 0 s JS.NaN).
Proof.
  intro H. rewrite pct64_unfold, H. pose proof size_pos as P.
  unfold JS.at_. apply nth_error_nth'. unfold n in P. lia.
Qed.

Lemma pct64_high (p : JS.number) :
  JS.le p (JS.Fin 0) = false -> JS.ge p (JS.Fin 1) = true ->
  ZipMetrics.pct64 s p = Some (nth (List.length s - 1) s JS.NaN).
Proof.
  intros L H. rewrite pct64_unfold, L, H. pose proof size_pos as P.
  unfold JS.at_. apply nth_error_nth'. unfold n in P. lia.
Qed.

(** Inside (0,1) the index [(n-1)*p] is finite and inside the array. *)
Lemma pct64_index (q : Q) :
  (n <= 2 ^ 53)%Z -> (0 <= q)%Q -> (q <= 1)%Q ->
  exists v,
    JS.mul (JS.Fin (inject_Z (n - 1))) (JS.Fin q) = JS.Fin v
    /\ (0 <= v)%Q /\ (v <= inject_Z (n - 1))%Q.
Proof.
  intros B Q0 Q1. pose proof size_pos as P. simpl.
  assert (I : (0 <= inject_Z (n - 1))%Q)
    by (change 0%Q with (inject_Z 0); rewrite <- Zle_Qle; lia).
  apply fl_below_integer; [nra | nra | lia].
Qed.

Lemma pct64_inside (q : Q) :
  JS.le (JS.Fin q) (JS.Fin 0) = false ->
  JS.ge (JS.Fin q) (JS.Fin 1) = false ->
  (0 < q)%Q /\ (q < 1)%Q.
Proof.
  unfold JS.le, JS.ge, JS.compare. intros L G. split.
  - apply Qnot_le_lt. intro C. pose proof (proj1 (Qle_alt q 0) C) as N.
    destruct (q ?= 0)%Q; try discriminate. now apply N.
  - apply Qnot_le_lt. intro C. pose proof (proj1 (Qle_alt 1 q) C) as N.
    rewrite <- (Qcompare_antisym q 1) in N.
    destruct (q ?= 1)%Q; try discriminate. now apply N.
Qed.

(** On a non-empty array [pct] always yields a value. *)
Lemma pct64_total (p : JS.number) :
  (n <= 2 ^ 53)%Z -> exists v, ZipMetrics.pct64 s p = Some v.
Proof.
  intro B.
  destruct (JS.le p (JS.Fin 0)) eqn:L.
  { eexists. now apply pct64_low. }
  destruct (JS.ge p (JS.Fin 1)) eqn:G.
  { eexists. now apply pct64_high. }
  rewrite pct64_unfold, L, G.
  destruct p as [q| | |]; try discriminate.
  - destruct (pct64_inside q L G) as [Q0 Q1].
    destruct (@pct64_index q B) as (v & -> & V0 & V1); try lra.
    destruct (floor_range V0 V1) as [[F0 F1] [C0 C1]].
    cbv zeta. destruct (Qfloor v =? Qceiling v)%Z.
    + rewrite atN_nth by (fold n; lia). now eexists.
    + now eexists.
  - simpl. now eexists.
Qed.

(** At a quarter [c/4] index and weights are exact: the index is
    [(n-1)*c/4], the weight of the upper neighbour its fractional part. *)
Lemma pct64_quarter (c : Z) (p : Q) :
  (n <= 2 ^ 50)%Z -> (1 <= c <= 3)%Z -> (p == inject_Z c / 4)%Q ->
  let m := ((n - 1) * c)%Z in
  ZipMetrics.pct64 s (JS.Fin p)
  = if (m mod 4 =? 0)%Z then Some (nth (Z.to_nat (m / 4)) s JS.NaN)
    else Some (JS.add
                 (JS.mul (nth (Z.to_nat (m / 4)) s JS.NaN)
                         (JS.Fin (Qred (inject_Z (4 - m mod 4) / 4))))
                 (JS.mul (nth (Z.to_nat (m / 4 + 1)) s JS.NaN)
                         (JS.Fin (Qred (inject_Z (m mod 4) / 4))))).
Proof.
  intros B C Ep m. pose proof size_pos as P.
  assert (C1 : (1 <= inject_Z c)%Q)
    by (change 1%Q with (inject_Z 1); rewrite <- Zle_Qle; lia).
  assert (C3 : (inject_Z c <= 3)%Q)
    by (change 3%Q with (inject_Z 3); rewrite <- Zle_Qle; lia).
  assert (P0 : (0 < p)%Q) by (rewrite Ep; apply Qlt_shift_div_l; lra).
  assert (P1 : (p < 1)%Q) by (rewrite Ep; apply Qlt_shift_div_r; lra).
  rewrite pct64_unfold, (le_false P0), (ge_false P1).
  assert (M : (0 <= m < 2 ^ 53)%Z) by (unfold m; nia).
  assert (Ei : (inject_Z (n - 1) * p == inject_Z m / 4)%Q).
  { unfold m. rewrite inject_Z_mult, Ep. field. }
  cbn [JS.mul]. rewrite (fl_comp Ei), (fl_quarters M).
  set (i := Qred (inject_Z m / 4)).
  assert (Eq : (i == inject_Z m / 4)%Q) by apply Qred_correct.
  pose proof (Z.div_mod m 4) as DM.
  pose proof (Z.mod_pos_bound m 4) as MB.
  set (d := (m / 4)%Z) in *. set (r := (m mod 4)%Z) in *.
  assert (Em : (inject_Z m == 4 * inject_Z d + inject_Z r)%Q).
  { rewrite DM at 1 by lia.
    rewrite inject_Z_plus, inject_Z_mult. reflexivity. }
  assert (R0 : (0 <= inject_Z r)%Q)
    by (change 0%Q with (inject_Z 0); rewrite <- Zle_Qle; lia).
  assert (R4 : (inject_Z r < 4)%Q)
    by (change 4%Q with (inject_Z 4); rewrite <- Zlt_Qlt; lia).
  assert (Fl : Qfloor i = d).
  { apply floor_unique; rewrite Eq, Em.
    - apply Qle_shift_div_l; lra.
    - apply Qlt_shift_div_r; lra. }
  assert (D0 : (0 <= d)%Z) by (unfold d; apply Z.div_pos; lia).
  assert (D1 : (d <= n - 1)%Z).
  { unfold d. apply Z.div_le_upper_bound; [lia |]. unfold m. nia. }
  cbv zeta. rewrite Fl.
  destruct (r =? 0)%Z eqn:Er.
  - apply Z.eqb_eq in Er.
    assert (Ce : Qceiling i = d).
    { apply ceiling_unique; rewrite Eq, Em, Er.
      - apply Qlt_shift_div_l; [lra |]. change (inject_Z 0) with 0%Q. lra.
      - apply Qle_shift_div_r; [lra |]. change (inject_Z 0) with 0%Q. lra. }
    rewrite Ce, Z.eqb_refl. apply atN_nth. fold n. lia.
  - apply Z.eqb_neq in Er.
    assert (R1 : (1 <= inject_Z r)%Q)
      by (change 1%Q with (inject_Z 1); rewrite <- Zle_Qle; lia).
    assert (Ce : Qceiling i = (d + 1)%Z).
    { apply ceiling_unique; rewrite Eq, Em, inject_Z_plus;
        change (inject_Z 1) with 1%Q.
      - apply Qlt_shift_div_l; lra.
      - apply Qle_shift_div_r; lra. }
    rewrite Ce.
    assert (Ne : (d =? d + 1)%Z = false) by (apply Z.eqb_neq; lia).
    rewrite Ne.
    assert (D2 : (d + 1 <= n - 1)%Z).
    { assert (4 * d + r = (n - 1) * c)%Z by (unfold m in DM; lia). nia. }
    rewrite !atN_nth by (fold n; lia). cbn [JS.operand].
    assert (W : JS.sub (JS.Fin i) (JS.Fin (inject_Z d))
                = JS.Fin (Qred (inject_Z r / 4))).
    { unfold JS.sub. cbn [JS.neg JS.add].
      assert (X : (i + - inject_Z d == inject_Z r / 4)%Q).
      { rewrite Eq, Em. field. }
      rewrite (fl_comp X). apply fl_quarters. lia. }
    rewrite W.
    assert (W' : JS.sub (JS.Fin 1) (JS.Fin (Qred (inject_Z r / 4)))
                 = JS.Fin (Qred (inject_Z (4 - r) / 4))).
    { unfold JS.sub. cbn [JS.neg JS.add].
      assert (X : (1 + - Qred (inject_Z r / 4) == inject_Z (4 - r) / 4)%Q).
      { rewrite Qred_correct. unfold Z.sub.
        rewrite inject_Z_plus, inject_Z_opp. change (inject_Z 4) with 4%Q.
        field. }
      rewrite (fl_comp X). apply fl_quarters. lia. }
    rewrite W'. reflexivity.
Qed.
End Pct64.

(** The median of an odd number of amounts is the middle one; of an even
    number, the sum of the halves of the two middle ones. *)
Lemma median64_odd (s : list Q) (k : nat) :
  List.length s = (2 * k + 1)%nat -> (Z.of_nat (List.length s) <= 2 ^ 50)%Z ->
  ZipMetrics.median64 (map JS.Fin s) = Some (JS.Fin (nth k s 0%Q)).
Proof.
  intros L B. unfold ZipMetrics.median64.
  assert (N : map JS.Fin s <> []) by (destruct s; [simpl in L; lia | discriminate]).
  rewrite (@pct64_quarter _ N 2 (1 # 2)); rewrite ?length_map; trivial;
    [| lia | reflexivity].
  cbv zeta. rewrite L.
  replace ((Z.of_nat (2 * k + 1) - 1) * 2)%Z with (Z.of_nat k * 4)%Z by lia.
  rewrite Z.mod_mul, Z.div_mul by lia. cbn [Z.eqb].
  rewrite Nat2Z.id, nth_map_fin by lia. reflexivity.
Qed.

Lemma median64_even (s : list Q) (k : nat) :
  List.length s = (2 * k + 2)%nat -> (Z.of_nat (List.length s) <= 2 ^ 50)%Z ->
  ZipMetrics.median64 (map JS.Fin s)
  = Some (JS.add (JS.mul (JS.Fin (nth k s 0%Q)) (JS.Fin (1 # 2)))
                 (JS.mul (JS.Fin (nth (k + 1) s 0%Q)) (JS.Fin (1 # 2)))).
Proof.
  intros L B. unfold ZipMetrics.median64.
  assert (N : map JS.Fin s <> []) by (destruct s; [simpl in L; lia | discriminate]).
  rewrite (@pct64_quarter _ N 2 (1 # 2)); rewrite ?length_map; trivial;
    [| lia | reflexivity].
  cbv zeta. rewrite L.
  replace ((Z.of_nat (2 * k + 2) - 1) * 2)%Z with (2 + Z.of_nat k * 4)%Z
    by lia.
  rewrite Z.mod_add, Z.div_add by lia.
  change (2 mod 4)%Z with 2%Z. change (2 / 4)%Z with 0%Z.
  cbn [Z.eqb Z.add].
  replace (Z.to_nat (Z.of_nat k + 1)) with (k + 1)%nat by lia.
  rewrite Nat2Z.id, !nth_map_fin by lia. reflexivity.
Qed.

(** *** Rounding does not cross a binary64 value *)

Lemma round_even_ge (y : Q) (k : Z) :
  (inject_Z k <= y)%Q -> (k <= JS.round_even y)%Z.
Proof.
  intro H. unfold JS.round_even. cbv zeta.
  assert (F : (k <= Qfloor y)%Z).
  { rewrite <- (Qfloor_Z k). now apply Qfloor_resp_le. }
  destruct (y - inject_Z (Qfloor y) ?= 1 # 2)%Q; try lia.
  destruct (Z.even (Qfloor y)); lia.
Qed.

Lemma two_shift (j x : Z) :
  (x <= j)%Z -> (inject_Z (2 ^ (j - x)) * 2 ^ x == 2 ^ j)%Q.
Proof.
  intro H. rewrite two_inject by lia.
  rewrite <- Qpower_plus by discriminate.
  now replace (j - x + x)%Z with j by lia.
Qed.

Section Representable.
Variables (m j : Z).
Hypothesis m_bits : (0 < m < 2 ^ 53)%Z.
Hypothesis j_min : (-1074 <= j)%Z.

Let u : Q := (inject_Z m * 2 ^ j)%Q.

Lemma representable_pos : (0 < u)%Q.
Proof.
  unfold u. pose proof (two_pos j).
  assert (0 < inject_Z m)%Q
    by (change 0%Q with (inject_Z 0); rewrite <- Zlt_Qlt; lia).
  nra.
Qed.

Lemma representable_below : (u < 2 ^ (53 + j))%Q.
Proof.
  unfold u. rewrite Qpower_plus by discriminate.
  assert (inject_Z m < 2 ^ 53)%Q.
  { rewrite <- two_inject by lia. rewrite <- Zlt_Qlt. lia. }
  pose proof (two_pos j). nra.
Qed.

(** A result at or below a binary64 value rounds to a value at or below
    it. *)
Lemma fl_le_representable (q : Q) :
  (0 <= q)%Q -> (q <= u)%Q -> (u < 2 ^ 1024)%Q ->
  exists v, JS.fl q = JS.Fin v /\ (0 <= v)%Q /\ (v <= u)%Q.
Proof.
  intros Q0 QU UB. pose proof representable_pos as PU.
  pose proof representable_below as BU.
  assert (D : (q == 0)%Q \/ (0 < q)%Q).
  { destruct (Qlt_le_dec 0 q) as [L | L]; [now right |].
    left. now apply Qle_antisym. }
  destruct D as [E | Pq].
  - exists 0%Q. split; [now apply fl_zero |]. split; lra.
  - unfold JS.fl. cbv zeta.
    assert (Er : (Qred q == q)%Q) by apply Qred_correct.
    assert (Ea : (Qabs (Qred q) == q)%Q).
    { rewrite Er. apply Qabs_pos. lra. }
    set (a := Qabs (Qred q)) in *.
    assert (Z0 : Qeq_bool a 0 = false).
    { destruct (Qeq_bool a 0) eqn:E; trivial. apply Qeq_bool_iff in E. lra. }
    rewrite Z0.
    assert (Pa : (0 < a)%Q) by lra.
    destruct (exponent_spec Pa) as [L U].
    set (e := JS.exponent a) in *.
    set (x := (Z.max e (-1022) - 52)%Z).
    assert (X : (x <= j)%Z).
    { assert (e < 53 + j)%Z.
      { apply (Qpower_lt_compat_l_inv 2); [lra | reflexivity]. }
      unfold x. lia. }
    pose proof (two_pos x) as Px.
    set (M := (m * 2 ^ (j - x))%Z).
    assert (MU : (inject_Z M * 2 ^ x == u)%Q).
    { unfold M, u. rewrite inject_Z_mult, <- Qmult_assoc.
      now rewrite (two_shift X). }
    assert (Y : (a / 2 ^ x <= inject_Z M)%Q).
    { apply Qle_shift_div_r; trivial. rewrite MU. lra. }
    pose proof (round_even_le Y) as R.
    assert (R0 : (0 <= JS.round_even (a / 2 ^ x))%Z).
    { apply round_even_nonneg. apply Qle_shift_div_l; trivial. lra. }
    set (r := JS.round_even (a / 2 ^ x)) in *.
    set (v := Qred (inject_Z r * 2 ^ x)).
    assert (V : (v == inject_Z r * 2 ^ x)%Q) by apply Qred_correct.
    assert (Ir : (0 <= inject_Z r)%Q)
      by (change 0%Q with (inject_Z 0); now rewrite <- Zle_Qle).
    assert (IM : (inject_Z r <= inject_Z M)%Q) by now rewrite <- Zle_Qle.
    assert (V0 : (0 <= v)%Q) by (rewrite V; nra).
    assert (V1 : (v <= u)%Q) by (rewrite V, <- MU; nra).
    assert (O : Qle_bool (2 ^ 1024) v = false).
    { destruct (Qle_bool (2 ^ 1024) v) eqn:E; trivial.
      apply Qle_bool_iff in E. lra. }
    rewrite O.
    assert (S : Qle_bool 0 (Qred q) = true) by (apply Qle_bool_iff; lra).
    rewrite S. exists v. split; [reflexivity |]. now split.
Qed.

(** A result at or above a binary64 value rounds to a value at or above
    it, or to [Infinity]. *)
Lemma fl_ge_representable (q : Q) :
  (u <= q)%Q -> JS.ge (JS.fl q) (JS.Fin u) = true.
Proof.
  intro UQ. pose proof representable_pos as PU.
  pose proof representable_below as BU.
  assert (Pq : (0 < q)%Q) by lra.
  unfold JS.fl. cbv zeta.
  assert (Er : (Qred q == q)%Q) by apply Qred_correct.
  assert (Ea : (Qabs (Qred q) == q)%Q).
  { rewrite Er. apply Qabs_pos. lra. }
  set (a := Qabs (Qred q)) in *.
  assert (Z0 : Qeq_bool a 0 = false).
  { destruct (Qeq_bool a 0) eqn:E; trivial. apply Qeq_bool_iff in E. lra. }
  rewrite Z0.
  assert (Pa : (0 < a)%Q) by lra.
  destruct (exponent_spec Pa) as [L U].
  set (e := JS.exponent a) in *.
  set (x := (Z.max e (-1022) - 52)%Z).
  pose proof (two_pos x) as Px.
  set (r := JS.round_even (a / 2 ^ x)).
  set (v := Qred (inject_Z r * 2 ^ x)).
  assert (V : (v == inject_Z r * 2 ^ x)%Q) by apply Qred_correct.
  assert (G : (u <= v)%Q).
  { destruct (Z_le_gt_dec x j) as [X | X].
    - set (M := (m * 2 ^ (j - x))%Z).
      assert (MU : (inject_Z M * 2 ^ x == u)%Q).
      { unfold M, u. rewrite inject_Z_mult, <- Qmult_assoc.
        now rewrite (two_shift X). }
      assert (Y : (inject_Z M <= a / 2 ^ x)%Q).
      { apply Qle_shift_div_l; trivial. rewrite MU. lra. }
      pose proof (round_even_ge Y) as R. fold r in R.
      assert (IM : (inject_Z M <= inject_Z r)%Q) by now rewrite <- Zle_Qle.
      rewrite V, <- MU. nra.
    - assert (Ex : x = (e - 52)%Z) by (unfold x; lia).
      assert (T : (inject_Z (2 ^ 52) * 2 ^ x == 2 ^ e)%Q).
      { rewrite two_inject by lia. rewrite <- Qpower_plus by discriminate.
        now replace (52 + x)%Z with e by lia. }
      assert (Y : (inject_Z (2 ^ 52) <= a / 2 ^ x)%Q).
      { apply Qle_shift_div_l; trivial. rewrite T. exact L. }
      pose proof (round_even_ge Y) as R. fold r in R.
      assert (IM : (inject_Z (2 ^ 52) <= inject_Z r)%Q)
        by now rewrite <- Zle_Qle.
      assert (UE : (u <= 2 ^ e)%Q).
      { apply Qle_trans with (2 ^ (53 + j))%Q; [lra |].
        apply Qpower_le_compat_l; [lia | lra]. }
      rewrite V. apply Qle_trans with (2 ^ e)%Q; trivial.
      rewrite <- T. nra. }
  assert (S : Qle_bool 0 (Qred q) = true) by (apply Qle_bool_iff; lra).
  rewrite S.
  destruct (Qle_bool (2 ^ 1024) v); [reflexivity |].
  unfold JS.ge, JS.compare.
  pose proof (proj1 (Qle_alt u v) G) as N.
  rewrite <- (Qcompare_antisym v u) in N.
  destruct (v ?= u)%Q; trivial. now elim N.
Qed.
End Representable.

(** *** The nearest-rank index of the cascade handlers *)

Lemma idx_range (vals : list Q) (p : Q) :
  vals <> [] ->
  (0 <= Unfiltered.idx vals p < Z.of_nat (List.length vals))%Z.
Proof.
  intro H. unfold Unfiltered.idx.
  destruct vals; [congruence | simpl List.length; lia].
Qed.


Lemma floor_percent (k n : Z) :
  (0 < k)%Z ->
  Qfloor (inject_Z k / 100 * inject_Z n) = (k * n / 100)%Z.
Proof.
  intro Hk. rewrite Zdiv_Qdiv. apply Qfloor_comp.
  rewrite inject_Z_mult. change (inject_Z 100) with 100%Q. field.
Qed.


(** [idx(25)] and [idx(75)] in integer arithmetic. *)
Lemma idx_quartiles (vals : list Q) :
  vals <> [] ->
  let n := Z.of_nat (List.length vals) in
  Unfiltered.idx vals 25 = Z.min (n - 1) (n / 4)
  /\ Unfiltered.idx vals 75 = Z.min (n - 1) (3 * n / 4).
Proof.
  intros H n. unfold Unfiltered.idx. fold n.
  assert (Hn : (1 <= n)%Z)
    by (unfold n; destruct vals; [congruence | simpl List.length; lia]).
  change 25%Q with (inject_Z 25). change 75%Q with (inject_Z 75).
  rewrite !floor_percent by lia.
  replace (25 * n / 100)%Z with (n / 4)%Z.
  2:{ replace (25 * n)%Z with (n * 25)%Z by lia.
      change 100%Z with (25 * 4)%Z.
      rewrite <- Z.div_div by lia. now rewrite Z.div_mul by lia. }
  replace (75 * n / 100)%Z with (3 * n / 4)%Z.
  2:{ replace (75 * n)%Z with (3 * n * 25)%Z by lia.
      change 100%Z with (25 * 4)%Z.
      rewrite <- Z.div_div by lia. now rewrite Z.div_mul by lia. }
  assert (0 <= n / 4)%Z by (apply Z.div_pos; lia).
  assert (0 <= 3 * n / 4)%Z by (apply Z.div_pos; lia).
  lia.
Qed.

Lemma pick_idx (vals : list Q) (i : Z) :
  (0 <= i < Z.of_nat (List.length vals))%Z ->
  Unfiltered.dollars (Unfiltered.pick vals i)
  = JS.Fin (inject_Z (JS.round (nth (Z.to_nat i) vals 0%Q))).
Proof.
  intro H. unfold Unfiltered.pick. now rewrite atZ_nth.
Qed.

(** *** What [summarize] reports *)

Section Summaries.
Import Wire.
Variables (rows : list Row) (m : Meta) (zip : string).
Variables (y0 y1 : JS.number) (lvl : string).

Let amounts : list Q := JS.finite_only (map paid_amt rows).
Let vals : list Q := JS.sortQ amounts.
Let n : nat := List.length vals.

Lemma vals_nonempty : amounts <> [] -> vals <> [].
Proof.
  intros H E. apply H. apply length_zero_iff_nil.
  unfold vals in E. rewrite <- (sortQ_length amounts), E. reflexivity.
Qed.

Lemma unfiltered_summarize :
  amounts <> [] ->
  Unfiltered.summarize rows m zip y0 y1 lvl
  = Some
      {| query_zip := zip;
         used_scope :=
           {| level := Some lvl; sample_size := List.length rows; meta := m |};
         metrics := Some
           {| year_window := (y0, y1);
              mean := JS.round_or_zero (Some
                        (JS.div (JS.sum (map JS.Fin vals)) (JS.size vals)));
              median := JS.Fin (inject_Z (JS.round (nth (n / 2) vals 0%Q)));
              p25 := JS.Fin (inject_Z (JS.round
                        (nth (Z.to_nat (Unfiltered.idx vals 25)) vals 0%Q)));
              p75 := JS.Fin (inject_Z (JS.round
                        (nth (Z.to_nat (Unfiltered.idx vals 75)) vals 0%Q)));
              trend_by_year :=
                Unfiltered.trend (Unfiltered.byYear rows y0 y1) |} |}.
Proof.
  intro H. pose proof (vals_nonempty H) as Hv.
  assert (Hhalf : (0 <= Z.of_nat (n / 2) < Z.of_nat (List.length vals))%Z).
  { fold n. assert (n <> 0)%nat
      by (unfold n; intro E; apply Hv; now apply length_zero_iff_nil).
    pose proof (Nat.div_lt n 2). lia. }
  pose proof (pick_idx vals Hhalf) as Pm. rewrite Nat2Z.id in Pm.
  pose proof (pick_idx vals (idx_range 25 Hv)) as P25.
  pose proof (pick_idx vals (idx_range 75 Hv)) as P75.
  unfold Unfiltered.summarize. fold amounts. fold vals. fold n.
  rewrite Pm, P25, P75.
  destruct vals; [congruence | reflexivity].
Qed.

Lemma unfiltered_summarize_none :
  amounts = [] -> Unfiltered.summarize rows m zip y0 y1 lvl = None.
Proof.
  intro H. unfold Unfiltered.summarize. fold amounts. now rewrite H.
Qed.

Lemma last_index : vals <> [] ->
  (0 <= Z.of_nat n - 1 < Z.of_nat (List.length vals))%Z.
Proof.
  intro Hv. fold n. assert (n <> 0)%nat
    by (unfold n; intro E; apply Hv; now apply length_zero_iff_nil).
  lia.
Qed.

Lemma filtered_summarize :
  amounts <> [] ->
  Filtered.summarize rows m zip y0 y1 lvl
  = Some
      {| query_zip := zip;
         used_scope :=
           {| level := Some lvl; sample_size := List.length rows; meta := m |};
         metrics := Some
           {| year_window := (y0, y1);
              mean := JS.round_or_zero (Some
                        (JS.div (JS.sum (map JS.Fin vals)) (JS.size vals)));
              median := JS.Fin (inject_Z (JS.round (nth (n / 2) vals 0%Q)));
              p25 := JS.Fin (inject_Z (JS.round
                        (nth (Z.to_nat (Unfiltered.idx vals 25)) vals 0%Q)));
              p75 := if Filtered.dollars_at (Filtered.idx vals 75)
                     then JS.Fin (inject_Z (JS.round
                        (nth (Z.to_nat (Unfiltered.idx vals 75)) vals 0%Q)))
                     else JS.Fin (inject_Z (JS.round (nth (n - 1) vals 0%Q)));
              trend_by_year :=
                Filtered.trend (Filtered.byYear rows y0 y1) |} |}.
Proof.
  intro H. pose proof (vals_nonempty H) as Hv.
  assert (Hhalf : (0 <= Z.of_nat (n / 2) < Z.of_nat (List.length vals))%Z).
  { fold n. assert (n <> 0)%nat
      by (unfold n; intro E; apply Hv; now apply length_zero_iff_nil).
    pose proof (Nat.div_lt n 2). lia. }
  pose proof (pick_idx vals Hhalf) as Pm. rewrite Nat2Z.id in Pm.
  pose proof (pick_idx vals (idx_range 25 Hv)) as P25.
  pose proof (pick_idx vals (idx_range 75 Hv)) as P75.
  pose proof (pick_idx vals (last_index Hv)) as Pl.
  replace (Z.to_nat (Z.of_nat n - 1)) with (n - 1)%nat in Pl by lia.
  unfold Filtered.summarize, Filtered.dollars, Filtered.pick.
  change Filtered.idx with Unfiltered.idx.
  unfold Unfiltered.dollars, Unfiltered.pick in *.
  fold amounts. fold vals. fold n.
  rewrite Pm, P25, P75, Pl.
  destruct vals; [congruence | reflexivity].
Qed.
End Summaries.

(** The guard [dollars[idx(75)]] never finds a property. *)
Lemma dollars_at_false (i : Z) : Filtered.dollars_at i = false.
Proof.
  unfold Filtered.dollars_at, Filtered.key_of.
  destruct (Z.to_int i) as [d | d]; destruct d; reflexivity.
Qed.

Lemma round_nearest (q : Q) :
  (q - (1 # 2) < inject_Z (JS.round q))%Q
  /\ (inject_Z (JS.round q) <= q + (1 # 2))%Q.
Proof.
  unfold JS.round. destruct (floor_bounds (q + (1 # 2))) as [H1 H2].
  split; lra.
Qed.

Lemma round_mono (a b : Q) : (a <= b)%Q -> (JS.round a <= JS.round b)%Z.
Proof. intro H. unfold JS.round. apply Qfloor_resp_le. lra. Qed.

Lemma round_half_away_nonneg (q : Q) :
  (0 <= q)%Q -> Spec.round_half_away q = JS.round q.
Proof.
  intro H. unfold Spec.round_half_away.
  apply Qle_bool_iff in H. now rewrite H.
Qed.

(** *** The mean of whole amounts *)

Lemma fl_integer (k : Z) :
  (0 <= k < 2 ^ 53)%Z -> JS.fl (inject_Z k) = JS.Fin (Qred (inject_Z k)).
Proof.
  intros [K0 K1].
  assert (D : k = 0%Z \/ (0 < k)%Z) by lia. destruct D as [-> | P].
  - reflexivity.
  - assert (E : (inject_Z k == inject_Z k * 2 ^ 0)%Q)
      by (change ((2 : Q) ^ 0)%Q with 1%Q; ring).
    rewrite (fl_comp E), (Qred_complete _ _ E).
    apply fl_exact; [lia | lia |].
    rewrite <- E.
    assert (inject_Z k < 2 ^ 53)%Q.
    { rewrite <- two_inject by lia. now rewrite <- Zlt_Qlt. }
    assert ((2 : Q) ^ 53 < 2 ^ 1024)%Q
      by (apply Qpower_lt_compat_l; [lia | reflexivity]).
    lra.
Qed.

Lemma ge_finite (a b : Q) :
  JS.ge (JS.Fin a) (JS.Fin b) = true -> (b <= a)%Q.
Proof.
  unfold JS.ge, JS.compare. intro H.
  apply (proj2 (Qle_alt b a)). rewrite <- (Qcompare_antisym a b).
  destruct (a ?= b)%Q; simpl; discriminate.
Qed.

Lemma total_perm (l l' : list Q) :
  Permutation l l' -> (Notions.total l == Notions.total l')%Q.
Proof.
  unfold Notions.total. induction 1; simpl.
  - reflexivity.
  - now rewrite IHPermutation.
  - ring.
  - now rewrite IHPermutation1.
Qed.

(** The exact sum of whole amounts is a whole number. *)
Lemma total_whole (l : list Q) :
  Forall Notions.whole l ->
  exists S : Z, (0 <= S)%Z /\ (Notions.total l == inject_Z S)%Q.
Proof.
  induction 1 as [|a l [A0 A1] _ (S & S0 & ES)].
  - exists 0%Z. split; [lia | reflexivity].
  - exists (Qfloor a + S)%Z. split.
    + assert (0 <= Qfloor a)%Z
        by (change 0%Z with (Qfloor 0); now apply Qfloor_resp_le).
      lia.
    + unfold Notions.total in *. simpl.
      rewrite ES, inject_Z_plus, <- A1. reflexivity.
Qed.

(** While the running sum of whole amounts stays below [2^53], no
    addition is rounded. *)
Lemma sum_whole_from (l : list Q) :
  Forall Notions.whole l ->
  forall S0 : Z, (0 <= S0)%Z ->
    (inject_Z S0 + Notions.total l < inject_Z (2 ^ 53))%Q ->
    fold_left JS.add (map JS.Fin l) (JS.Fin (Qred (inject_Z S0)))
    = JS.Fin (Qred (inject_Z S0 + Notions.total l)).
Proof.
  induction 1 as [|a l [A0 A1] Hl IH]; intros S0 P B.
  - cbn [map fold_left]. f_equal. apply Qred_complete.
    unfold Notions.total. cbn [fold_right]. ring.
  - destruct (total_whole Hl) as (T & T0 & ET).
    assert (IT : (0 <= inject_Z T)%Q)
      by (change 0%Q with (inject_Z 0); now rewrite <- Zle_Qle).
    assert (K0 : (0 <= Qfloor a)%Z)
      by (change 0%Z with (Qfloor 0); now apply Qfloor_resp_le).
    assert (Et : (Notions.total (a :: l) == a + Notions.total l)%Q)
      by reflexivity.
    rewrite Et, ET in B.
    cbn [map fold_left JS.add].
    assert (E : (Qred (inject_Z S0) + a == inject_Z (S0 + Qfloor a))%Q).
    { rewrite Qred_correct, inject_Z_plus, <- A1. reflexivity. }
    rewrite (fl_comp E), fl_integer.
    + rewrite IH.
      * f_equal. apply Qred_complete.
        rewrite Et, inject_Z_plus, <- A1. ring.
      * lia.
      * rewrite ET, inject_Z_plus, <- A1. lra.
    + split; [lia |].
      rewrite Zlt_Qlt, inject_Z_plus, <- A1. lra.
Qed.

Lemma sum_whole (l : list Q) :
  Forall Notions.whole l ->
  (Notions.total l < inject_Z (2 ^ 53))%Q ->
  JS.sum (map JS.Fin l) = JS.Fin (Qred (Notions.total l)).
Proof.
  intros H B. unfold JS.sum.
  change (JS.Fin 0) with (JS.Fin (Qred (inject_Z 0))).
  rewrite (sum_whole_from H) by (change (inject_Z 0) with 0%Q; lia || lra).
  f_equal. apply Qred_complete. change (inject_Z 0) with 0%Q. ring.
Qed.

(** A quotient of small whole numbers and its binary64 value round to the
    same integer. *)
Lemma round_quotient (S n : Z) :
  (0 <= S)%Z -> (0 < n)%Z -> (S + n <= 2 ^ 50)%Z ->
  exists v,
    JS.fl (inject_Z S / inject_Z n) = JS.Fin v
    /\ JS.round v = JS.round (inject_Z S / inject_Z n).
Proof.
  intros S0 N0 B.
  assert (In : (0 < inject_Z n)%Q)
    by (change 0%Q with (inject_Z 0); now rewrite <- Zlt_Qlt).
  assert (IS : (0 <= inject_Z S)%Q)
    by (change 0%Q with (inject_Z 0); now rewrite <- Zle_Qle).
  set (q := (inject_Z S / inject_Z n)%Q).
  assert (Q0 : (0 <= q)%Q) by (apply Qle_shift_div_l; lra).
  assert (QS : (q * inject_Z n == inject_Z S)%Q) by (unfold q; field; lra).
  set (k := JS.round q).
  destruct (round_nearest q) as [K1 K2]. fold k in K1, K2.
  assert (Kn : (0 <= k)%Z).
  { pose proof (round_mono Q0) as R. change (JS.round 0) with 0%Z in R.
    exact R. }
  assert (Ik : (0 <= inject_Z k)%Q)
    by (change 0%Q with (inject_Z 0); now rewrite <- Zle_Qle).
  (* in integers: (2k-1) n < 2S + ... *)
  assert (A1 : (2 * S < (2 * k + 1) * n)%Z).
  { rewrite Zlt_Qlt, !inject_Z_mult, inject_Z_plus, inject_Z_mult.
    change (inject_Z 2) with 2%Q. change (inject_Z 1) with 1%Q.
    rewrite <- QS. nra. }
  assert (A2 : ((2 * k - 1) * n <= 2 * S)%Z).
  { rewrite Zle_Qle, !inject_Z_mult. unfold Z.sub.
    rewrite inject_Z_plus, inject_Z_mult, inject_Z_opp.
    change (inject_Z 2) with 2%Q. change (inject_Z 1) with 1%Q.
    rewrite <- QS. nra. }
  set (t := Z.log2_up n).
  assert (T0 : (0 <= t)%Z) by apply Z.log2_up_nonneg.
  assert (T1 : (n <= 2 ^ t)%Z).
  { assert (D : n = 1%Z \/ (1 < n)%Z) by lia. destruct D as [-> | D].
    - unfold t. simpl. lia.
    - apply (Z.log2_up_spec n D). }
  assert (T2 : (2 ^ t < 2 * n)%Z).
  { assert (D : n = 1%Z \/ (1 < n)%Z) by lia. destruct D as [-> | D].
    - unfold t. simpl. lia.
    - destruct (Z.log2_up_spec n D) as [L _]. fold t in L.
      replace t with (Z.succ (Z.pred t)) by lia.
      rewrite Z.pow_succ_r by (unfold t in *; pose proof (Z.log2_up_pos n D); lia).
      lia. }
  set (T := (2 ^ t)%Z) in *.
  assert (IT : (inject_Z n <= inject_Z T)%Q) by now rewrite <- Zle_Qle.
  assert (PT : (0 < inject_Z T)%Q) by lra.
  assert (PW : ((2 : Q) ^ (- (t + 1)) == 1 / (2 * inject_Z T))%Q).
  { rewrite Qpower_opp, two_succ. unfold T. rewrite two_inject by lia.
    field. pose proof (two_pos t). lra. }
  (* the value just below k + 1/2 *)
  set (m1 := ((2 * k + 1) * T - 1)%Z).
  assert (U1 : (inject_Z m1 * 2 ^ (- (t + 1))
                == inject_Z k + (1 # 2) - 1 / (2 * inject_Z T))%Q).
  { rewrite PW. unfold m1, Z.sub.
    rewrite inject_Z_plus, inject_Z_mult, inject_Z_plus, inject_Z_mult,
      inject_Z_opp.
    change (inject_Z 2) with 2%Q. change (inject_Z 1) with 1%Q.
    field. lra. }
  assert (M1 : (m1 < 2 ^ 53)%Z).
  { unfold m1.
    assert ((2 * k + 1) * T < 4 * S + 4 * n)%Z by nia.
    assert (4 * S + 4 * n <= 2 ^ 52)%Z by lia.
    assert (2 ^ 52 < 2 ^ 53)%Z by reflexivity. lia. }
  assert (QU : (q <= inject_Z k + (1 # 2) - 1 / (2 * inject_Z T))%Q).
  { apply Qle_trans with (inject_Z k + (1 # 2) - 1 / (2 * inject_Z n))%Q.
    - assert (2 * S + 1 <= (2 * k + 1) * n)%Z by lia.
      assert (E : (inject_Z k + (1 # 2) - 1 / (2 * inject_Z n)
                   == (inject_Z ((2 * k + 1) * n) - 1) / (2 * inject_Z n))%Q).
      { rewrite inject_Z_mult, inject_Z_plus, inject_Z_mult.
        change (inject_Z 2) with 2%Q. change (inject_Z 1) with 1%Q.
        field. lra. }
      rewrite E. apply Qle_shift_div_l; [lra |].
      assert (X : (q * (2 * inject_Z n) == inject_Z (2 * S))%Q).
      { rewrite inject_Z_mult. change (inject_Z 2) with 2%Q.
        rewrite <- QS. ring. }
      rewrite X.
      assert (Y : (inject_Z (2 * S) + 1 == inject_Z (2 * S + 1))%Q)
        by (rewrite inject_Z_plus; reflexivity).
      assert (inject_Z (2 * S + 1) <= inject_Z ((2 * k + 1) * n))%Q
        by now rewrite <- Zle_Qle.
      lra.
    - assert (1 / (2 * inject_Z T) <= 1 / (2 * inject_Z n))%Q.
      { apply Qle_shift_div_l; [lra |].
        assert (E : (1 / (2 * inject_Z T) * (2 * inject_Z n)
                     == inject_Z n / inject_Z T)%Q) by (field; lra).
        rewrite E. apply Qle_shift_div_r; lra. }
      lra. }
  assert (HT : (0 < 1 / (2 * inject_Z T))%Q)
    by (apply Qlt_shift_div_l; lra).
  assert (D : S = 0%Z \/ (0 < S)%Z) by lia. destruct D as [-> | PS].
  { exists 0%Q. split.
    - apply fl_zero. unfold q, Qdiv. change (inject_Z 0) with 0%Q.
      apply Qmult_0_l.
    - unfold JS.round. apply Qfloor_comp.
      unfold q, Qdiv. change (inject_Z 0) with 0%Q.
      now rewrite Qmult_0_l. }
  assert (Pq : (0 < q)%Q).
  { apply Qlt_shift_div_l; trivial.
    assert (0 < inject_Z S)%Q
      by (change 0%Q with (inject_Z 0); now rewrite <- Zlt_Qlt).
    lra. }
  assert (M0 : (0 < m1)%Z).
  { unfold m1. assert (1 <= T)%Z by lia.
    assert (D : (k = 0)%Z \/ (1 <= k)%Z) by lia. destruct D as [Ek | Pk].
    - (* k = 0 and S > 0 force n > 1, hence T > 1 *)
      assert (1 < n)%Z by nia. nia.
    - nia. }
  assert (T50 : (t <= 50)%Z).
  { unfold t. apply Z.log2_up_le_pow2; lia. }
  assert (J : (-1074 <= - (t + 1))%Z) by lia.
  assert (H1 : (q <= inject_Z m1 * 2 ^ (- (t + 1)))%Q)
    by (rewrite U1; exact QU).
  assert (H2 : (inject_Z m1 * 2 ^ (- (t + 1)) < 2 ^ 1024)%Q).
  { rewrite U1.
    assert (inject_Z k < 2 ^ 53)%Q.
    { rewrite <- two_inject by lia. rewrite <- Zlt_Qlt. nia. }
    assert ((2 : Q) ^ 54 <= 2 ^ 1024)%Q
      by (apply Qpower_le_compat_l; [lia | lra]).
    assert ((2 : Q) ^ 54 == 2 * 2 ^ 53)%Q by reflexivity.
    pose proof (two_pos 53). lra. }
  destruct (@fl_le_representable m1 (- (t + 1)) (conj M0 M1) J q Q0 H1 H2)
    as (v & Ev & V0 & V1).
  exists v. split; [exact Ev |].
  rewrite U1 in V1.
  apply floor_unique.
  - (* k - 1/2 <= v *)
    assert (D : (k = 0)%Z \/ (1 <= k)%Z) by lia. destruct D as [Ek | Pk].
    + rewrite Ek. change (inject_Z 0) with 0%Q. lra.
    + assert (M2 : (0 < 2 * k - 1 < 2 ^ 53)%Z) by nia.
      assert (J2 : (-1074 <= -1)%Z) by lia.
      assert (U0 : (inject_Z (2 * k - 1) * 2 ^ (-1)
                    == inject_Z k - (1 # 2))%Q).
      { unfold Z.sub. rewrite inject_Z_plus, inject_Z_mult, inject_Z_opp.
        change (inject_Z 2) with 2%Q. change (inject_Z 1) with 1%Q.
        change ((2 : Q) ^ (-1))%Q with (1 # 2)%Q. ring. }
      assert (HU : (inject_Z (2 * k - 1) * 2 ^ (-1) <= q)%Q)
        by (rewrite U0; lra).
      pose proof (@fl_ge_representable (2 * k - 1) (-1) M2 J2 q HU) as G.
      rewrite Ev in G. apply ge_finite in G. rewrite U0 in G. lra.
  - lra.
Qed.

(** Whole amounts that are not negative, with total and number together
    at most [2^50]: the reported mean is the exact average, rounded. *)
Lemma mean_of_whole_amounts (amounts : list Q) :
  amounts <> [] -> Forall Notions.whole amounts ->
  (Notions.total amounts + inject_Z (Z.of_nat (List.length amounts))
   <= inject_Z (2 ^ 50))%Q ->
  JS.round_or_zero (Some (Notions.average64 (JS.sortQ amounts)))
  = JS.Fin (inject_Z (Spec.round_half_away (Spec.average amounts))).
Proof.
  intros N W B.
  set (vals := JS.sortQ amounts).
  pose proof (sortQ_perm amounts) as P. fold vals in P.
  pose proof (sortQ_length amounts) as L. fold vals in L.
  assert (W' : Forall Notions.whole vals).
  { apply Forall_forall. intros x Hx. rewrite Forall_forall in W. apply W.
    now apply (Permutation_in _ P). }
  assert (ET : (Notions.total vals == Notions.total amounts)%Q)
    by (apply total_perm; exact P).
  assert (NV : vals <> [])
    by (intro C; apply N; apply length_zero_iff_nil;
        rewrite <- L, C; reflexivity).
  destruct (total_whole W') as (S & S0 & ES).
  pose proof (size_positive NV) as Pn.
  set (n := Z.of_nat (List.length vals)) in *.
  assert (Zn : (0 < n)%Z) by (rewrite Zlt_Qlt; exact Pn).
  assert (BZ : (S + n <= 2 ^ 50)%Z).
  { rewrite Zle_Qle, inject_Z_plus, <- ES, ET. unfold n. rewrite L.
    exact B. }
  assert (B53 : (Notions.total vals < inject_Z (2 ^ 53))%Q).
  { rewrite ES, <- Zlt_Qlt.
    assert (2 ^ 50 < 2 ^ 53)%Z by reflexivity. lia. }
  unfold Notions.average64. rewrite (sum_whole W' B53).
  unfold JS.size. fold n. rewrite (div_positive _ Pn).
  assert (E : (Qred (Notions.total vals) / inject_Z n
               == inject_Z S / inject_Z n)%Q)
    by (rewrite Qred_correct, ES; reflexivity).
  rewrite (fl_comp E).
  destruct (round_quotient S0 Zn BZ) as (v & -> & R).
  cbn [JS.round_or_zero]. rewrite R. do 2 f_equal.
  assert (A : (inject_Z S / inject_Z n == Spec.average amounts)%Q).
  { unfold Spec.average. fold (Notions.total amounts).
    rewrite <- ET, ES. unfold n. now rewrite L. }
  assert (A0 : (0 <= Spec.average amounts)%Q).
  { rewrite <- A. apply Qle_shift_div_l; trivial.
    assert (0 <= inject_Z S)%Q
      by (change 0%Q with (inject_Z 0); now rewrite <- Zle_Qle).
    lra. }
  rewrite (round_half_away_nonneg A0).
  unfold JS.round. apply Qfloor_comp. now rewrite A.
Qed.

(* ================================================================== *)
(** ** Percentiles and the mean *)







(** C6 fails as stated, in two ways.  Twelve amounts averaging -2.5 are
    reported with mean -2, the larger neighbour, where rounding half away
    from zero gives -3.  And the two amounts 0.16 and 2.84 are reported
    with mean 2: their sum is rounded to 3 before it is halved, where
    their exact average, just below 1.5, rounds to 1. *)
Lemma C6_rounding_counterexample :
  let row a := {| Wire.paid_amt := JS.Fin a; Wire.dos_year := JS.Fin 2021 |} in
  let reported rows :=
    option_map Wire.mean
      (match Unfiltered.summarize rows Wire.no_meta "12345"
               (JS.Fin 2021) (JS.Fin 2025) "zip" with
       | Some e => Wire.metrics e
       | None => None
       end) in
  let ties := repeat (row (-2)) 6 ++ repeat (row (-3)) 6 in
  let cents := [row (Notions.dbl (16 # 100)); row (Notions.dbl (284 # 100))] in
  (Spec.average (JS.finite_only (map Wire.paid_amt ties)) == - (5 # 2))%Q
  /\ Spec.round_half_away (- (5 # 2)) = (-3)%Z
  /\ reported ties = Some (JS.Fin (inject_Z (-2)))
  /\ (Spec.average (JS.finite_only (map Wire.paid_amt cents)) < 3 # 2)%Q
  /\ Spec.round_half_away
       (Spec.average (JS.finite_only (map Wire.paid_amt cents))) = 1%Z
  /\ reported cents = Some (JS.Fin (inject_Z 2)).
Proof. vm_compute. repeat split; reflexivity. Qed.

(** The average of finite amounts is never [NaN]. *)
Lemma average64_not_nan (vals : list Q) :
  vals <> [] -> Notions.average64 vals <> JS.NaN.
Proof.
  intro H. unfold Notions.average64.
  apply div_size_not_nan; trivial. apply sum_not_nan.
Qed.

(** C6, amended: the cascade handlers report [Math.round] of the average
    as binary64 arithmetic gives it: the ascending finite amounts are
    added one by one, every partial sum rounded to binary64, and the
    quotient by their number is rounded once more.  [Math.round] then
    takes the nearest integer, a tie going to the larger neighbour, which
    is rounding half away from zero whenever the average is not negative.
    When every finite amount is a whole number and not negative, and
    their total and their number together are at most [2^50], no sum is
    rounded and the reported mean is the exact average rounded half away
    from zero.  The exact-ZIP handler reports the binary64 average
    itself. *)
Theorem C6_mean_is_rounded_average (rows : list Wire.Row) (m : Wire.Meta)
    (zip : string) (y0 y1 : JS.number) (lvl : string) :
  let amounts := JS.finite_only (map Wire.paid_amt rows) in
  let avg := Notions.average64 (JS.sortQ amounts) in
  amounts <> [] ->
  (exists e f mu mf,
      Unfiltered.summarize rows m zip y0 y1 lvl = Some e
      /\ Filtered.summarize rows m zip y0 y1 lvl = Some f
      /\ Wire.metrics e = Some mu /\ Wire.metrics f = Some mf
      /\ Wire.mean mu = JS.round_or_zero (Some avg)
      /\ Wire.mean mf = Wire.mean mu)
  /\ avg <> JS.NaN
  /\ (forall a, avg = JS.Fin a ->
        JS.round_or_zero (Some avg)
        = JS.Fin (inject_Z (Qfloor (a + (1 # 2))))
        /\ (a - (1 # 2) < inject_Z (Qfloor (a + (1 # 2))))%Q
        /\ (inject_Z (Qfloor (a + (1 # 2))) <= a + (1 # 2))%Q
        /\ ((0 <= a)%Q -> Qfloor (a + (1 # 2)) = Spec.round_half_away a))
  /\ (Forall Notions.whole amounts ->
      (Notions.total amounts + inject_Z (Z.of_nat (List.length amounts))
       <= inject_Z (2 ^ 50))%Q ->
      JS.round_or_zero (Some avg)
      = JS.Fin (inject_Z (Spec.round_half_away (Spec.average amounts))))
  /\ ZipMetrics.mean (map JS.Fin (JS.sortQ amounts)) = Some avg.
Proof.
  intros amounts avg Ha.
  pose proof (unfiltered_summarize rows m zip y0 y1 lvl Ha) as U.
  pose proof (filtered_summarize rows m zip y0 y1 lvl Ha) as F.
  pose proof (vals_nonempty rows Ha) as Hv.
  fold amounts in U, F, Hv.
  split; [| split; [| split; [| split]]].
  - eexists _, _, _, _.
    split; [exact U |]. split; [exact F |].
    repeat split; reflexivity.
  - now apply average64_not_nan.
  - intros a E. rewrite E. split; [reflexivity |].
    split; [apply (round_nearest a) |].
    split; [apply (round_nearest a) |].
    intro H. symmetry. now apply round_half_away_nonneg.
  - intros W B. now apply mean_of_whole_amounts.
  - unfold ZipMetrics.mean, avg, Notions.average64, JS.size.
    rewrite length_map.
    destruct (JS.sortQ amounts); [congruence | reflexivity].
Qed.

Lemma C6_mean_is_rounded_average_witness :
  let rows := [ {| Wire.paid_amt := JS.Fin 10; Wire.dos_year := JS.Fin 2021 |};
                {| Wire.paid_amt := JS.Fin 13; Wire.dos_year := JS.Fin 2022 |} ] in
  let amounts := JS.finite_only (map Wire.paid_amt rows) in
  amounts <> []
  /\ Forall Notions.whole amounts
  /\ (Notions.total amounts + inject_Z (Z.of_nat (List.length amounts))
      <= inject_Z (2 ^ 50))%Q
  /\ JS.round_or_zero (Some (Notions.average64 (JS.sortQ amounts)))
     = JS.Fin (inject_Z (Spec.round_half_away (Spec.average amounts))).
Proof.
  intros rows amounts.
  assert (H : amounts <> []) by discriminate.
  assert (W : Forall Notions.whole amounts)
    by (repeat constructor; discriminate).
  assert (B : (Notions.total amounts + inject_Z (Z.of_nat (List.length amounts))
               <= inject_Z (2 ^ 50))%Q) by discriminate.
  split; [exact H |]. split; [exact W |]. split; [exact B |].
  exact (proj1 (proj2 (proj2 (proj2
    (@C6_mean_is_rounded_average rows Wire.no_meta "12345"
       (JS.Fin 2021) (JS.Fin 2025) "zip" H)))) W B).
Defined.

(** C9: in the cascade with row filters the reported p75 is the rounded
    largest finite amount: the guard reads a numeric property of the
    function [dollars], which is never there, so the branch on the last
    element of the ascending amounts is always the one taken. *)
Theorem C9_filtered_p75_is_rounded_maximum (rows : list Wire.Row)
    (m : Wire.Meta) (zip : string) (y0 y1 : JS.number) (lvl : string) :
  let amounts := JS.finite_only (map Wire.paid_amt rows) in
  amounts <> [] ->
  (forall i : Z, Filtered.dollars_at i = false)
  /\ exists e mt mx,
      Filtered.summarize rows m zip y0 y1 lvl = Some e
      /\ Wire.metrics e = Some mt
      /\ In mx amounts
      /\ (forall v, In v amounts -> (v <= mx)%Q)
      /\ Wire.p75 mt = JS.Fin (inject_Z (JS.round mx)).
Proof.
  intros amounts Ha. split; [exact dollars_at_false |].
  pose proof (filtered_summarize rows m zip y0 y1 lvl Ha) as F.
  fold amounts in F. rewrite dollars_at_false in F.
  pose proof (vals_nonempty rows Ha) as Hv. fold amounts in Hv.
  set (vals := JS.sortQ amounts) in *.
  assert (Hlen : (0 < List.length vals)%nat)
    by (destruct vals; [congruence | simpl; lia]).
  eexists _, _, (nth (List.length vals - 1) vals 0%Q).
  split; [exact F |]. split; [reflexivity |].
  split; [| split; [| reflexivity]].
  - apply (Permutation_in _ (sortQ_perm amounts)). apply nth_In.
    fold vals. lia.
  - intros v Hin.
    apply (Permutation_in _ (Permutation_sym (sortQ_perm amounts))) in Hin.
    now apply (sorted_ends (sortQ_sorted amounts) Hv).
Qed.

Lemma C9_filtered_p75_is_rounded_maximum_witness :
  let rows := [ {| Wire.paid_amt := JS.Fin 10; Wire.dos_year := JS.Fin 2021 |};
                {| Wire.paid_amt := JS.Fin 30; Wire.dos_year := JS.Fin 2021 |};
                {| Wire.paid_amt := JS.Fin 20; Wire.dos_year := JS.Fin 2022 |};
                {| Wire.paid_amt := JS.Fin 40; Wire.dos_year := JS.Fin 2022 |};
                {| Wire.paid_amt := JS.Fin 50; Wire.dos_year := JS.Fin 2022 |} ] in
  JS.finite_only (map Wire.paid_amt rows) <> []
  /\ forall i : Z, Filtered.dollars_at i = false.
Proof.
  intro rows.
  assert (H : JS.finite_only (map Wire.paid_amt rows) <> []) by discriminate.
  split; [exact H |].
  exact (proj1 (@C9_filtered_p75_is_rounded_maximum rows Wire.no_meta "12345"
                  (JS.Fin 2021) (JS.Fin 2025) "zip" H)).
Defined.

(* ================================================================== *)
(** ** The scope cascade *)

Section Accept.
Import Wire.

Lemma keep_row_finite (ez : bool) (mp : JS.number) (r : Row) :
  Filtered.keep_row ez mp r = true -> JS.isFinite (paid_amt r) = true.
Proof.
  unfold Filtered.keep_row. destruct (JS.isFinite (paid_amt r)); simpl.
  - reflexivity.
  - discriminate.
Qed.

Lemma finite_only_all (rows : list Row) :
  Forall (fun r => JS.isFinite (paid_amt r) = true) rows ->
  List.length (JS.finite_only (map paid_amt rows)) = List.length rows.
Proof.
  induction 1 as [|r rows Hr _ IH]; simpl.
  - reflexivity.
  - destruct (paid_amt r); try discriminate. simpl. now rewrite IH.
Qed.

Lemma filterRows_finite (rows : list Row) (ez : bool) (mp : JS.number) :
  List.length (JS.finite_only (map paid_amt (Filtered.filterRows rows ez mp)))
  = List.length (Filtered.filterRows rows ez mp).
Proof.
  apply finite_only_all. apply Forall_forall. intros r Hr.
  apply filter_In in Hr. now apply (keep_row_finite ez mp).
Qed.

(** A filtered row set that passes the gate is always summarized. *)
Lemma filtered_accept (rows : list Row) (ez : bool) (mp : JS.number)
    (m : Meta) (zip : string) (y0 y1 : JS.number) (lvl : string) :
  (MIN_N <=? List.length (Filtered.filterRows rows ez mp)) = true ->
  exists e,
    Filtered.summarize (Filtered.filterRows rows ez mp) m zip y0 y1 lvl
    = Some e
    /\ query_zip e = zip
    /\ level (used_scope e) = Some lvl
    /\ sample_size (used_scope e)
       = List.length (Filtered.filterRows rows ez mp)
    /\ meta (used_scope e) = m
    /\ metrics e <> None.
Proof.
  intro H. apply Nat.leb_le in H. unfold MIN_N in H.
  assert (Ha : JS.finite_only
                 (map paid_amt (Filtered.filterRows rows ez mp)) <> []).
  { intro E. pose proof (filterRows_finite rows ez mp) as L.
    rewrite E in L. simpl in L. lia. }
  rewrite (filtered_summarize _ m zip y0 y1 lvl Ha).
  eexists. split; [reflexivity |]. repeat split. discriminate.
Qed.

(** Without row filters the accepted rows are summarized as fetched: the
    envelope carries their number, or the body is [null]. *)
Lemma unfiltered_accept (rows : list Row) (m : Meta) (zip : string)
    (y0 y1 : JS.number) (lvl : string) :
  (JS.finite_only (map paid_amt rows) = []
   /\ Db.json (Unfiltered.summarize rows m zip y0 y1 lvl) = Json 200 BNull)
  \/ (JS.finite_only (map paid_amt rows) <> []
      /\ exists e,
        Db.json (Unfiltered.summarize rows m zip y0 y1 lvl)
        = Json 200 (BEnvelope e)
        /\ query_zip e = zip
        /\ level (used_scope e) = Some lvl
        /\ sample_size (used_scope e) = List.length rows
        /\ meta (used_scope e) = m
        /\ metrics e <> None).
Proof.
  destruct (JS.finite_only (map paid_amt rows)) as [|a l] eqn:E.
  - left. split; trivial.
    now rewrite (unfiltered_summarize_none rows m zip y0 y1 lvl E).
  - right. split; [discriminate |].
    assert (Ha : JS.finite_only (map paid_amt rows) <> [])
      by (rewrite E; discriminate).
    rewrite (unfiltered_summarize rows m zip y0 y1 lvl Ha).
    eexists. split; [reflexivity |]. repeat split. discriminate.
Qed.
End Accept.

(** Symbolic execution of the handlers over a store that answers. *)
Ltac crunch :=
  cbv beta iota zeta delta
    [Filtered.handler Filtered.cascade Filtered.runQuery
     Unfiltered.handler Unfiltered.cascade
     Db.bind Db.ret Db.await_claims Db.await_geo Db.await_nearest
     Db.claims Db.geo Db.nearest Spec.total_client
     Spec.candidates Spec.tried Spec.first_qualifying Spec.scope_query
     Spec.order Spec.claim_queries Spec.label Spec.rejected
     Spec.meta_filtered Spec.meta_unfiltered
     Db.g_state Db.g_lat Db.g_lon Db.truthy
     flat_map find map app hd_error fst snd negb orb].

(** Case analysis on the gate of the scope whose query is built by [k]. *)
Ltac gate k :=
  match goal with
  | |- context [MIN_N <=? ?n] =>
      match n with
      | context [k] =>
          let E := fresh "G" in destruct (MIN_N <=? n) eqn:E; crunch
      end
  end.

Ltac accepted_filtered :=
  match goal with
  | G : (MIN_N <=? List.length (Filtered.filterRows ?rows ?ez ?mp)) = true
    |- context [Filtered.summarize (Filtered.filterRows ?rows ?ez ?mp)
                  ?m ?z ?a ?b ?l] =>
      let e := fresh "e" in
      let He := fresh "He" in
      destruct (filtered_accept rows ez mp m z a b l G)
        as (e & He & ?Hq & ?Hl & ?Hs & ?Hmeta & ?Hmt);
      rewrite He; crunch;
      apply Nat.leb_le in G
  end.

Ltac accepted_unfiltered :=
  match goal with
  | G : (MIN_N <=? List.length ?rows) = true
    |- context [Db.json (Unfiltered.summarize ?rows ?m ?z ?a ?b ?l)] =>
      let e := fresh "e" in
      let He := fresh "He" in
      destruct (unfiltered_accept rows m z a b l)
        as [(?Hnone & He) | (?Hsome & e & He & ?Hq & ?Hl & ?Hs & ?Hmeta & ?Hmt)];
      rewrite He; crunch;
      apply Nat.leb_le in G
  end.

Section Cascade.
Import Wire Db.

Variable rowsf : ClaimsQuery -> list Row.
Variable geof : string -> list GeoRow.
Variable nearf : Q -> Q -> list NearRow.
Variable req : Request.
Hypothesis req_valid : Spec.valid req.

Let c : Client := Spec.total_client rowsf geof nearf.
Let qgeo : option GeoRow := hd_error (geof (zip req)).
Let cands : list (Spec.Scope * ClaimsQuery) := Spec.candidates req qgeo.
Let kept (q : ClaimsQuery) : nat :=
  List.length (Filtered.filterRows (rowsf q) (exclude_zero req) (min_paid req)).
Let raw (q : ClaimsQuery) : nat := List.length (rowsf q).
Let rep : list NearRow :=
  match qgeo with Some g => nearf (g_lat g) (g_lon g) | None => [] end.

(** With a store that answers, the filtered cascade is the walk over the
    candidates. *)
Lemma filtered_total :
  Spec.claim_queries (fst (Filtered.handler (inr c) req))
    = map snd (Spec.tried kept cands)
  /\ match Spec.first_qualifying kept cands with
     | Some (s, q) =>
         exists e,
           Filtered.summarize
             (Filtered.filterRows (rowsf q) (exclude_zero req) (min_paid req))
             (Spec.meta_filtered req qgeo s) (zip req)
             (year_from req) (year_to req) (Spec.label s) = Some e
           /\ snd (Filtered.handler (inr c) req) = Json 200 (BEnvelope e)
     | None =>
         snd (Filtered.handler (inr c) req)
         = Json 200 (BEnvelope (no_data (zip req)))
     end.
Proof.
  subst c cands kept qgeo.
  destruct req_valid as (Hm & Hz & Hc).
  unfold Filtered.handler. rewrite Hm, Hz, Hc.
  destruct (geof (zip req)) as [|[st lat lon] zg] eqn:Egeo;
    [| destruct st as [[|a s]|]]; crunch; try rewrite Egeo; crunch;
    (gate ByZip; [accepted_filtered; split; [reflexivity | eauto] |]);
    (gate ByZip3; [accepted_filtered; split; [reflexivity | eauto] |]);
    try (gate ByRadius; [accepted_filtered; split; [reflexivity | eauto] |]);
    try (gate ByState; [accepted_filtered; split; [reflexivity | eauto] |]);
    (gate Nationwide; [accepted_filtered; split; [reflexivity | eauto] |]);
    split; reflexivity.
Qed.

Lemma unfiltered_total :
  Spec.claim_queries (fst (Unfiltered.handler (inr c) req))
    = map snd (Spec.tried raw cands)
  /\ snd (Unfiltered.handler (inr c) req)
     = match Spec.first_qualifying raw cands with
       | Some (s, q) =>
           json (Unfiltered.summarize (rowsf q)
                   (Spec.meta_unfiltered req qgeo rep s) (zip req)
                   (year_from req) (year_to req) (Spec.label s))
       | None => Json 200 (BEnvelope (no_data (zip req)))
       end.
Proof.
  subst c cands raw rep qgeo.
  destruct req_valid as (Hm & Hz & Hc).
  unfold Unfiltered.handler. rewrite Hm, Hz, Hc.
  destruct (geof (zip req)) as [|[st lat lon] zg] eqn:Egeo;
    [| destruct st as [[|a s]|]]; crunch; try rewrite Egeo; crunch;
    (gate ByZip; [split; reflexivity |]);
    (gate ByZip3; [split; reflexivity |]);
    try (gate ByRadius; [split; reflexivity |]);
    try (gate ByState; [split; reflexivity |]);
    (gate Nationwide; [split; reflexivity |]);
    split; reflexivity.
Qed.

Lemma first_qualifying_some (count : ClaimsQuery -> nat)
    (l : list (Spec.Scope * ClaimsQuery)) (s : Spec.Scope) (q : ClaimsQuery) :
  Spec.first_qualifying count l = Some (s, q) ->
  In (s, q) l /\ (MIN_N <= count q)%nat.
Proof.
  intro H. apply find_some in H. destruct H as [Hin Hg].
  split; trivial. now apply Nat.leb_le in Hg.
Qed.
End Cascade.

(** C1 fails as stated: without row filters the exact scope is accepted
    on twelve fetched rows of which one has no finite amount, so the
    summarized sample has eleven amounts; and when none of the twelve
    amounts is finite the response is a [null] body, neither an accepted
    scope nor the no-data result. *)
Lemma C1_gate_on_fetched_rows_counterexample :
  let req := {| Db.method := "GET"; Db.zip := "10001"; Db.cpt := "99213";
                Db.year_from := JS.Fin 2021; Db.year_to := JS.Fin 2025;
                Db.debug := false; Db.exclude_zero := false;
                Db.min_paid := JS.Fin 0 |} in
  let good := {| Wire.paid_amt := JS.Fin 100; Wire.dos_year := JS.Fin 2022 |} in
  let bad := {| Wire.paid_amt := JS.NaN; Wire.dos_year := JS.Fin 2022 |} in
  let store rows :=
    Spec.total_client
      (fun q => match q with Db.ByZip _ _ _ _ => rows | _ => [] end)
      (fun _ => []) (fun _ _ => []) in
  Spec.valid req
  /\ List.length (JS.finite_only (map Wire.paid_amt (repeat good 11 ++ [bad])))
     = 11%nat
  /\ Spec.level_of
       (snd (Unfiltered.handler (inr (store (repeat good 11 ++ [bad]))) req))
     = Some "zip"%string
  /\ option_map (fun e => Wire.sample_size (Wire.used_scope e))
       (match snd (Unfiltered.handler
                     (inr (store (repeat good 11 ++ [bad]))) req) with
        | Wire.Json _ (Wire.BEnvelope e) => Some e
        | _ => None
        end) = Some 12%nat
  /\ snd (Unfiltered.handler (inr (store (repeat bad 12))) req)
     = Wire.Json 200 Wire.BNull.
Proof. vm_compute. repeat split; reflexivity. Qed.

(** C1, amended: for every valid request served by a store that answers,
    the cascade with row filters tries the scopes that can be tried in the
    order exact ZIP, ZIP3, radius, state, national, stops at the first
    whose filtered row count reaches [MIN_N] and reports that scope with
    that count, never less than [MIN_N]; when none qualifies the response
    is the no-data result.  The cascade without row filters walks the same
    order and applies the gate to the number of rows fetched. *)
Theorem C1_first_qualifying_scope
    (rowsf : Db.ClaimsQuery -> list Wire.Row) (geof : string -> list Db.GeoRow)
    (nearf : Q -> Q -> list Db.NearRow) (req : Db.Request) :
  Spec.valid req ->
  let c := Spec.total_client rowsf geof nearf in
  let cands := Spec.candidates req (hd_error (geof (Db.zip req))) in
  let kept q := List.length (Filtered.filterRows (rowsf q)
                               (Db.exclude_zero req) (Db.min_paid req)) in
  let raw q := List.length (rowsf q) in
  (Spec.claim_queries (fst (Filtered.handler (inr c) req))
     = map snd (Spec.tried kept cands)
   /\ match Spec.first_qualifying kept cands with
      | Some (s, q) =>
          exists e,
            snd (Filtered.handler (inr c) req)
            = Wire.Json 200 (Wire.BEnvelope e)
            /\ Wire.level (Wire.used_scope e) = Some (Spec.label s)
            /\ Wire.sample_size (Wire.used_scope e) = kept q
            /\ (MIN_N <= kept q)%nat
            /\ Wire.metrics e <> None
      | None =>
          snd (Filtered.handler (inr c) req)
          = Wire.Json 200 (Wire.BEnvelope (Wire.no_data (Db.zip req)))
      end)
  /\ (Spec.claim_queries (fst (Unfiltered.handler (inr c) req))
        = map snd (Spec.tried raw cands)
      /\ match Spec.first_qualifying raw cands with
         | Some (s, q) =>
             (MIN_N <= raw q)%nat
             /\ (snd (Unfiltered.handler (inr c) req)
                 = Wire.Json 200 Wire.BNull
                 \/ exists e,
                     snd (Unfiltered.handler (inr c) req)
                     = Wire.Json 200 (Wire.BEnvelope e)
                     /\ Wire.level (Wire.used_scope e) = Some (Spec.label s)
                     /\ Wire.sample_size (Wire.used_scope e) = raw q)
         | None =>
             snd (Unfiltered.handler (inr c) req)
             = Wire.Json 200 (Wire.BEnvelope (Wire.no_data (Db.zip req)))
         end).
Proof.
  intros Hv c cands kept raw.
  destruct (filtered_total rowsf geof nearf Hv) as [FL FR].
  destruct (unfiltered_total rowsf geof nearf Hv) as [UL UR].
  fold c in FL, FR, UL, UR. fold cands in FL, FR, UL, UR.
  split; split; trivial.
  - fold kept in FR.
    destruct (Spec.first_qualifying kept cands) as [[s q]|] eqn:F; trivial.
    destruct FR as (e & He & Hr).
    destruct (first_qualifying_some _ _ F) as [_ G].
    pose proof G as G'. apply Nat.leb_le in G'.
    destruct (filtered_accept (rowsf q) (Db.exclude_zero req) (Db.min_paid req)
                (Spec.meta_filtered req (hd_error (geof (Db.zip req))) s)
                (Db.zip req) (Db.year_from req) (Db.year_to req)
                (Spec.label s) G')
      as (e' & He' & _ & Hl & Hs & _ & Hmt).
    rewrite He in He'. injection He' as <-.
    exists e. repeat split; trivial.
  - fold raw in UR. rewrite UR.
    destruct (Spec.first_qualifying raw cands) as [[s q]|] eqn:F; trivial.
    destruct (first_qualifying_some _ _ F) as [_ G].
    split; trivial.
    match goal with
    | |- context [Db.json (Unfiltered.summarize ?r ?m ?z ?a ?b ?l)] =>
        destruct (unfiltered_accept r m z a b l)
          as [(_ & Hj) | (_ & e & Hj & _ & Hl & Hs & _)]; rewrite Hj
    end.
    + now left.
    + right. exists e. repeat split; trivial.
Qed.

Lemma C1_first_qualifying_scope_witness :
  let req := {| Db.method := "GET"; Db.zip := "10001"; Db.cpt := "99213";
                Db.year_from := JS.Fin 2021; Db.year_to := JS.Fin 2025;
                Db.debug := false; Db.exclude_zero := true;
                Db.min_paid := JS.Fin 50 |} in
  let row a := {| Wire.paid_amt := JS.Fin a; Wire.dos_year := JS.Fin 2022 |} in
  let rowsf q :=
    match q with
    | Db.ByZip _ _ _ _ => repeat (row 100) 5
    | Db.ByZip3 _ _ _ _ => repeat (row 120) 20 ++ repeat (row 0) 3
    | _ => []
    end in
  let kept q := List.length (Filtered.filterRows (rowsf q) true (JS.Fin 50)) in
  Spec.valid req
  /\ Spec.claim_queries
       (fst (Filtered.handler
               (inr (Spec.total_client rowsf (fun _ => []) (fun _ _ => []))) req))
     = map snd (Spec.tried kept (Spec.candidates req (hd_error []))).
Proof.
  intros req row rowsf kept.
  assert (H : Spec.valid req) by (repeat split; reflexivity).
  split; [exact H |].
  exact (proj1 (proj1 (@C1_first_qualifying_scope rowsf (fun _ => [])
                         (fun _ _ => []) req H))).
Defined.




(** *** The radius scope over the tables *)

Lemma label_radius (s : Spec.Scope) :
  Spec.label s = "radius"%string -> s = Spec.Radius.
Proof. destruct s; simpl; intro H; try discriminate; reflexivity. Qed.

Lemma geo_row_in_table (db : Sql.Tables) (zip : string) (g : Db.GeoRow) :
  hd_error (Sql.run_geo db zip) = Some g -> Sql.zip_geometry db <> [].
Proof.
  unfold Sql.run_geo. intros H E. rewrite E in H. discriminate.
Qed.

Lemma nearest_one (dist : Q -> Q -> Q -> Q -> Q) (db : Sql.Tables)
    (qlat qlon : Q) :
  Sql.zip_geometry db <> [] ->
  exists z,
    hd_error (Sql.by_distance dist db qlat qlon) = Some z
    /\ Sql.nearest_rows dist db qlat qlon 1
       = [ {| Db.n_zip5 := Sql.z_zip5 z;
              Db.n_dist_mi :=
                JS.Fin (dist qlat qlon (Sql.z_lat z) (Sql.z_lon z)) |} ]
    /\ In z (Sql.zip_geometry db)
    /\ forall z', In z' (Sql.zip_geometry db) ->
         (dist qlat qlon (Sql.z_lat z) (Sql.z_lon z)
          <= dist qlat qlon (Sql.z_lat z') (Sql.z_lon z'))%Q.
Proof.
  intro Hne. unfold Sql.nearest_rows.
  destruct (Sql.by_distance dist db qlat qlon) as [|z rest] eqn:E.
  - exfalso. apply Hne. apply length_zero_iff_nil.
    unfold Sql.by_distance in E.
    rewrite <- (sort_length
      (fun a b => JS.Qafter (dist qlat qlon (Sql.z_lat a) (Sql.z_lon a))
                            (dist qlat qlon (Sql.z_lat b) (Sql.z_lon b)))
      (Sql.zip_geometry db)).
    now rewrite E.
  - exists z. split; [reflexivity |]. split; [reflexivity |].
    apply (sort_by_key_hd_min
             (fun g => dist qlat qlon (Sql.z_lat g) (Sql.z_lon g))
             (Sql.zip_geometry db)).
    unfold Sql.by_distance in E. now rewrite E.
Qed.

(** C8 fails as stated: a request resolved at the radius scope by the
    cascade with row filters carries the query ZIP as representative and
    no distance at all.  The distance expression here is a planar stand-in
    for the great-circle one; the response does not depend on it. *)
Lemma C8_no_distance_reported_counterexample :
  let dist (qlat qlon lat lon : Q) :=
    ((lat - qlat) * (lat - qlat) + (lon - qlon) * (lon - qlon))%Q in
  let claim := {| Sql.c_zip5 := "20002"; Sql.c_state := Some "DC"%string;
                  Sql.c_cpt := "99213"; Sql.c_paid_amt := JS.Fin 100;
                  Sql.c_dos_year := JS.Fin 2022 |} in
  let db := {| Sql.claims_table := repeat claim 12;
               Sql.zip_geometry :=
                 [ {| Sql.z_zip5 := "10001"; Sql.z_state := None;
                      Sql.z_lat := 40; Sql.z_lon := -74 |};
                   {| Sql.z_zip5 := "20002"; Sql.z_state := Some "DC"%string;
                      Sql.z_lat := 39; Sql.z_lon := -77 |} ] |} in
  let req := {| Db.method := "GET"; Db.zip := "10001"; Db.cpt := "99213";
                Db.year_from := JS.Fin 2021; Db.year_to := JS.Fin 2025;
                Db.debug := false; Db.exclude_zero := false;
                Db.min_paid := JS.Fin 0 |} in
  let resp := snd (Filtered.handler (inr (Sql.client dist db)) req) in
  Spec.level_of resp = Some "radius"%string
  /\ option_map (fun e => Wire.meta (Wire.used_scope e))
       (match resp with
        | Wire.Json _ (Wire.BEnvelope e) => Some e
        | _ => None
        end)
     = Some {| Wire.representative_zip := Some "10001"%string;
               Wire.distance_miles := None;
               Wire.state := None |}.
Proof. vm_compute. split; reflexivity. Qed.

(** C8, amended: a request resolved at the radius scope reports a
    representative location that does not depend on which locations
    contributed claim rows.  Without row filters it is the first row of
    [zip_geometry] in ascending distance from the query centroid, a row at
    the least distance (the query ZIP standing in for an empty code); with
    row filters it is the query ZIP itself, and no distance is reported. *)
Theorem C8_radius_representative (dist : Q -> Q -> Q -> Q -> Q)
    (db : Sql.Tables) (req : Db.Request) (e : Wire.Envelope) :
  Spec.valid req ->
  Wire.level (Wire.used_scope e) = Some "radius"%string ->
  (snd (Unfiltered.handler (inr (Sql.client dist db)) req)
   = Wire.Json 200 (Wire.BEnvelope e) ->
   exists g z,
     hd_error (Sql.run_geo db (Db.zip req)) = Some g
     /\ hd_error (Sql.by_distance dist db (Db.g_lat g) (Db.g_lon g)) = Some z
     /\ In z (Sql.zip_geometry db)
     /\ (forall z', In z' (Sql.zip_geometry db) ->
           (dist (Db.g_lat g) (Db.g_lon g) (Sql.z_lat z) (Sql.z_lon z)
            <= dist (Db.g_lat g) (Db.g_lon g) (Sql.z_lat z') (Sql.z_lon z'))%Q)
     /\ Wire.representative_zip (Wire.meta (Wire.used_scope e))
        = Some (if Db.truthy (Some (Sql.z_zip5 z)) then Sql.z_zip5 z
                else Db.zip req))
  /\ (snd (Filtered.handler (inr (Sql.client dist db)) req)
      = Wire.Json 200 (Wire.BEnvelope e) ->
      Wire.representative_zip (Wire.meta (Wire.used_scope e))
      = Some (Db.zip req)
      /\ Wire.distance_miles (Wire.meta (Wire.used_scope e)) = None).
Proof.
  intros Hv Hlvl.
  set (rowsf := Sql.run_claims dist db).
  set (geof := Sql.run_geo db).
  set (nearf := fun a b => Sql.nearest_rows dist db a b 1).
  change (Sql.client dist db) with (Spec.total_client rowsf geof nearf).
  split; intro Hresp.
  - destruct (unfiltered_total rowsf geof nearf Hv) as [_ UR].
    rewrite UR in Hresp. clear UR.
    destruct (Spec.first_qualifying _ _) as [[s q]|] eqn:F.
    2:{ injection Hresp as <-. discriminate. }
    match type of Hresp with
    | context [Db.json (Unfiltered.summarize ?r ?m ?z ?a ?b ?l)] =>
        destruct (unfiltered_accept r m z a b l)
          as [(_ & Hj) | (_ & e' & Hj & _ & Hl & _ & Hmeta & _)];
        rewrite Hj in Hresp; [discriminate |]
    end.
    injection Hresp as <-. rewrite Hl in Hlvl. injection Hlvl as Hs.
    apply label_radius in Hs. subst s.
    destruct (first_qualifying_some _ _ F) as [Hin _].
    destruct (hd_error (geof (Db.zip req))) as [g|] eqn:Eg.
    2:{ simpl in Hin. intuition discriminate. }
    destruct (@nearest_one dist db (Db.g_lat g) (Db.g_lon g)
                (@geo_row_in_table db (Db.zip req) g Eg))
      as (z & Hz & Hrows & Hzin & Hmin).
    exists g, z. repeat split; trivial.
    rewrite Hmeta. simpl. unfold nearf. rewrite Hrows. reflexivity.
  - destruct (filtered_total rowsf geof nearf Hv) as [_ FR].
    destruct (Spec.first_qualifying _ _) as [[s q]|] eqn:F.
    2:{ rewrite FR in Hresp. injection Hresp as <-. discriminate. }
    destruct FR as (e' & He & Hr). rewrite Hr in Hresp.
    injection Hresp as <-.
    destruct (first_qualifying_some _ _ F) as [_ G].
    apply Nat.leb_le in G.
    match type of He with
    | Filtered.summarize (Filtered.filterRows ?r ?ez ?mp) ?m ?z ?a ?b ?l = _ =>
        destruct (filtered_accept r ez mp m z a b l G)
          as (e2 & He2 & _ & Hl & _ & Hmeta & _)
    end.
    rewrite He in He2. injection He2 as <-.
    rewrite Hl in Hlvl. injection Hlvl as Hs.
    apply label_radius in Hs. subst s.
    rewrite Hmeta. split; reflexivity.
Qed.

Lemma C8_radius_representative_witness :
  let dist (qlat qlon lat lon : Q) :=
    ((lat - qlat) * (lat - qlat) + (lon - qlon) * (lon - qlon))%Q in
  let claim := {| Sql.c_zip5 := "20002"; Sql.c_state := Some "DC"%string;
                  Sql.c_cpt := "99213"; Sql.c_paid_amt := JS.Fin 100;
                  Sql.c_dos_year := JS.Fin 2022 |} in
  let db := {| Sql.claims_table := repeat claim 12;
               Sql.zip_geometry :=
                 [ {| Sql.z_zip5 := "20002"; Sql.z_state := Some "DC"%string;
                      Sql.z_lat := 39; Sql.z_lon := -77 |};
                   {| Sql.z_zip5 := "10001"; Sql.z_state := None;
                      Sql.z_lat := 40; Sql.z_lon := -74 |} ] |} in
  let req := {| Db.method := "GET"; Db.zip := "10001"; Db.cpt := "99213";
                Db.year_from := JS.Fin 2021; Db.year_to := JS.Fin 2025;
                Db.debug := false; Db.exclude_zero := false;
                Db.min_paid := JS.Fin 0 |} in
  exists e,
    Spec.valid req
    /\ Wire.level (Wire.used_scope e) = Some "radius"%string
    /\ snd (Filtered.handler (inr (Sql.client dist db)) req)
       = Wire.Json 200 (Wire.BEnvelope e)
    /\ Wire.representative_zip (Wire.meta (Wire.used_scope e))
       = Some "10001"%string
    /\ Wire.distance_miles (Wire.meta (Wire.used_scope e)) = None.
Proof.
  intros dist claim db req.
  destruct (snd (Filtered.handler (inr (Sql.client dist db)) req))
    as [| st [e | | |]] eqn:E; try (vm_compute in E; discriminate).
  assert (Hst : st = 200%nat) by (vm_compute in E; congruence).
  subst st.
  assert (Hv : Spec.valid req) by (repeat split; reflexivity).
  assert (Hl : Wire.level (Wire.used_scope e) = Some "radius"%string)
    by (vm_compute in E; injection E as <-; reflexivity).
  exists e. split; [exact Hv |]. split; [exact Hl |]. split; [reflexivity |].
  exact (proj2 (@C8_radius_representative dist db req e Hv Hl) E).
Defined.

(** *** The cascade over a store that may reject *)

Section Surfacing.
Import Db.
Variable c : Client.

Lemma clean_snoc (log : list Event) (ev : Event) :
  Spec.clean c log -> Spec.rejected c ev = None -> Spec.clean c (log ++ [ev]).
Proof.
  intros Hl He x Hx. apply in_app_or in Hx.
  destruct Hx as [Hx | [<- | []]]; auto.
Qed.

Lemma surfaces_ret (A : Type) (a : A) : Spec.surfaces c (ret a).
Proof. intros log Hl. exact Hl. Qed.

Lemma surfaces_bind (A B : Type) (m : M A) (k : A -> M B) :
  Spec.surfaces c m -> (forall a, Spec.surfaces c (k a)) ->
  Spec.surfaces c (bind m k).
Proof.
  intros Hm Hk log Hl. unfold bind.
  specialize (Hm log Hl). destruct (m log) as [log' [msg | a]].
  - exact Hm.
  - now apply Hk.
Qed.

Lemma surfaces_claims (q : ClaimsQuery) : Spec.surfaces c (await_claims c q).
Proof.
  intros log Hl. unfold await_claims.
  destruct (claims c q) as [msg | rows] eqn:E.
  - exists log, (EClaims q). repeat split; trivial. simpl. now rewrite E.
  - apply clean_snoc; trivial. simpl. now rewrite E.
Qed.

Lemma surfaces_geo (z : string) : Spec.surfaces c (await_geo c z).
Proof.
  intros log Hl. unfold await_geo.
  destruct (geo c z) as [msg | rows] eqn:E.
  - exists log, (EGeo z). repeat split; trivial. simpl. now rewrite E.
  - apply clean_snoc; trivial. simpl. now rewrite E.
Qed.

Lemma surfaces_nearest (a b : Q) : Spec.surfaces c (await_nearest c a b).
Proof.
  intros log Hl. unfold await_nearest.
  destruct (nearest c a b) as [msg | rows] eqn:E.
  - exists log, (ENearest a b). repeat split; trivial. simpl. now rewrite E.
  - apply clean_snoc; trivial. simpl. now rewrite E.
Qed.

Ltac surfacing :=
  repeat first
    [ apply surfaces_ret
    | apply surfaces_claims
    | apply surfaces_geo
    | apply surfaces_nearest
    | apply surfaces_bind; [| intro]
    | match goal with
      | |- Spec.surfaces _ (if ?b then _ else _) => destruct b
      | |- Spec.surfaces _ (match ?x with Some _ => _ | None => _ end) =>
          destruct x
      end ].

Lemma filtered_surfaces (req : Request) :
  Spec.surfaces c (Filtered.cascade c req).
Proof.
  unfold Filtered.cascade, Filtered.runQuery. cbv zeta. surfacing.
Qed.

Lemma unfiltered_surfaces (req : Request) :
  Spec.surfaces c (Unfiltered.cascade c req).
Proof.
  unfold Unfiltered.cascade. cbv zeta. surfacing.
Qed.

Lemma clean_nil : Spec.clean c [].
Proof. intros ev []. Qed.

(** What a surfacing body gives once wrapped in the [try]/[catch]. *)
Lemma surfaced_response (req : Request) (body : M Wire.Response) :
  Spec.surfaces c body ->
  let log := fst (body []) in
  let resp := match snd (body []) with
              | inr r => r
              | inl msg => server_error req msg
              end in
  (forall ev msg, In ev log -> Spec.rejected c ev = Some msg ->
     resp = server_error req msg)
  /\ (Spec.clean c log -> exists r, snd (body []) = inr r /\ resp = r).
Proof.
  intros Hs log resp. subst log resp.
  specialize (Hs [] clean_nil).
  destruct (body []) as [log [msg | r]]; simpl.
  - destruct Hs as (l & ev' & -> & Hl & Hrej). split.
    + intros ev m Hin Hr. apply in_app_or in Hin.
      destruct Hin as [Hin | [<- | []]].
      * rewrite (Hl ev Hin) in Hr. discriminate.
      * congruence.
    + intro Hc.
      assert (Hin : In ev' (l ++ [ev'])) by (apply in_or_app; right; now left).
      specialize (Hc ev' Hin). congruence.
  - split.
    + intros ev m Hin Hr. rewrite (Hs ev Hin) in Hr. discriminate.
    + intros _. now exists r.
Qed.
End Surfacing.

Lemma filtered_handler_run (c : Db.Client) (req : Db.Request) :
  Spec.valid req ->
  Filtered.handler (inr c) req
  = (fst (Filtered.cascade c req []) ++ [Db.ERelease],
     match snd (Filtered.cascade c req []) with
     | inr r => r
     | inl msg => Db.server_error req msg
     end).
Proof.
  intros (Hm & Hz & Hc). unfold Filtered.handler. rewrite Hm, Hz, Hc. simpl.
  now destruct (Filtered.cascade c req []) as [log [msg | r]].
Qed.

Lemma unfiltered_handler_run (c : Db.Client) (req : Db.Request) :
  Spec.valid req ->
  Unfiltered.handler (inr c) req
  = (fst (Unfiltered.cascade c req []) ++ [Db.ERelease],
     match snd (Unfiltered.cascade c req []) with
     | inr r => r
     | inl msg => Db.server_error req msg
     end).
Proof.
  intros (Hm & Hz & Hc). unfold Unfiltered.handler. rewrite Hm, Hz, Hc. simpl.
  now destruct (Unfiltered.cascade c req []) as [log [msg | r]].
Qed.

Lemma handler_connect_rejected (req : Db.Request) (msg : string) :
  Spec.valid req ->
  Filtered.handler (inl msg) req = ([], Db.server_error req msg)
  /\ Unfiltered.handler (inl msg) req = ([], Db.server_error req msg).
Proof.
  intros (Hm & Hz & Hc). unfold Filtered.handler, Unfiltered.handler.
  rewrite Hm, Hz, Hc. split; reflexivity.
Qed.

(** C3 fails as stated: in the cursor-paginated handler a scope whose
    fetch reports an error is passed over like an empty one; when every
    scope fails the response is the successful empty payload, the same as
    over a store that has no rows. *)
Lemma C3_paged_error_read_as_empty_counterexample :
  let req := {| Paged.p_zip := Some "10001"%string;
                Paged.p_state := Some "NY"%string;
                Paged.p_excludeZero := None; Paged.p_limit := None;
                Paged.p_org := None |} in
  let digest (_ : string) (_ : Z) := EmptyString in
  let failing (_ : Paged.PScope) : Db.Result (ZipMetrics.SbResult Paged.VRow) :=
    inr {| ZipMetrics.data := None;
           ZipMetrics.error := Some "connection refused"%string |} in
  let empty (_ : Paged.PScope) : Db.Result (ZipMetrics.SbResult Paged.VRow) :=
    inr {| ZipMetrics.data := Some []; ZipMetrics.error := None |} in
  Paged.handler digest failing req = Paged.handler digest empty req
  /\ Paged.handler digest failing req
     = Paged.POk {| Paged.pp_query_zip := Some "10001"%string;
                    Paged.pp_used_scope := None;
                    Paged.pp_exclude_zero := false;
                    Paged.pp_limit := JS.Fin 50;
                    Paged.pp_nextCursor := None;
                    Paged.pp_results := [] |}.
Proof. vm_compute. split; reflexivity. Qed.

(** C3, amended: in both cascade handlers a rejected connection or a
    rejected query is answered with the status-500 server error carrying
    its message (shown under [debug] only) and is never read as an empty
    scope; the no-data result is produced only when every query issued was
    answered.  The exact-ZIP handler answers a claims query error with a
    status-500 "db error".  In the cursor-paginated handler a rejected fetch
    is surfaced too, whereas a fetch that resolves with an error is skipped
    and the loop goes on to the next scope. *)
Theorem C3_store_failure_is_surfaced (req : Db.Request) :
  Spec.valid req ->
  (forall msg,
      snd (Filtered.handler (inl msg) req) = Db.server_error req msg
      /\ snd (Unfiltered.handler (inl msg) req) = Db.server_error req msg)
  /\ (forall c ev msg,
      Spec.rejected c ev = Some msg ->
      (In ev (fst (Filtered.handler (inr c) req)) ->
       snd (Filtered.handler (inr c) req) = Db.server_error req msg)
      /\ (In ev (fst (Unfiltered.handler (inr c) req)) ->
          snd (Unfiltered.handler (inr c) req) = Db.server_error req msg))
  /\ (forall c,
      (snd (Filtered.handler (inr c) req)
       = Wire.Json 200 (Wire.BEnvelope (Wire.no_data (Db.zip req))) ->
       Spec.clean c (fst (Filtered.handler (inr c) req)))
      /\ (snd (Unfiltered.handler (inr c) req)
          = Wire.Json 200 (Wire.BEnvelope (Wire.no_data (Db.zip req))) ->
          Spec.clean c (fst (Unfiltered.handler (inr c) req))))
  /\ (forall ignoreZero year claimsRes rvuRes m,
      String.length (Db.cpt req) = 5%nat ->
      ZipMetrics.error claimsRes = Some m ->
      ZipMetrics.handler "GET" (Db.zip req) (Db.cpt req) ignoreZero year
        claimsRes rvuRes
      = ZipMetrics.ZError 500 ("db error: " ++ m))
  /\ (forall (fetch : Paged.PScope -> Db.Result (ZipMetrics.SbResult Paged.VRow))
             s rest,
      match fetch s with
      | inl m => Paged.scan fetch (s :: rest) = inl m
      | inr r =>
          ZipMetrics.error r <> None ->
          Paged.scan fetch (s :: rest) = Paged.scan fetch rest
      end).
Proof.
  intro Hv.
  assert (R : forall c ev msg,
      Spec.rejected c ev = Some msg ->
      (In ev (fst (Filtered.handler (inr c) req)) ->
       snd (Filtered.handler (inr c) req) = Db.server_error req msg)
      /\ (In ev (fst (Unfiltered.handler (inr c) req)) ->
          snd (Unfiltered.handler (inr c) req) = Db.server_error req msg)).
  { intros c ev msg Hrej.
    rewrite (@filtered_handler_run c req Hv), (@unfiltered_handler_run c req Hv).
    split; intro Hin; simpl in *;
      (apply in_app_or in Hin; destruct Hin as [Hin | [<- | []]];
       [| discriminate]).
    - now apply (proj1 (@surfaced_response c req (Filtered.cascade c req)
                          (@filtered_surfaces c req)) ev msg).
    - now apply (proj1 (@surfaced_response c req (Unfiltered.cascade c req)
                          (@unfiltered_surfaces c req)) ev msg). }
  split; [| split; [exact R | split; [| split]]].
  - intro msg. destruct (@handler_connect_rejected req msg Hv) as [-> ->].
    split; reflexivity.
  - intro c. split; intros Hresp ev Hin;
      destruct (Spec.rejected c ev) as [msg |] eqn:Hrej; trivial;
      exfalso; destruct (R c ev msg Hrej) as [RF RU].
    + rewrite (RF Hin) in Hresp. discriminate.
    + rewrite (RU Hin) in Hresp. discriminate.
  - intros ignoreZero year claimsRes rvuRes m Hlen Herr.
    destruct Hv as (_ & Hz & Hc). unfold Db.cpt_ok in Hc.
    apply andb_true_iff in Hc. destruct Hc as [Hc _].
    apply andb_true_iff in Hc. destruct Hc as [Hd _].
    unfold ZipMetrics.handler. simpl String.eqb.
    rewrite Hz, Hd, Hlen, Herr. reflexivity.
  - intros fetch s rest. simpl.
    destruct (fetch s) as [m | r]; [reflexivity |].
    intro He. destruct (ZipMetrics.error r); [reflexivity | congruence].
Qed.

Lemma C3_store_failure_is_surfaced_witness :
  let req := {| Db.method := "GET"; Db.zip := "10001"; Db.cpt := "99213";
                Db.year_from := JS.Fin 2021; Db.year_to := JS.Fin 2025;
                Db.debug := true; Db.exclude_zero := false;
                Db.min_paid := JS.Fin 0 |} in
  Spec.valid req
  /\ snd (Filtered.handler (inl "pool exhausted"%string) req)
     = Wire.Json 500 (Wire.BServerError (Some "pool exhausted"%string)).
Proof.
  intro req.
  assert (H : Spec.valid req) by (repeat split; reflexivity).
  split; [exact H |].
  exact (proj1 (proj1 (@C3_store_failure_is_surfaced req H)
                  "pool exhausted"%string)).
Defined.

(** C4: when the geo lookup of the query location returns no row, and
    the exact and ZIP3 scopes are under the threshold, both cascades issue
    exactly the exact, ZIP3, geo and national queries, in that order, and
    release the client: the radius and state scopes are not queried.  The national scope is then
    accepted if it reaches [MIN_N]; otherwise the response is the no-data
    result with level [null], sample size 0 and metrics [null]. *)
Theorem C4_location_absent_from_geo_index (c : Db.Client) (req : Db.Request)
    (r1 r2 r5 : list Wire.Row) :
  let q1 := Db.ByZip (Db.zip req) (Db.cpt req)
              (Db.year_from req) (Db.year_to req) in
  let q2 := Db.ByZip3 (substring 0 3 (Db.zip req)) (Db.cpt req)
              (Db.year_from req) (Db.year_to req) in
  let q5 := Db.Nationwide (Db.cpt req) (Db.year_from req) (Db.year_to req) in
  let kept rows := List.length (Filtered.filterRows rows (Db.exclude_zero req)
                                  (Db.min_paid req)) in
  let walked := [Db.EClaims q1; Db.EClaims q2; Db.EGeo (Db.zip req);
                 Db.EClaims q5; Db.ERelease] in
  let nothing :=
    Wire.Json 200 (Wire.BEnvelope
      {| Wire.query_zip := Db.zip req;
         Wire.used_scope := {| Wire.level := None; Wire.sample_size := 0;
                               Wire.meta := Wire.no_meta |};
         Wire.metrics := None |}) in
  Spec.valid req ->
  Db.claims c q1 = inr r1 ->
  Db.claims c q2 = inr r2 ->
  Db.geo c (Db.zip req) = inr [] ->
  Db.claims c q5 = inr r5 ->
  ((kept r1 < MIN_N)%nat -> (kept r2 < MIN_N)%nat ->
   fst (Filtered.handler (inr c) req) = walked
   /\ ((kept r5 < MIN_N)%nat -> snd (Filtered.handler (inr c) req) = nothing)
   /\ ((MIN_N <= kept r5)%nat ->
       Spec.level_of (snd (Filtered.handler (inr c) req))
       = Some "national"%string))
  /\ ((List.length r1 < MIN_N)%nat -> (List.length r2 < MIN_N)%nat ->
      fst (Unfiltered.handler (inr c) req) = walked
      /\ ((List.length r5 < MIN_N)%nat ->
          snd (Unfiltered.handler (inr c) req) = nothing)
      /\ ((MIN_N <= List.length r5)%nat ->
          snd (Unfiltered.handler (inr c) req)
          = Db.json (Unfiltered.summarize r5 Wire.no_meta (Db.zip req)
                       (Db.year_from req) (Db.year_to req) "national"))).
Proof.
  intros q1 q2 q5 kept walked nothing Hv H1 H2 Hg H5.
  subst q1 q2 q5 kept walked nothing.
  split; intros L1 L2.
  - rewrite (@filtered_handler_run c req Hv).
    apply Nat.leb_gt in L1, L2.
    unfold Filtered.cascade, Filtered.runQuery, Db.bind, Db.await_claims,
      Db.await_geo, Db.ret.
    cbv zeta.
    rewrite H1; cbv beta iota. rewrite L1; cbv beta iota.
    rewrite H2; cbv beta iota. rewrite L2; cbv beta iota.
    rewrite Hg; cbv beta iota delta [hd_error].
    rewrite H5; cbv beta iota.
    clear L1 L2. destruct (MIN_N <=? _) eqn:G.
    + destruct (filtered_accept _ _ _ Wire.no_meta (Db.zip req)
                  (Db.year_from req) (Db.year_to req) "national" G)
        as (e & He & _ & Hl & _).
      rewrite He. simpl. split; [reflexivity |]. split.
      * intro L. apply Nat.leb_le in G. lia.
      * intros _. exact Hl.
    + simpl. split; [reflexivity |]. split.
      * reflexivity.
      * intro L. apply Nat.leb_gt in G. lia.
  - rewrite (@unfiltered_handler_run c req Hv).
    apply Nat.leb_gt in L1, L2.
    unfold Unfiltered.cascade, Db.bind, Db.await_claims, Db.await_geo, Db.ret.
    cbv zeta.
    rewrite H1; cbv beta iota. rewrite L1; cbv beta iota.
    rewrite H2; cbv beta iota. rewrite L2; cbv beta iota.
    rewrite Hg; cbv beta iota delta [hd_error].
    rewrite H5; cbv beta iota.
    clear L1 L2. destruct (MIN_N <=? _) eqn:G; simpl; (split; [reflexivity |]); split;
      try reflexivity; intro L;
      first [apply Nat.leb_le in G | apply Nat.leb_gt in G]; lia.
Qed.

Lemma C4_location_absent_from_geo_index_witness :
  let req := {| Db.method := "GET"; Db.zip := "10001"; Db.cpt := "99213";
                Db.year_from := JS.Fin 2021; Db.year_to := JS.Fin 2025;
                Db.debug := false; Db.exclude_zero := false;
                Db.min_paid := JS.Fin 0 |} in
  let row := {| Wire.paid_amt := JS.Fin 80; Wire.dos_year := JS.Fin 2023 |} in
  let c := Spec.total_client
             (fun q => match q with
                       | Db.ByZip _ _ _ _ => repeat row 5
                       | Db.ByZip3 _ _ _ _ => repeat row 7
                       | _ => repeat row 9
                       end)
             (fun _ => []) (fun _ _ => []) in
  Spec.valid req
  /\ fst (Filtered.handler (inr c) req)
     = [Db.EClaims (Db.ByZip "10001" "99213" (JS.Fin 2021) (JS.Fin 2025));
        Db.EClaims (Db.ByZip3 "100" "99213" (JS.Fin 2021) (JS.Fin 2025));
        Db.EGeo "10001";
        Db.EClaims (Db.Nationwide "99213" (JS.Fin 2021) (JS.Fin 2025));
        Db.ERelease]
  /\ snd (Filtered.handler (inr c) req)
     = Wire.Json 200 (Wire.BEnvelope (Wire.no_data "10001")).
Proof.
  intros req row c.
  assert (H : Spec.valid req) by (repeat split; reflexivity).
  pose proof (@C4_location_absent_from_geo_index c req
                (repeat row 5) (repeat row 7) (repeat row 9)
                H eq_refl eq_refl eq_refl eq_refl) as T.
  destruct T as [T _].
  assert (L1 : (List.length (Filtered.filterRows (repeat row 5)
                  (Db.exclude_zero req) (Db.min_paid req)) < MIN_N)%nat)
    by (vm_compute; lia).
  assert (L2 : (List.length (Filtered.filterRows (repeat row 7)
                  (Db.exclude_zero req) (Db.min_paid req)) < MIN_N)%nat)
    by (vm_compute; lia).
  assert (L5 : (List.length (Filtered.filterRows (repeat row 9)
                  (Db.exclude_zero req) (Db.min_paid req)) < MIN_N)%nat)
    by (vm_compute; lia).
  destruct (T L1 L2) as (Hlog & Hnone & _).
  split; [exact H |]. split; [exact Hlog | exact (Hnone L5)].
Defined.

(* ================================================================== *)
(** ** Yearly trend *)

(** *** Strictly ascending output of [sort] on distinct keys *)

Section StrictSort.
Variable A : Type.
Variable after : A -> A -> bool.
Hypothesis after_trans :
  forall a b c, after b a = true -> after c b = true -> after c a = true.

Let before (a b : A) : Prop := after b a = true.
Let apart (a b : A) : Prop := after a b = true \/ after b a = true.

Lemma insert_strict (x : A) (l : list A) :
  StronglySorted before l -> Forall (apart x) l ->
  StronglySorted before (JS.insert after x l).
Proof.
  induction 1 as [|y l Hs IH Hall]; intro Hx; simpl.
  - repeat constructor.
  - inversion Hx as [|? ? Hxy Hxl]; subst.
    destruct (after x y) eqn:E.
    + constructor; [now apply IH |].
      apply Forall_forall. intros z Hz.
      apply (Permutation_in _ (insert_perm after x l)) in Hz.
      destruct Hz as [<- | Hz]; [exact E |].
      rewrite Forall_forall in Hall. now apply Hall.
    + assert (Hyx : before x y) by (destruct Hxy as [C | C]; [congruence | exact C]).
      constructor; [now constructor |].
      constructor; trivial.
      apply Forall_forall. intros z Hz. rewrite Forall_forall in Hall.
      unfold before in *. now apply after_trans with y; [| apply Hall].
Qed.

Lemma sort_strict (l : list A) :
  ForallOrdPairs apart l -> StronglySorted before (JS.sort after l).
Proof.
  induction 1 as [|x l Hx Hl IH]; simpl.
  - constructor.
  - apply insert_strict; trivial.
    apply Forall_forall. intros z Hz.
    apply (sort_in after l z) in Hz.
    rewrite Forall_forall in Hx. now apply Hx.
Qed.
End StrictSort.

Lemma pairs_perm (A : Type) (R : A -> A -> Prop) (l l' : list A) :
  (forall a b, R a b -> R b a) ->
  Permutation l l' -> ForallOrdPairs R l -> ForallOrdPairs R l'.
Proof.
  intros Rsym P. induction P as [| x l l' P IH | x y l | l l' l'' P1 IH1 P2 IH2];
    intro H.
  - exact H.
  - inversion H as [|? ? Hx Hl]; subst. constructor.
    + now apply (Permutation_Forall P).
    + now apply IH.
  - inversion H as [|? ? Hy Hxl]; subst.
    inversion Hxl as [|? ? Hx Hl]; subst.
    inversion Hy as [|? ? Hyx Hyl]; subst.
    constructor; [constructor; auto |]. now constructor.
  - auto.
Qed.

(** Two strictly sorted listings of the same elements are the same list. *)
Lemma strictly_sorted_unique (A : Type) (before : A -> A -> Prop)
    (l1 l2 : list A) :
  (forall a, ~ before a a) ->
  (forall a b c, before a b -> before b c -> before a c) ->
  StronglySorted before l1 -> StronglySorted before l2 ->
  Permutation l1 l2 -> l1 = l2.
Proof.
  intros Irr Tr S1. revert l2.
  induction S1 as [|a l1 S1 IH H1]; intros l2 S2 P.
  - now apply Permutation_nil in P.
  - destruct S2 as [|b l2 S2 H2].
    + apply Permutation_sym, Permutation_nil in P. discriminate.
    + assert (E : a = b).
      { assert (Ha : In a (b :: l2))
          by (apply (Permutation_in _ P); now left).
        assert (Hb : In b (a :: l1))
          by (apply (Permutation_in _ (Permutation_sym P)); now left).
        destruct Ha as [Ha | Ha]; [now symmetry |].
        destruct Hb as [Hb | Hb]; [exact Hb |].
        rewrite Forall_forall in H1, H2.
        exfalso. apply (Irr a). apply Tr with b; auto. }
      subst b. f_equal. apply IH; trivial.
      now apply Permutation_cons_inv with a.
Qed.

(** *** What a run of [JS.push] groups *)

Section Grouping.
Variables K V : Type.
Variable same : K -> K -> bool.
Hypothesis same_refl : forall a, same a a = true.
Hypothesis same_sym : forall a b, same a b = same b a.
Hypothesis same_trans :
  forall a b c, same a b = true -> same b c = true -> same a c = true.

Let run (kvs : list (K * V)) : list (K * list V) :=
  fold_left (fun m kv => JS.push same (fst kv) (snd kv) m) kvs [].

Lemma push_cases (k : K) (v : V) (m : list (K * list V)) :
  (exists m1 k' vs m2,
      m = m1 ++ (k', vs) :: m2 /\ same k k' = true
      /\ (forall e, In e m1 -> same k (fst e) = false)
      /\ JS.push same k v m = m1 ++ (k', vs ++ [v]) :: m2)
  \/ ((forall e, In e m -> same k (fst e) = false)
      /\ JS.push same k v m = m ++ [(k, [v])]).
Proof.
  induction m as [|[k' vs] m IH]; simpl.
  - right. split; [intros e [] | reflexivity].
  - destruct (same k k') eqn:E.
    + left. exists [], k', vs, m. repeat split; trivial. intros e [].
    + destruct IH as [(m1 & k2 & vs2 & m2 & -> & Hs & Hm1 & Hp) | (Hm & Hp)].
      * left. exists ((k', vs) :: m1), k2, vs2, m2.
        repeat split; trivial.
        -- intros e [<- | He]; [exact E | now apply Hm1].
        -- simpl. now rewrite Hp.
      * right. split.
        -- intros e [<- | He]; [exact E | now apply Hm].
        -- simpl. now rewrite Hp.
Qed.

Lemma grouped_snoc (k k0 : K) (v0 : V) (kvs : list (K * V)) :
  Spec.grouped same k (kvs ++ [(k0, v0)])
  = Spec.grouped same k kvs ++ (if same k0 k then [v0] else []).
Proof.
  unfold Spec.grouped. rewrite filter_app, map_app. simpl.
  now destruct (same k0 k).
Qed.

(** The state of the keyed store after the pairs [kvs]. *)
Let inv (kvs : list (K * V)) (m : list (K * list V)) : Prop :=
  ForallOrdPairs (fun a b => same a b = false) (map fst m)
  /\ (forall k vs, In (k, vs) m ->
        vs = Spec.grouped same k kvs /\ exists v, In (k, v) kvs)
  /\ (forall kv, In kv kvs -> exists e, In e m /\ same (fst kv) (fst e) = true).

Lemma pairs_snoc (R : K -> K -> Prop) (l : list K) (x : K) :
  ForallOrdPairs R l -> Forall (fun a => R a x) l ->
  ForallOrdPairs R (l ++ [x]).
Proof.
  induction 1 as [|a l Ha Hl IH]; intro Hx; simpl.
  - repeat constructor.
  - inversion Hx; subst. constructor.
    + apply Forall_app. split; trivial. now constructor.
    + now apply IH.
Qed.

Lemma pairs_middle (m1 m2 : list (K * list V)) (k : K) (vs : list V)
    (e : K * list V) :
  ForallOrdPairs (fun a b => same a b = false)
                 (map fst (m1 ++ (k, vs) :: m2)) ->
  In e (m1 ++ m2) -> same k (fst e) = false.
Proof.
  rewrite map_app. simpl map. intro H.
  induction m1 as [|a m1 IH]; simpl in *; intro He.
  - inversion H as [|? ? Hall _]; subst.
    rewrite Forall_forall in Hall. apply Hall. now apply in_map.
  - inversion H as [|? ? Hall Hrest]; subst.
    destruct He as [<- | He].
    + rewrite same_sym. rewrite Forall_forall in Hall. apply Hall.
      apply in_or_app. right. now left.
    + now apply IH.
Qed.

Lemma push_inv (kvs : list (K * V)) (m : list (K * list V)) (k : K) (v : V) :
  inv kvs m -> inv (kvs ++ [(k, v)]) (JS.push same k v m).
Proof.
  intros (Hd & Hs & Hc).
  destruct (push_cases k v m)
    as [(m1 & k' & vs & m2 & -> & Hkk & Hm1 & ->) | (Hm & ->)].
  - assert (Hother : forall e, In e (m1 ++ m2) -> same k (fst e) = false).
    { intros e He. apply in_app_or in He. destruct He as [He | He].
      - now apply Hm1.
      - pose proof (pairs_middle m1 m2 k' vs e Hd
                      (in_or_app _ _ _ (or_intror He))) as Hne.
        destruct (same k (fst e)) eqn:E; trivial.
        rewrite same_sym in Hkk.
        now rewrite (same_trans Hkk E) in Hne. }
    repeat split.
    + now rewrite map_app in *.
    + rewrite grouped_snoc.
      apply in_app_or in H. destruct H as [H | [H | H]].
      * destruct (Hs k0 vs0 (in_or_app _ _ _ (or_introl H))) as [-> _].
        assert (Hf : same k k0 = false)
          by apply (Hother (k0, Spec.grouped same k0 kvs)
                           (in_or_app _ _ _ (or_introl H))).
        now rewrite Hf, app_nil_r.
      * injection H as <- <-.
        destruct (Hs k' vs (in_elt _ _ _))
          as [-> _].
        now rewrite Hkk.
      * destruct (Hs k0 vs0 (in_or_app _ _ _ (or_intror (in_cons _ _ _ H))))
          as [-> _].
        assert (Hf : same k k0 = false)
          by apply (Hother (k0, Spec.grouped same k0 kvs)
                           (in_or_app _ _ _ (or_intror H))).
        now rewrite Hf, app_nil_r.
    + assert (Hin : In (k0, vs0) (m1 ++ (k', vs) :: m2) \/ k0 = k').
      { apply in_app_or in H. destruct H as [H | [H | H]].
        - left. apply in_or_app. now left.
        - injection H as <- _. now right.
        - left. apply in_or_app. right. now right. }
      destruct Hin as [Hin | ->].
      * destruct (Hs _ _ Hin) as [_ [w Hw]]. exists w.
        apply in_or_app. now left.
      * destruct (Hs k' vs (in_elt _ _ _))
          as [_ [w Hw]].
        exists w. apply in_or_app. now left.
    + intros kv Hkv. apply in_app_or in Hkv. destruct Hkv as [Hkv | [<- | []]].
      * destruct (Hc kv Hkv) as (e & He & Hse).
        apply in_app_or in He. destruct He as [He | [<- | He]].
        -- exists e. split; trivial. apply in_or_app. now left.
        -- exists (k', vs ++ [v]). split; trivial.
           apply in_or_app. right. now left.
        -- exists e. split; trivial. apply in_or_app. right. now right.
      * exists (k', vs ++ [v]). split; trivial.
        apply in_or_app. right. now left.
  - repeat split.
    + rewrite map_app. simpl. apply pairs_snoc; trivial.
      apply Forall_forall. intros a Ha. apply in_map_iff in Ha.
      destruct Ha as (e & <- & He). rewrite same_sym. now apply Hm.
    + rewrite grouped_snoc.
      apply in_app_or in H. destruct H as [H | [H | []]].
      * destruct (Hs _ _ H) as [-> _].
        assert (Hf : same k k0 = false) by apply (Hm _ H).
        now rewrite Hf, app_nil_r.
      * injection H as <- <-. rewrite same_refl.
        assert (E : Spec.grouped same k kvs = []).
        { unfold Spec.grouped.
          destruct (filter (fun kv => same (fst kv) k) kvs) as [|kv l] eqn:F;
            trivial.
          assert (Hkv : In kv (filter (fun kv => same (fst kv) k) kvs))
            by (rewrite F; now left).
          apply filter_In in Hkv. destruct Hkv as [Hkv Hsk].
          destruct (Hc kv Hkv) as (e & He & Hse).
          rewrite same_sym in Hsk.
          pose proof (Hm e He) as Hne.
          rewrite (same_trans Hsk Hse) in Hne. discriminate. }
        now rewrite E.
    + apply in_app_or in H. destruct H as [H | [H | []]].
      * destruct (Hs _ _ H) as [_ [w Hw]]. exists w.
        apply in_or_app. now left.
      * injection H as <- _. exists v. apply in_or_app. right. now left.
    + intros kv Hkv. apply in_app_or in Hkv. destruct Hkv as [Hkv | [<- | []]].
      * destruct (Hc kv Hkv) as (e & He & Hse).
        exists e. split; trivial. apply in_or_app. now left.
      * exists (k, [v]). split; [| apply same_refl].
        apply in_or_app. right. now left.
Qed.

Lemma run_inv (kvs : list (K * V)) : inv kvs (run kvs).
Proof.
  induction kvs as [|[k v] kvs IH] using rev_ind.
  - repeat split; simpl; try constructor; intros; contradiction.
  - unfold run. rewrite fold_left_app. simpl. now apply push_inv.
Qed.

(** The keys of the store are pairwise different; each holds the values
    pushed under it, in order, and at least one. *)
Lemma run_groups (kvs : list (K * V)) :
  ForallOrdPairs (fun a b => same a b = false) (map fst (run kvs))
  /\ forall k vs, In (k, vs) (run kvs) ->
       vs = Spec.grouped same k kvs /\ vs <> [] /\ exists v, In (k, v) kvs.
Proof.
  destruct (run_inv kvs) as (Hd & Hs & _). split; trivial.
  intros k vs H. destruct (Hs k vs H) as [-> [w Hw]].
  repeat split; [| now exists w].
  unfold Spec.grouped. intro E.
  assert (Hin : In (k, w) (filter (fun kv => same (fst kv) k) kvs))
    by (apply filter_In; split; [exact Hw | apply same_refl]).
  apply (in_map snd) in Hin. rewrite E in Hin. contradiction.
Qed.
End Grouping.

Lemma pairs_map (A B : Type) (f : A -> B) (R : B -> B -> Prop)
    (S : A -> A -> Prop) (l : list A) :
  (forall a b, In a l -> In b l -> R (f a) (f b) -> S a b) ->
  ForallOrdPairs R (map f l) -> ForallOrdPairs S l.
Proof.
  induction l as [|x l IH]; intros Himp H; simpl in *.
  - constructor.
  - inversion H as [|? ? Hall Hrest]; subst. constructor.
    + apply Forall_forall. intros y Hy. apply Himp; auto.
      rewrite Forall_forall in Hall. apply Hall. now apply in_map.
    + apply IH; trivial. intros a b Ha Hb. apply Himp; auto.
Qed.

Lemma pairs_map_image (A B : Type) (f : A -> B) (S : B -> B -> Prop)
    (l : list A) :
  ForallOrdPairs (fun a b => S (f a) (f b)) l -> ForallOrdPairs S (map f l).
Proof.
  induction 1 as [|x l Hx Hl IH]; simpl; constructor; trivial.
  apply Forall_forall. intros y Hy. apply in_map_iff in Hy.
  destruct Hy as (a & <- & Ha). rewrite Forall_forall in Hx. now apply Hx.
Qed.

Lemma sorted_map (A B : Type) (f : A -> B) (R : B -> B -> Prop) (l : list A) :
  StronglySorted (fun a b => R (f a) (f b)) l -> StronglySorted R (map f l).
Proof.
  induction 1 as [|x l Hs IH Hall]; simpl; constructor; trivial.
  apply Forall_forall. intros y Hy. apply in_map_iff in Hy.
  destruct Hy as (a & <- & Ha). rewrite Forall_forall in Hall. now apply Hall.
Qed.

(** *** The exact-ZIP handler *)

Section ZipTrend.
Import Wire.
Variable ignoreZero : bool.

Let pairs (claims : list Row) : list (Q * Q) :=
  flat_map (fun r => match Spec.zip_kept ignoreZero r with
                     | Some p => [p]
                     | None => []
                     end) claims.

Lemma collect_from (claims : list Row) (st : list Q * list (Q * list Q)) :
  snd (fold_left
         (fun st r =>
            match ZipMetrics.toNum (paid_amt r),
                  ZipMetrics.toNum (dos_year r) with
            | Some amt, Some yr =>
                if ignoreZero && Qle_bool amt 0 then st
                else (fst st ++ [amt], JS.push Qeq_bool yr amt (snd st))
            | _, _ => st
            end) claims st)
  = fold_left (fun m kv => JS.push Qeq_bool (fst kv) (snd kv) m)
              (pairs claims) (snd st).
Proof.
  revert st. induction claims as [|r claims IH]; intro st; simpl.
  - reflexivity.
  - rewrite IH. unfold pairs. simpl. unfold Spec.zip_kept.
    destruct (ZipMetrics.toNum (paid_amt r)) as [amt|];
      destruct (ZipMetrics.toNum (dos_year r)) as [yr|]; simpl; trivial.
    destruct (ignoreZero && Qle_bool amt 0); reflexivity.
Qed.

Lemma collect_as_run (claims : list Row) :
  snd (ZipMetrics.collect ignoreZero claims)
  = fold_left (fun m kv => JS.push Qeq_bool (fst kv) (snd kv) m)
              (pairs claims) [].
Proof. unfold ZipMetrics.collect. now rewrite collect_from. Qed.

Lemma grouped_zip_year (y : Q) (claims : list Row) :
  Spec.grouped Qeq_bool y (pairs claims)
  = Spec.zip_year_amounts ignoreZero y claims.
Proof.
  unfold Spec.grouped, Spec.zip_year_amounts, pairs.
  induction claims as [|r claims IH]; simpl.
  - reflexivity.
  - rewrite filter_app, map_app, IH. f_equal.
    destruct (Spec.zip_kept ignoreZero r) as [[yr amt]|]; simpl; trivial.
    now destruct (Qeq_bool yr y).
Qed.

Lemma zip_trend (claims : list Row) :
  let trend := ZipMetrics.trend_by_year (snd (ZipMetrics.collect ignoreZero claims)) in
  StronglySorted (fun a b => (fst a < fst b)%Q) trend
  /\ forall y m, In (y, m) trend ->
       Spec.zip_year_amounts ignoreZero y claims <> []
       /\ m = ZipMetrics.median64
                (map JS.Fin
                   (JS.sortQ (Spec.zip_year_amounts ignoreZero y claims))).
Proof.
  intro trend. subst trend. rewrite collect_as_run.
  destruct (run_groups Qeq_bool Qeq_bool_refl Qeq_bool_comm Qeq_bool_trans
              (pairs claims)) as [Hd Hs].
  set (m := fold_left _ (pairs claims) []) in *.
  unfold ZipMetrics.trend_by_year. split.
  - set (after := fun a b : Q * list Q => JS.Qafter (fst a) (fst b)).
    assert (S : StronglySorted (fun a b => after b a = true)
                               (JS.sort after m)).
    { apply sort_strict.
      - intros a b c Hab Hbc. unfold after in *.
        apply Qafter_true in Hab, Hbc. apply Qafter_true.
        now apply Qlt_trans with (fst b).
      - apply (@pairs_map (Q * list Q) Q fst
                 (fun a b => Qeq_bool a b = false) _ m); trivial.
        intros a b _ _ Hne. unfold after.
        apply Qeq_bool_neq in Hne.
        destruct (Q_dec (fst a) (fst b)) as [[Hlt | Hgt] | Heq].
        + right. now apply Qafter_true.
        + left. now apply Qafter_true.
        + contradiction. }
    apply (@sorted_map (Q * list Q) (Q * option JS.number)
             (fun ya =>
                (fst ya, ZipMetrics.median64 (map JS.Fin (JS.sortQ (snd ya)))))
             (fun a b => (fst a < fst b)%Q)).
    simpl. revert S. apply StronglySorted_ind; [constructor |].
    intros a l Hs' IH Hall. constructor; trivial.
    rewrite Forall_forall in *. intros b Hb.
    now apply Qafter_true, Hall.
  - intros y md Hin. apply in_map_iff in Hin.
    destruct Hin as ([k vs] & E & Hin). simpl in E. injection E as <- <-.
    apply (sort_in _ m (k, vs)) in Hin.
    destruct (Hs k vs Hin) as (Hvs & Hne & _).
    rewrite grouped_zip_year in Hvs. subst vs. split; trivial.
Qed.
End ZipTrend.

(** *** The cascade handlers *)

Lemma same_key_refl (a : JS.number) : JS.same_key a a = true.
Proof. destruct a; simpl; trivial. apply Qeq_bool_refl. Qed.

Lemma same_key_comm (a b : JS.number) : JS.same_key a b = JS.same_key b a.
Proof. destruct a, b; simpl; trivial. apply Qeq_bool_comm. Qed.

Lemma same_key_trans (a b c : JS.number) :
  JS.same_key a b = true -> JS.same_key b c = true -> JS.same_key a c = true.
Proof.
  destruct a, b, c; simpl; trivial; try discriminate.
  apply Qeq_bool_trans.
Qed.

Lemma gt_trans (a b c : JS.number) :
  JS.gt b a = true -> JS.gt c b = true -> JS.gt c a = true.
Proof.
  unfold JS.gt. destruct a, b, c; simpl; trivial; try discriminate.
  destruct (q0 ?= q)%Q eqn:E1; try discriminate.
  destruct (q1 ?= q0)%Q eqn:E2; try discriminate.
  intros _ _. apply Qgt_alt in E1, E2.
  assert (H : (q < q1)%Q) by (now apply Qlt_trans with q0).
  apply Qgt_alt in H. now rewrite H.
Qed.

Lemma gt_lt (a b : JS.number) : JS.gt b a = JS.lt a b.
Proof.
  unfold JS.gt, JS.lt. destruct a, b; simpl; trivial.
  rewrite <- (Qcompare_antisym q q0). now destruct (q ?= q0)%Q.
Qed.

Lemma keys_apart (a b : JS.number) :
  JS.same_key a b = false -> a <> JS.NaN -> b <> JS.NaN ->
  JS.gt a b = true \/ JS.gt b a = true.
Proof.
  unfold JS.gt. destruct a, b; simpl; intros Hs Ha Hb;
    try congruence; auto.
  rewrite <- (Qcompare_antisym q q0).
  destruct (q ?= q0)%Q eqn:E; simpl; auto.
  apply Qeq_alt in E. apply Qeq_bool_neq in Hs. contradiction.
Qed.

Lemma ge_not_nan (y y0 : JS.number) : JS.ge y y0 = true -> y <> JS.NaN.
Proof. intros H E. subst y. discriminate. Qed.

Lemma gt_finite (a b : Q) : JS.gt (JS.Fin a) (JS.Fin b) = JS.Qafter a b.
Proof.
  unfold JS.gt, JS.Qafter. simpl.
  destruct (Qle_bool a b) eqn:E; simpl.
  - assert (L : (a <= b)%Q) by (now apply Qle_bool_iff).
    pose proof (proj1 (Qle_alt a b) L) as N.
    destruct (a ?= b)%Q; trivial. now elim N.
  - destruct (a ?= b)%Q eqn:C; trivial; exfalso;
      assert (L : (a <= b)%Q)
        by (apply (proj2 (Qle_alt a b)); rewrite C; discriminate);
      apply Qle_bool_iff in L; congruence.
Qed.

(** On finite amounts the two sorts agree. *)
Lemma sortN_finite (l : list Q) :
  JS.sortN (map JS.Fin l) = map JS.Fin (JS.sortQ l).
Proof.
  unfold JS.sortN, JS.sortQ.
  induction l as [|x l IH]; simpl; trivial.
  rewrite IH. generalize (JS.sort JS.Qafter l). intro s.
  induction s as [|y s IHs]; simpl; trivial.
  rewrite gt_finite. destruct (JS.Qafter x y); simpl; trivial.
  now rewrite IHs.
Qed.

Lemma upper_median_finite (qs : list Q) :
  qs <> [] ->
  JS.round_or_zero
    (JS.at_ (JS.sortN (map JS.Fin qs)) (Nat.div (List.length (map JS.Fin qs)) 2))
  = JS.Fin (inject_Z (JS.round
              (nth (Nat.div (List.length qs) 2) (JS.sortQ qs) 0%Q))).
Proof.
  intro H. rewrite sortN_finite, length_map. unfold JS.at_.
  rewrite nth_error_map.
  assert (L : (Nat.div (List.length qs) 2 < List.length (JS.sortQ qs))%nat).
  { rewrite sortQ_length.
    assert (List.length qs <> 0)%nat
      by (intro E; apply H; now apply length_zero_iff_nil).
    apply Nat.div_lt; lia. }
  now rewrite (nth_error_nth' _ 0%Q L).
Qed.

Section CascadeTrend.
Import Wire.
Variables (rows : list Row) (y0 y1 : JS.number).

Let pairs : list (JS.number * JS.number) :=
  map (fun r => (dos_year r, paid_amt r)) (filter (Spec.in_window y0 y1) rows).

Lemma by_year_from (l : list Row) (m : list (JS.number * list JS.number)) :
  fold_left
    (fun m r =>
       let y := dos_year r in
       if JS.ge y y0 && JS.le y y1
       then JS.push JS.same_key y (paid_amt r) m
       else m) l m
  = fold_left (fun m kv => JS.push JS.same_key (fst kv) (snd kv) m)
      (map (fun r => (dos_year r, paid_amt r))
           (filter (Spec.in_window y0 y1) l)) m.
Proof.
  revert m. induction l as [|r l IH]; intro m; simpl.
  - reflexivity.
  - rewrite IH. unfold Spec.in_window at 2.
    now destruct (JS.ge (dos_year r) y0 && JS.le (dos_year r) y1).
Qed.

Lemma by_year_as_run :
  Unfiltered.byYear rows y0 y1
  = fold_left (fun m kv => JS.push JS.same_key (fst kv) (snd kv) m) pairs [].
Proof. unfold Unfiltered.byYear. apply by_year_from. Qed.

Lemma grouped_year (y : JS.number) :
  Spec.grouped JS.same_key y pairs = Spec.year_amounts y0 y1 y rows.
Proof.
  unfold Spec.grouped, Spec.year_amounts, pairs.
  induction rows as [|r l IH]; simpl.
  - reflexivity.
  - destruct (Spec.in_window y0 y1 r); simpl; trivial.
    destruct (JS.same_key (dos_year r) y); simpl; now rewrite IH.
Qed.

Lemma by_year_keys_apart :
  ForallOrdPairs
    (fun a b => JS.gt (year a) (year b) = true \/ JS.gt (year b) (year a) = true)
    (map Unfiltered.year_entry (Unfiltered.byYear rows y0 y1)).
Proof.
  rewrite by_year_as_run.
  destruct (run_groups JS.same_key same_key_refl same_key_comm same_key_trans
              pairs) as [Hd Hs].
  set (m := fold_left _ pairs []) in *.
  apply pairs_map_image.
  apply (@pairs_map (JS.number * list JS.number) JS.number fst
           (fun a b => JS.same_key a b = false) _ m); trivial.
  intros a b Ha Hb Hne. unfold Unfiltered.year_entry. simpl.
  assert (N : forall e, In e m -> fst e <> JS.NaN).
  { intros [k vs] He. destruct (Hs k vs He) as (_ & _ & v & Hv).
    unfold pairs in Hv. apply in_map_iff in Hv.
    destruct Hv as (r & E & Hr). injection E as <- _.
    apply filter_In in Hr. destruct Hr as [_ Hw].
    unfold Spec.in_window in Hw. apply andb_true_iff in Hw.
    simpl. exact (@ge_not_nan (dos_year r) y0 (proj1 Hw)). }
  apply keys_apart; auto.
Qed.

Lemma cascade_trend :
  let trend := Unfiltered.trend (Unfiltered.byYear rows y0 y1) in
  StronglySorted (fun a b => JS.lt (year a) (year b) = true) trend
  /\ forall t, In t trend ->
       let amts := Spec.year_amounts y0 y1 (year t) rows in
       amts <> []
       /\ median_of_year t
          = Unfiltered.dollars
              (JS.at_ (JS.sortN amts) (Nat.div (List.length amts) 2)).
Proof.
  intro trend. subst trend. split.
  - set (after := fun a b : TrendEntry => JS.gt (year a) (year b)).
    assert (S : StronglySorted (fun a b => after b a = true)
                  (Unfiltered.trend (Unfiltered.byYear rows y0 y1))).
    { apply sort_strict.
      - intros a b c. unfold after. apply gt_trans.
      - apply by_year_keys_apart. }
    revert S. generalize (Unfiltered.trend (Unfiltered.byYear rows y0 y1)).
    intros l S. induction S as [|a l _ IH Hall]; constructor; trivial.
    rewrite Forall_forall in *. intros b Hb.
    rewrite <- gt_lt. now apply Hall.
  - rewrite by_year_as_run.
    destruct (run_groups JS.same_key same_key_refl same_key_comm same_key_trans
                pairs) as [_ Hs].
    set (m := fold_left _ pairs []) in *.
    unfold Unfiltered.trend.
    intros t Hin. cbv zeta.
    apply (sort_in _ (map Unfiltered.year_entry m) t) in Hin.
    apply in_map_iff in Hin. destruct Hin as ([k vs] & <- & Hin).
    destruct (Hs k vs Hin) as (Hvs & Hne & _).
    rewrite grouped_year in Hvs.
    unfold Unfiltered.year_entry. cbn [year median_of_year fst snd].
    rewrite <- Hvs. split; trivial.
    unfold JS.sortN. now rewrite sort_length.
Qed.

(** The order in which the keys of [byYear] are listed does not show in
    the trend. *)
Lemma trend_ignores_key_order (listing : list (JS.number * list JS.number)) :
  Permutation (Unfiltered.byYear rows y0 y1) listing ->
  Unfiltered.trend listing
  = Unfiltered.trend (Unfiltered.byYear rows y0 y1).
Proof.
  intro P.
  set (after := fun a b : TrendEntry => JS.gt (year a) (year b)).
  assert (T : forall a b c : TrendEntry,
             after b a = true -> after c b = true -> after c a = true)
    by (intros a b c; unfold after; apply gt_trans).
  pose proof by_year_keys_apart as A1.
  assert (A2 : ForallOrdPairs
                 (fun a b => after a b = true \/ after b a = true)
                 (map Unfiltered.year_entry listing)).
  { apply (@pairs_perm TrendEntry
             (fun a b => after a b = true \/ after b a = true)
             (map Unfiltered.year_entry (Unfiltered.byYear rows y0 y1))).
    - intros a b [H | H]; [now right | now left].
    - now apply Permutation_map.
    - exact A1. }
  apply (@strictly_sorted_unique TrendEntry (fun a b => after b a = true)).
  - intros a H. unfold after, JS.gt in H.
    destruct (year a); simpl in H; try discriminate.
    rewrite (proj1 (Qeq_alt q q) (Qeq_refl q)) in H. discriminate.
  - intros a b c Hab Hbc. now apply (T a b c).
  - now apply sort_strict.
  - now apply sort_strict.
  - unfold Unfiltered.trend.
    eapply perm_trans; [apply sort_perm |].
    eapply perm_trans; [| apply Permutation_sym, sort_perm].
    apply Permutation_map. now apply Permutation_sym.
Qed.
End CascadeTrend.

(** C5 fails as stated: for a year with the two amounts 10 and 20 the
    cascade handlers report the median 20, where the interpolated median,
    the one the exact-ZIP handler reports, is 15. *)
Lemma C5_yearly_median_counterexample :
  let rows := [ {| Wire.paid_amt := JS.Fin 10; Wire.dos_year := JS.Fin 2021 |};
                {| Wire.paid_amt := JS.Fin 20; Wire.dos_year := JS.Fin 2021 |} ] in
  Unfiltered.trend (Unfiltered.byYear rows (JS.Fin 2021) (JS.Fin 2025))
  = [ {| Wire.year := JS.Fin 2021; Wire.median_of_year := JS.Fin 20 |} ]
  /\ Filtered.trend (Filtered.byYear rows (JS.Fin 2021) (JS.Fin 2025))
     = [ {| Wire.year := JS.Fin 2021; Wire.median_of_year := JS.Fin 20 |} ]
  /\ ZipMetrics.trend_by_year (snd (ZipMetrics.collect true rows))
     = [ (2021%Q, Some (JS.Fin 15)) ]
  /\ (Spec.interp [10; 20] (1 # 2) == 15)%Q.
Proof. vm_compute. repeat split; reflexivity. Qed.

(** C5, amended: the trend list is strictly ascending by year and has an
    entry only for a year that has rows.  In the exact-ZIP handler the
    entry's median is the interpolated median [pct(.., 0.5)] of the kept
    amounts of that year alone.  In the cascade handlers, for a year whose
    amounts inside the year window are all finite, it is the rounded
    element at index [k/2] of these [k] amounts, sorted: the rounded upper
    median, with no interpolation. *)
Theorem C5_trend_by_year (rows : list Wire.Row) :
  (forall ignoreZero,
      let trend :=
        ZipMetrics.trend_by_year (snd (ZipMetrics.collect ignoreZero rows)) in
      StronglySorted (fun a b => (fst a < fst b)%Q) trend
      /\ forall y m, In (y, m) trend ->
           Spec.zip_year_amounts ignoreZero y rows <> []
           /\ m = ZipMetrics.median64
                    (map JS.Fin
                       (JS.sortQ (Spec.zip_year_amounts ignoreZero y rows))))
  /\ (forall y0 y1,
      let trend := Unfiltered.trend (Unfiltered.byYear rows y0 y1) in
      Filtered.trend (Filtered.byYear rows y0 y1) = trend
      /\ StronglySorted
           (fun a b => JS.lt (Wire.year a) (Wire.year b) = true) trend
      /\ forall t, In t trend ->
           let amts := Spec.year_amounts y0 y1 (Wire.year t) rows in
           amts <> []
           /\ forall qs, amts = map JS.Fin qs ->
                Wire.median_of_year t
                = JS.Fin (inject_Z (JS.round
                    (nth (Nat.div (List.length qs) 2) (JS.sortQ qs) 0%Q)))).
Proof.
  split.
  - intro ignoreZero. apply zip_trend.
  - intros y0 y1 trend. split; [reflexivity |].
    destruct (cascade_trend rows y0 y1) as [S E]. split; [exact S |].
    intros t Hin amts. destruct (E t Hin) as [Hne Hm].
    fold amts in Hne, Hm. split; trivial.
    intros qs Eq. rewrite Hm, Eq. apply upper_median_finite.
    intro C. subst qs. now apply Hne.
Qed.

(* ================================================================== *)
(** ** Further properties *)

(** *** The row filter of the filtered cascade *)

Lemma lt_finite (a b : Q) : JS.lt (JS.Fin a) (JS.Fin b) = true <-> (a < b)%Q.
Proof.
  unfold JS.lt. simpl. split; intro H.
  - destruct (a ?= b)%Q eqn:E; try discriminate. exact E.
  - unfold Qlt, Qcompare in *. apply Z.compare_lt_iff in H. now rewrite H.
Qed.

Lemma le_finite (a b : Q) : JS.le (JS.Fin a) (JS.Fin b) = true <-> (a <= b)%Q.
Proof.
  unfold JS.le. simpl. split; intro H.
  - apply (proj2 (Qle_alt a b)). destruct (a ?= b)%Q; discriminate.
  - pose proof (proj1 (Qle_alt a b) H) as N.
    destruct (a ?= b)%Q; trivial. now elim N.
Qed.

Lemma lt_finite_false (a b : Q) :
  JS.lt (JS.Fin a) (JS.Fin b) = false <-> (b <= a)%Q.
Proof.
  split; intro H.
  - apply Qnot_lt_le. intro L. apply lt_finite in L. congruence.
  - destruct (JS.lt (JS.Fin a) (JS.Fin b)) eqn:E; trivial.
    apply lt_finite in E. exfalso. now apply (Qlt_not_le a b).
Qed.

(** Under the stricter of two floors a finite amount falls exactly when it
    falls under one of them. *)
Lemma below_stricter (v : Q) (a b : JS.number) :
  JS.lt (JS.Fin v) (Notions.stricter a b)
  = JS.lt (JS.Fin v) a || JS.lt (JS.Fin v) b.
Proof.
  destruct a as [x| | |], b as [y| | |]; simpl; trivial;
    try (now rewrite orb_false_r); try (now rewrite orb_true_r);
    try (destruct (JS.lt (JS.Fin v) (JS.Fin _)); reflexivity).
  destruct (JS.lt (JS.Fin x) (JS.Fin y)) eqn:E.
  - apply lt_finite in E.
    destruct (JS.lt (JS.Fin v) (JS.Fin x)) eqn:F; simpl; trivial.
    apply lt_finite in F. apply lt_finite. lra.
  - apply lt_finite_false in E.
    destruct (JS.lt (JS.Fin v) (JS.Fin y)) eqn:F.
    + apply lt_finite in F. rewrite orb_true_r. apply lt_finite. lra.
    + now rewrite orb_false_r.
Qed.

Lemma keep_row_both (e1 e2 : bool) (m1 m2 : JS.number) (r : Wire.Row) :
  Filtered.keep_row e1 m1 r && Filtered.keep_row e2 m2 r
  = Filtered.keep_row (e1 || e2) (Notions.stricter m1 m2) r.
Proof.
  unfold Filtered.keep_row. cbv zeta.
  destruct (Wire.paid_amt r) as [v| | |]; simpl; trivial.
  rewrite below_stricter.
  destruct e1, e2, (JS.le (JS.Fin v) (JS.Fin 0)),
    (JS.lt (JS.Fin v) m1), (JS.lt (JS.Fin v) m2); reflexivity.
Qed.

Lemma filter_filter (A : Type) (f g : A -> bool) (l : list A) :
  filter f (filter g l) = filter (fun x => g x && f x) l.
Proof.
  induction l as [|x l IH]; simpl; trivial.
  destruct (g x); simpl; [destruct (f x) |]; now rewrite IH.
Qed.

Lemma filter_length_le (A : Type) (f : A -> bool) (l : list A) :
  (List.length (filter f l) <= List.length l)%nat.
Proof.
  induction l as [|x l IH]; simpl; trivial. destruct (f x); simpl; lia.
Qed.

Lemma stricter_same (m : JS.number) : Notions.stricter m m = m.
Proof.
  destruct m; simpl; trivial. now destruct (JS.lt (JS.Fin q) (JS.Fin q)).
Qed.

(** X1 ([filterRows], src/unnamed/part_001).  Turning [exclude_zero] on
    never adds a row: what is kept with the flag is what is kept without
    it, less the amounts that are zero or negative, in the same order; so
    the sample never grows.  This holds for every [min_paid], also [NaN]. *)
Theorem filterRows_exclude_zero_only_removes (rows : list Wire.Row)
    (minPaid : JS.number) :
  Filtered.filterRows rows true minPaid
  = filter (fun r => negb (JS.le (Wire.paid_amt r) (JS.Fin 0)))
           (Filtered.filterRows rows false minPaid)
  /\ (List.length (Filtered.filterRows rows true minPaid)
      <= List.length (Filtered.filterRows rows false minPaid))%nat
  /\ forall r, In r (Filtered.filterRows rows true minPaid) ->
       In r (Filtered.filterRows rows false minPaid)
       /\ exists v, Wire.paid_amt r = JS.Fin v /\ (0 < v)%Q.
Proof.
  assert (E : Filtered.filterRows rows true minPaid
              = filter (fun r => negb (JS.le (Wire.paid_amt r) (JS.Fin 0)))
                       (Filtered.filterRows rows false minPaid)).
  { unfold Filtered.filterRows. rewrite filter_filter.
    apply filter_ext. intro r. unfold Filtered.keep_row. cbv zeta.
    destruct (Wire.paid_amt r) as [v| | |]; simpl; trivial.
    destruct (JS.le (JS.Fin v) (JS.Fin 0)), (JS.lt (JS.Fin v) minPaid);
      reflexivity. }
  split; [exact E |]. split.
  - rewrite E. apply filter_length_le.
  - intros r H. rewrite E in H. apply filter_In in H. destruct H as [H P].
    split; trivial.
    unfold Filtered.filterRows in H. apply filter_In in H.
    destruct H as [_ K]. apply keep_row_finite in K.
    destruct (Wire.paid_amt r) as [v| | |]; try discriminate.
    exists v. split; trivial.
    apply negb_true_iff in P. apply Qnot_le_lt. intro L.
    apply le_finite in L. congruence.
Qed.

(** X2 ([filterRows], src/unnamed/part_001).  Filtering twice is filtering
    once: with either flag set and under the stricter of the two floors.
    So filtering again with the same options changes nothing, and every
    kept row is finite and not below a finite floor. *)
Theorem filterRows_composes (rows : list Wire.Row) (e1 e2 : bool)
    (m1 m2 : JS.number) :
  Filtered.filterRows (Filtered.filterRows rows e1 m1) e2 m2
  = Filtered.filterRows rows (e1 || e2) (Notions.stricter m1 m2)
  /\ Filtered.filterRows (Filtered.filterRows rows e1 m1) e1 m1
     = Filtered.filterRows rows e1 m1
  /\ forall r, In r (Filtered.filterRows rows e1 m1) ->
       exists v, Wire.paid_amt r = JS.Fin v
                 /\ forall f, m1 = JS.Fin f -> (f <= v)%Q.
Proof.
  assert (E : forall a b x y,
             Filtered.filterRows (Filtered.filterRows rows a x) b y
             = Filtered.filterRows rows (a || b) (Notions.stricter x y)).
  { intros a b x y. unfold Filtered.filterRows. rewrite filter_filter.
    apply filter_ext. intro r. apply keep_row_both. }
  split; [apply E |]. split.
  - rewrite E, stricter_same. now destruct e1.
  - intros r H. unfold Filtered.filterRows in H. apply filter_In in H.
    destruct H as [_ K]. unfold Filtered.keep_row in K. cbv zeta in K.
    destruct (Wire.paid_amt r) as [v| | |]; try discriminate.
    exists v. split; trivial. intros f ->. simpl in K.
    destruct (e1 && JS.le (JS.Fin v) (JS.Fin 0)); try discriminate.
    destruct (JS.lt (JS.Fin v) (JS.Fin f)) eqn:L; try discriminate.
    now apply lt_finite_false.
Qed.

(** *** The statistics do not depend on the order of the rows *)

Lemma Qafter_comp (x x' y y' : Q) :
  (x == x')%Q -> (y == y')%Q -> JS.Qafter x y = JS.Qafter x' y'.
Proof.
  intros Hx Hy. destruct (JS.Qafter x y) eqn:E; symmetry.
  - apply Qafter_true. apply Qafter_true in E. now rewrite <- Hx, <- Hy.
  - apply Qafter_false. apply Qafter_false in E. now rewrite <- Hx, <- Hy.
Qed.

Lemma pointwise_refl (l : list Q) : Forall2 Qeq l l.
Proof. induction l; constructor; trivial. reflexivity. Qed.

Lemma pointwise_sym (l l' : list Q) : Forall2 Qeq l l' -> Forall2 Qeq l' l.
Proof. induction 1; constructor; trivial. now symmetry. Qed.

Lemma pointwise_trans (l1 l2 l3 : list Q) :
  Forall2 Qeq l1 l2 -> Forall2 Qeq l2 l3 -> Forall2 Qeq l1 l3.
Proof.
  intro H. revert l3. induction H as [|a b l1 l2 Hab H IH]; intros l3 H3;
    inversion H3; subst; constructor; auto.
  now transitivity b.
Qed.

Lemma insert_pointwise (x x' : Q) (s s' : list Q) :
  (x == x')%Q -> Forall2 Qeq s s' ->
  Forall2 Qeq (JS.insert JS.Qafter x s) (JS.insert JS.Qafter x' s').
Proof.
  intros Hx H. induction H as [|a b s s' Hab H IH]; simpl.
  - constructor; trivial.
  - rewrite (Qafter_comp Hx Hab).
    destruct (JS.Qafter x' b); repeat constructor; trivial.
Qed.

(** Two insertions commute, up to the representation of equal amounts. *)
Lemma insert_insert (x y : Q) (s : list Q) :
  Forall2 Qeq (JS.insert JS.Qafter x (JS.insert JS.Qafter y s))
              (JS.insert JS.Qafter y (JS.insert JS.Qafter x s)).
Proof.
  induction s as [|z s IH]; simpl.
  - destruct (JS.Qafter x y) eqn:Exy, (JS.Qafter y x) eqn:Eyx;
      try apply pointwise_refl.
    + apply Qafter_true in Exy, Eyx. lra.
    + apply Qafter_false in Exy, Eyx.
      assert (x == y)%Q by lra.
      repeat constructor; trivial. now symmetry.
  - destruct (JS.Qafter y z) eqn:Eyz, (JS.Qafter x z) eqn:Exz;
      cbn [JS.insert]; rewrite ?Eyz, ?Exz.
    + constructor; [reflexivity | exact IH].
    + assert (Eyx : JS.Qafter y x = true).
      { apply Qafter_true. apply Qafter_true in Eyz.
        apply Qafter_false in Exz. lra. }
      rewrite Eyx. cbn [JS.insert]. rewrite ?Eyz. apply pointwise_refl.
    + assert (Exy : JS.Qafter x y = true).
      { apply Qafter_true. apply Qafter_true in Exz.
        apply Qafter_false in Eyz. lra. }
      rewrite Exy. cbn [JS.insert]. rewrite ?Exz. apply pointwise_refl.
    + destruct (JS.Qafter x y) eqn:Exy, (JS.Qafter y x) eqn:Eyx;
        cbn [JS.insert]; rewrite ?Eyz, ?Exz; try apply pointwise_refl.
      * apply Qafter_true in Exy, Eyx. lra.
      * apply Qafter_false in Exy, Eyx.
        assert (x == y)%Q by lra.
        constructor; trivial. constructor; [now symmetry |].
        apply pointwise_refl.
Qed.

Lemma sortQ_pointwise (l l' : list Q) :
  Permutation l l' -> Forall2 Qeq (JS.sortQ l) (JS.sortQ l').
Proof.
  unfold JS.sortQ, JS.sort.
  induction 1 as [| x l l' P IH | x y l | l1 l2 l3 P1 IH1 P2 IH2]; simpl.
  - constructor.
  - apply insert_pointwise; [reflexivity | exact IH].
  - apply insert_insert.
  - now apply pointwise_trans with (fold_right (JS.insert JS.Qafter) [] l2).
Qed.

Lemma pointwise_length (l l' : list Q) :
  Forall2 Qeq l l' -> List.length l = List.length l'.
Proof. induction 1; simpl; congruence. Qed.

Lemma pointwise_nth (l l' : list Q) (i : nat) :
  Forall2 Qeq l l' -> (nth i l 0 == nth i l' 0)%Q.
Proof.
  intro H. revert i. induction H; intros [|i]; simpl; trivial; reflexivity.
Qed.

Lemma round_comp (a b : Q) : (a == b)%Q -> JS.round a = JS.round b.
Proof. intro H. unfold JS.round. apply Qfloor_comp. now rewrite H. Qed.

Lemma finite_only_perm (l l' : list JS.number) :
  Permutation l l' -> Permutation (JS.finite_only l) (JS.finite_only l').
Proof.
  induction 1 as [| x l l' P IH | x y l | l1 l2 l3 P1 IH1 P2 IH2]; simpl.
  - constructor.
  - destruct x; trivial. now constructor.
  - destruct x, y; try apply Permutation_refl. constructor.
  - now apply perm_trans with (JS.finite_only l2).
Qed.

(** X3 ([summarize], src/unnamed/part_000 and part_001).  Reordering the
    rows changes none of the reported sample size, mean, median, p25 and
    p75, in either cascade handler; and a reordering of rows that
    summarize to [null] summarizes to [null]. *)
Theorem summarize_ignores_row_order (rows rows' : list Wire.Row)
    (m : Wire.Meta) (zip : string) (y0 y1 : JS.number) (lvl : string) :
  Permutation rows rows' ->
  let stats (o : option Wire.Envelope) :=
    match o with
    | Some e =>
        Some (Wire.sample_size (Wire.used_scope e),
              option_map (fun t => (Wire.mean t, Wire.median t,
                                    Wire.p25 t, Wire.p75 t))
                         (Wire.metrics e))
    | None => None
    end in
  stats (Unfiltered.summarize rows m zip y0 y1 lvl)
  = stats (Unfiltered.summarize rows' m zip y0 y1 lvl)
  /\ stats (Filtered.summarize rows m zip y0 y1 lvl)
     = stats (Filtered.summarize rows' m zip y0 y1 lvl).
Proof.
  intros P stats.
  assert (PA : Permutation (JS.finite_only (map Wire.paid_amt rows))
                           (JS.finite_only (map Wire.paid_amt rows')))
    by (apply finite_only_perm; now apply Permutation_map).
  pose proof (sortQ_pointwise PA) as S.
  pose proof (pointwise_length S) as L.
  pose proof (Permutation_length P) as LR.
  assert (D : JS.finite_only (map Wire.paid_amt rows) = []
              \/ JS.finite_only (map Wire.paid_amt rows) <> [])
    by (destruct (JS.finite_only (map Wire.paid_amt rows));
        [now left | right; discriminate]).
  destruct D as [E | N].
  - assert (E' : JS.finite_only (map Wire.paid_amt rows') = [])
      by (rewrite E in PA; now apply Permutation_nil).
    rewrite (unfiltered_summarize_none rows m zip y0 y1 lvl E).
    rewrite (unfiltered_summarize_none rows' m zip y0 y1 lvl E').
    unfold Filtered.summarize. rewrite E, E'. simpl. split; reflexivity.
  - assert (N' : JS.finite_only (map Wire.paid_amt rows') <> []).
    { intro C. rewrite C in PA. apply Permutation_sym in PA.
      apply Permutation_nil in PA. contradiction. }
    rewrite (unfiltered_summarize rows m zip y0 y1 lvl N).
    rewrite (unfiltered_summarize rows' m zip y0 y1 lvl N').
    rewrite (filtered_summarize rows m zip y0 y1 lvl N).
    rewrite (filtered_summarize rows' m zip y0 y1 lvl N').
    rewrite !dollars_at_false.
    set (v := JS.sortQ (JS.finite_only (map Wire.paid_amt rows))) in *.
    set (v' := JS.sortQ (JS.finite_only (map Wire.paid_amt rows'))) in *.
    assert (I : forall p, Unfiltered.idx v p = Unfiltered.idx v' p)
      by (intro p; unfold Unfiltered.idx; now rewrite L).
    assert (M : JS.div (JS.sum (map JS.Fin v)) (JS.size v)
                = JS.div (JS.sum (map JS.Fin v')) (JS.size v'))
      by (unfold JS.size; now rewrite (sum_comp S), L).
    assert (R : forall i, JS.round (nth i v 0) = JS.round (nth i v' 0))
      by (intro i; apply round_comp; now apply pointwise_nth).
    unfold stats.
    cbn [Wire.sample_size Wire.used_scope Wire.metrics option_map
         Wire.mean Wire.median Wire.p25 Wire.p75].
    rewrite LR, M, !I, L, !R. split; reflexivity.
Qed.

(** A store of twelve rows and the same rows with the first two swapped. *)
Lemma summarize_ignores_row_order_witness :
  let row a := {| Wire.paid_amt := JS.Fin a; Wire.dos_year := JS.Fin 2022 |} in
  let stats (o : option Wire.Envelope) :=
    match o with
    | Some e =>
        Some (Wire.sample_size (Wire.used_scope e),
              option_map (fun t => (Wire.mean t, Wire.median t,
                                    Wire.p25 t, Wire.p75 t))
                         (Wire.metrics e))
    | None => None
    end in
  Permutation [row 30; row 10; row 20] [row 10; row 30; row 20]
  /\ stats (Unfiltered.summarize [row 30; row 10; row 20] Wire.no_meta
              "10001" (JS.Fin 2021) (JS.Fin 2025) "zip")
     = stats (Unfiltered.summarize [row 10; row 30; row 20] Wire.no_meta
                "10001" (JS.Fin 2021) (JS.Fin 2025) "zip").
Proof.
  intros row stats.
  assert (P : Permutation [row 30; row 10; row 20] [row 10; row 30; row 20])
    by apply perm_swap.
  split; [exact P |].
  exact (proj1 (@summarize_ignores_row_order _ _ Wire.no_meta "10001"
                  (JS.Fin 2021) (JS.Fin 2025) "zip" P)).
Defined.

(** *** Order of the reported statistics *)

Lemma round_integer (z : Z) : JS.round (inject_Z z) = z.
Proof.
  unfold JS.round.
  destruct (floor_bounds (inject_Z z + (1 # 2))) as [L U].
  assert (A : (z <= Qfloor (inject_Z z + (1 # 2)))%Z).
  { apply Z.lt_succ_r. rewrite Zlt_Qlt. unfold Z.succ.
    rewrite inject_Z_plus. change (inject_Z 1) with 1%Q. lra. }
  assert (B : (Qfloor (inject_Z z + (1 # 2)) < z + 1)%Z).
  { rewrite Zlt_Qlt. rewrite inject_Z_plus.
    change (inject_Z 1) with 1%Q. lra. }
  lia.
Qed.

Lemma round_or_zero_nonneg (a : JS.number) :
  JS.ge a (JS.Fin 0) = true ->
  JS.ge (JS.round_or_zero (Some a)) (JS.Fin 0) = true.
Proof.
  destruct a as [q| | |]; simpl; trivial. intro H.
  pose proof (ge_zero q H) as Q0.
  pose proof (round_mono Q0) as R. change (JS.round 0) with 0%Z in R.
  unfold JS.ge, JS.compare.
  assert (I : (0 <= inject_Z (JS.round q))%Q)
    by (change 0%Q with (inject_Z 0); now rewrite <- Zle_Qle).
  pose proof (proj1 (Qle_alt 0 _) I) as C.
  rewrite <- (Qcompare_antisym (inject_Z (JS.round q)) 0) in C.
  destruct (inject_Z (JS.round q) ?= 0)%Q; trivial. now elim C.
Qed.

(** X4 ([summarize], src/unnamed/part_000 and part_001).  Whenever some
    amount is finite, the reported quartiles are integers ordered as
    rounded minimum <= p25 <= median <= p75 <= rounded maximum.  The two
    cascade handlers agree on mean, median and p25; the filtered one
    reports the rounded maximum as p75.  The mean is not negative when no
    amount is; it is the rounding of a binary64 average and is not always
    between the rounded minimum and the rounded maximum. *)
Theorem summarize_statistics_are_ordered (rows : list Wire.Row)
    (m : Wire.Meta) (zip : string) (y0 y1 : JS.number) (lvl : string) :
  let amounts := JS.finite_only (map Wire.paid_amt rows) in
  amounts <> [] ->
  exists e f mu mf lo hi a b c,
    Unfiltered.summarize rows m zip y0 y1 lvl = Some e
    /\ Filtered.summarize rows m zip y0 y1 lvl = Some f
    /\ Wire.metrics e = Some mu /\ Wire.metrics f = Some mf
    /\ In lo amounts /\ In hi amounts
    /\ (forall v, In v amounts -> (lo <= v)%Q /\ (v <= hi)%Q)
    /\ Wire.p25 mu = JS.Fin (inject_Z a)
    /\ Wire.median mu = JS.Fin (inject_Z b)
    /\ Wire.p75 mu = JS.Fin (inject_Z c)
    /\ Wire.p25 mf = Wire.p25 mu
    /\ Wire.median mf = Wire.median mu
    /\ Wire.mean mf = Wire.mean mu
    /\ Wire.p75 mf = JS.Fin (inject_Z (JS.round hi))
    /\ (JS.round lo <= a)%Z /\ (a <= b)%Z /\ (b <= c)%Z
    /\ (c <= JS.round hi)%Z
    /\ ((0 <= lo)%Q -> JS.ge (Wire.mean mu) (JS.Fin 0) = true).
Proof.
  intros amounts N.
  rewrite (unfiltered_summarize rows m zip y0 y1 lvl N).
  rewrite (filtered_summarize rows m zip y0 y1 lvl N).
  rewrite dollars_at_false.
  fold amounts.
  set (vals := JS.sortQ amounts).
  pose proof (sortQ_sorted amounts) as S. fold vals in S.
  pose proof (sortQ_length amounts) as L. fold vals in L.
  assert (NV : vals <> [])
    by (intro C; apply N; apply length_zero_iff_nil;
        rewrite <- L, C; reflexivity).
  assert (P : (0 < List.length vals)%nat)
    by (destruct vals; [contradiction | simpl; lia]).
  set (n := List.length vals) in *.
  destruct (idx_quartiles NV) as [Q1 Q3]. cbv zeta in Q1, Q3. fold n in Q1, Q3.
  pose proof (idx_range 25 NV) as R1. pose proof (idx_range 75 NV) as R3.
  fold n in R1, R3.
  assert (H2 : (Z.of_nat (n / 2) = Z.of_nat n / 2)%Z)
    by (rewrite Nat2Z.inj_div; reflexivity).
  assert (D2 : (n / 2 < n)%nat) by (apply Nat.div_lt; lia).
  assert (I1 : (Z.to_nat (Unfiltered.idx vals 25) <= n / 2)%nat).
  { apply Nat2Z.inj_le. rewrite Z2Nat.id by lia. rewrite H2, Q1.
    assert (Z.of_nat n / 4 <= Z.of_nat n / 2)%Z
      by (apply Z.div_le_compat_l; lia).
    lia. }
  assert (I3 : (n / 2 <= Z.to_nat (Unfiltered.idx vals 75))%nat).
  { apply Nat2Z.inj_le. rewrite Z2Nat.id by lia. rewrite H2, Q3.
    assert (Z.of_nat n / 2 <= 3 * Z.of_nat n / 4)%Z.
    { apply Z.div_le_lower_bound; [lia |].
      pose proof (Z.mul_div_le (3 * Z.of_nat n) 4).
      pose proof (Z.mod_pos_bound (3 * Z.of_nat n) 4).
      pose proof (Z.div_mod (3 * Z.of_nat n) 4).
      pose proof (Z.div_mod (Z.of_nat n) 2).
      pose proof (Z.mod_pos_bound (Z.of_nat n) 2). lia. }
    apply Z.min_glb; [| exact H].
    apply Nat2Z.inj_lt in D2. lia. }
  assert (I4 : (Z.to_nat (Unfiltered.idx vals 75) < n)%nat).
  { apply Nat2Z.inj_lt. rewrite Z2Nat.id by lia. lia. }
  set (i1 := Z.to_nat (Unfiltered.idx vals 25)) in *.
  set (i3 := Z.to_nat (Unfiltered.idx vals 75)) in *.
  assert (In0 : In (nth 0 vals 0%Q) amounts)
    by (apply (Permutation_in _ (sortQ_perm amounts)); fold vals;
        apply nth_In; exact P).
  assert (In1 : In (nth (n - 1) vals 0%Q) amounts)
    by (apply (Permutation_in _ (sortQ_perm amounts)); fold vals;
        apply nth_In; fold n; lia).
  assert (B : forall v, In v amounts ->
            (nth 0 vals 0 <= v)%Q /\ (v <= nth (n - 1) vals 0)%Q).
  { intros v Hv. apply (sorted_ends S NV).
    apply (Permutation_in _ (Permutation_sym (sortQ_perm amounts))).
    exact Hv. }
  eexists _, _, _, _, (nth 0 vals 0%Q), (nth (n - 1) vals 0%Q),
    _, _, _.
  split; [reflexivity |]. split; [reflexivity |].
  cbn [Wire.metrics Wire.p25 Wire.median Wire.p75 Wire.mean].
  split; [reflexivity |]. split; [reflexivity |].
  split; [exact In0 |]. split; [exact In1 |]. split; [exact B |].
  split; [reflexivity |]. split; [reflexivity |].
  split; [reflexivity |].
  split; [reflexivity |]. split; [reflexivity |].
  split; [reflexivity |]. split; [reflexivity |].
  split; [apply round_mono, (sorted_nth_le S); fold n; lia |].
  split; [apply round_mono, (sorted_nth_le S); fold n; lia |].
  split; [apply round_mono, (sorted_nth_le S); fold n; lia |].
  split; [apply round_mono, (sorted_nth_le S); fold n; lia |].
  intro Lo. apply round_or_zero_nonneg.
  apply div_size_nonneg; trivial. apply sum_nonneg.
  apply Forall_forall. intros x Hx.
  assert (In x amounts)
    by (apply (Permutation_in _ (sortQ_perm amounts)); exact Hx).
  destruct (B x H) as [Bx _]. lra.
Qed.

(** Five rows, one of them without a finite amount. *)
Lemma summarize_statistics_are_ordered_witness :
  let row a := {| Wire.paid_amt := a; Wire.dos_year := JS.Fin 2022 |} in
  let rows := [row (JS.Fin 30); row JS.NaN; row (JS.Fin 10);
               row (JS.Fin (41 # 2)); row (JS.Fin 7)] in
  JS.finite_only (map Wire.paid_amt rows) <> []
  /\ exists e f mu mf lo hi a b c,
    Unfiltered.summarize rows Wire.no_meta "10001" (JS.Fin 2021)
      (JS.Fin 2025) "zip" = Some e
    /\ Filtered.summarize rows Wire.no_meta "10001" (JS.Fin 2021)
         (JS.Fin 2025) "zip" = Some f
    /\ Wire.metrics e = Some mu /\ Wire.metrics f = Some mf
    /\ In lo (JS.finite_only (map Wire.paid_amt rows))
    /\ In hi (JS.finite_only (map Wire.paid_amt rows))
    /\ (forall v, In v (JS.finite_only (map Wire.paid_amt rows)) ->
          (lo <= v)%Q /\ (v <= hi)%Q)
    /\ Wire.p25 mu = JS.Fin (inject_Z a)
    /\ Wire.median mu = JS.Fin (inject_Z b)
    /\ Wire.p75 mu = JS.Fin (inject_Z c)
    /\ Wire.p25 mf = Wire.p25 mu
    /\ Wire.median mf = Wire.median mu
    /\ Wire.mean mf = Wire.mean mu
    /\ Wire.p75 mf = JS.Fin (inject_Z (JS.round hi))
    /\ (JS.round lo <= a)%Z /\ (a <= b)%Z /\ (b <= c)%Z
    /\ (c <= JS.round hi)%Z
    /\ ((0 <= lo)%Q -> JS.ge (Wire.mean mu) (JS.Fin 0) = true).
Proof.
  intros row rows.
  assert (N : JS.finite_only (map Wire.paid_amt rows) <> [])
    by (vm_compute; discriminate).
  split; [exact N |].
  exact (@summarize_statistics_are_ordered rows Wire.no_meta "10001"
           (JS.Fin 2021) (JS.Fin 2025) "zip" N).
Defined.

(** Nineteen amounts of 4000000000000200 are reported with a mean above
    their maximum: the sum is rounded to 76000000000003808, and the
    quotient 4000000000000200.5 goes up. *)
Example mean_above_the_maximum :
  let row := {| Wire.paid_amt := JS.Fin 4000000000000200;
                Wire.dos_year := JS.Fin 2022 |} in
  option_map Wire.mean
    (match Unfiltered.summarize (repeat row 19) Wire.no_meta "10001"
             (JS.Fin 2021) (JS.Fin 2025) "zip" with
     | Some e => Wire.metrics e
     | None => None
     end)
  = Some (JS.Fin 4000000000000201).
Proof. vm_compute. reflexivity. Qed.

(** *** [dollars] *)

(** X5 ([dollars], src/unnamed/part_000 and part_001).  [dollars] never
    yields [NaN]: an absent value and [NaN] give 0.  A finite amount gives
    an integer no further than 1/2 from it, an integer gives itself, and a
    larger amount never gives a smaller result. *)
Theorem dollars_is_total_and_nearest (q : Q) :
  (forall n, Unfiltered.dollars n <> JS.NaN
             /\ Filtered.dollars n = Unfiltered.dollars n)
  /\ Unfiltered.dollars None = JS.Fin 0
  /\ Unfiltered.dollars (Some JS.NaN) = JS.Fin 0
  /\ Unfiltered.dollars (Some (JS.Fin q)) = JS.Fin (inject_Z (JS.round q))
  /\ (q - (1 # 2) < inject_Z (JS.round q))%Q
  /\ (inject_Z (JS.round q) <= q + (1 # 2))%Q
  /\ (forall z, JS.round (inject_Z z) = z)
  /\ (forall q', (q <= q')%Q -> (JS.round q <= JS.round q')%Z).
Proof.
  split; [| repeat split; try apply round_nearest].
  - intro n. split; [| reflexivity].
    destruct n as [[x| | |]|]; discriminate.
  - apply round_integer.
  - intros q'. apply round_mono.
Qed.

(** *** [pct], [median] and [mean] of the exact-ZIP handler *)




(** X6 ([pct], src/unnamed/part_002; the same function in
    src/pages/api/claim-metrics.ts and in the second document of
    src/unnamed/part_001).  On a non-empty array (of fewer than [2^32]
    elements, as every array) [pct] always yields a value, for every
    [p]: a [p] at or below 0 gives the first element, a
    [p] at or above 1 the last, a [p] that is [NaN] gives [NaN], and an
    array of one element gives that element for every other [p].  On an
    empty array it yields [null].  Between 0 and 1 the value is computed
    in binary64; it is not always between the smallest and the largest
    element. *)
Theorem pct_clamps_and_always_answers (s : list JS.number) (p : JS.number) :
  s <> [] -> (Z.of_nat (List.length s) < 2 ^ 32)%Z ->
  (exists v, ZipMetrics.pct64 s p = Some v)
  /\ (JS.le p (JS.Fin 0) = true ->
      ZipMetrics.pct64 s p = Some (nth 0 s JS.NaN))
  /\ (JS.ge p (JS.Fin 1) = true ->
      ZipMetrics.pct64 s p = Some (nth (List.length s - 1) s JS.NaN))
  /\ (p = JS.NaN -> ZipMetrics.pct64 s p = Some JS.NaN)
  /\ (List.length s = 1%nat -> p <> JS.NaN ->
      ZipMetrics.pct64 s p = Some (nth 0 s JS.NaN))
  /\ ZipMetrics.pct64 [] p = None.
Proof.
  intros N B.
  assert (B53 : (Z.of_nat (List.length s) <= 2 ^ 53)%Z).
  { apply Z.le_trans with (2 ^ 32)%Z; [lia |]. intro C. discriminate C. }
  assert (G : JS.ge p (JS.Fin 1) = true -> JS.le p (JS.Fin 0) = false).
  { destruct p as [q| | |]; try (intro C; discriminate C); trivial.
    intro H. apply le_false.
    assert (1 <= q)%Q; [| lra].
    unfold JS.ge, JS.compare in H.
    apply (proj2 (Qle_alt 1 q)). rewrite <- (Qcompare_antisym q 1).
    destruct (q ?= 1)%Q; simpl; discriminate. }
  split; [now apply pct64_total |].
  split; [now apply pct64_low |].
  split; [intro H; apply pct64_high; auto |].
  split.
  { intros ->. rewrite (pct64_unfold N). reflexivity. }
  split; [| reflexivity].
  intros L1 NN.
  destruct (JS.le p (JS.Fin 0)) eqn:L; [now apply pct64_low |].
  destruct (JS.ge p (JS.Fin 1)) eqn:H.
  { rewrite (pct64_high N p L H). now rewrite L1. }
  rewrite (pct64_unfold N), L, H, L1.
  destruct p as [q| | |]; try discriminate; [| contradiction].
  cbn [JS.mul].
  assert (E : (inject_Z (Z.of_nat 1 - 1) * q == 0)%Q)
    by (change (inject_Z (Z.of_nat 1 - 1)) with 0%Q; ring).
  rewrite (fl_zero E).
  change (Qfloor 0 =? Qceiling 0)%Z with true. cbv iota.
  change (Qfloor 0) with 0%Z. apply atN_nth. lia.
Qed.

(** Three amounts and a [p] above 1. *)
Lemma pct_clamps_and_always_answers_witness :
  let s := [JS.Fin 10; JS.Fin 20; JS.Fin 40] in
  s <> []
  /\ (Z.of_nat (List.length s) < 2 ^ 32)%Z
  /\ JS.ge (JS.Fin (3 # 2)) (JS.Fin 1) = true
  /\ ZipMetrics.pct64 s (JS.Fin (3 # 2)) = Some (JS.Fin 40).
Proof.
  intro s.
  assert (N : s <> []) by discriminate.
  assert (B : (Z.of_nat (List.length s) < 2 ^ 32)%Z) by reflexivity.
  assert (G : JS.ge (JS.Fin (3 # 2)) (JS.Fin 1) = true) by reflexivity.
  split; [exact N |]. split; [exact B |]. split; [exact G |].
  exact (proj1 (proj2 (proj2
    (@pct_clamps_and_always_answers s (JS.Fin (3 # 2)) N B))) G).
Defined.




(** *** The cascade handlers over an arbitrary store *)

Section Runs.
Import Wire Db.
Variable c : Client.

Lemma returns_ret (A : Type) (P : A -> Prop) (a : A) :
  P a -> Notions.returns P (ret a).
Proof. intros H log. exact H. Qed.

Lemma returns_bind (A B : Type) (Q : A -> Prop) (P : B -> Prop)
    (m : M A) (k : A -> M B) :
  Notions.returns Q m -> (forall a, Q a -> Notions.returns P (k a)) ->
  Notions.returns P (bind m k).
Proof.
  intros Hm Hk log. unfold bind. specialize (Hm log).
  destruct (m log) as [log' [e | a]]; simpl in *; trivial.
  now apply Hk.
Qed.

Lemma returns_any (A : Type) (m : M A) : Notions.returns (fun _ => True) m.
Proof. intro log. now destruct (snd (m log)). Qed.

(** What [runQuery] hands back is [null] or an accepted envelope. *)
Lemma runQuery_returns (req : Request) (q : ClaimsQuery) (s : Spec.Scope)
    (mt : Meta) :
  Notions.returns
    (fun o => match o with
              | Some e => Notions.accepted req e
              | None => True
              end)
    (Filtered.runQuery c req q (Spec.label s) mt).
Proof.
  unfold Filtered.runQuery.
  apply returns_bind with (Q := fun _ => True); [apply returns_any |].
  intros rows _. cbv zeta.
  destruct (MIN_N <=? List.length
              (Filtered.filterRows rows (exclude_zero req) (min_paid req)))
    eqn:G.
  - destruct (filtered_accept rows (exclude_zero req) (min_paid req) mt
                (zip req) (year_from req) (year_to req) (Spec.label s) G)
      as (e & He & Hq & Hl & Hs & _ & Hm).
    rewrite He. apply returns_ret. repeat split; trivial.
    + now exists s.
    + rewrite Hs. now apply Nat.leb_le.
  - now apply returns_ret.
Qed.

Let outcome_or_null (req : Request) (r : Response) : Prop :=
  r = Json 200 BNull \/ Notions.outcome req r.

Lemma filtered_returns (req : Request) :
  Notions.returns (Notions.outcome req) (Filtered.cascade c req).
Proof.
  unfold Filtered.cascade. cbv zeta.
  pose proof (fun q s mt => @runQuery_returns req q s mt) as R.
  assert (K : forall e, Notions.accepted req e ->
                Notions.returns (Notions.outcome req) (ret (Json 200 (BEnvelope e)))).
  { intros e He. apply returns_ret. right. now exists e. }
  eapply returns_bind; [apply (R _ Spec.Exact) |].
  intros [e|] H; [now apply K |].
  eapply returns_bind; [apply (R _ Spec.Prefix) |].
  intros [e|] H2; [now apply K |].
  apply returns_bind with (Q := fun _ => True); [apply returns_any |].
  intros zg _.
  eapply returns_bind
    with (Q := fun o => match o with
                        | Some e => Notions.accepted req e
                        | None => True
                        end).
  { destruct (hd_error zg); [apply (R _ Spec.Radius) | now apply returns_ret]. }
  intros [e|] H3; [now apply K |].
  eapply returns_bind
    with (Q := fun o => match o with
                        | Some e => Notions.accepted req e
                        | None => True
                        end).
  { destruct (hd_error zg) as [g|]; [| now apply returns_ret].
    destruct (truthy (g_state g)); [| now apply returns_ret].
    apply (R _ Spec.Region). }
  intros [e|] H4; [now apply K |].
  eapply returns_bind; [apply (R _ Spec.National) |].
  intros [e|] H5; [now apply K |].
  apply returns_ret. now left.
Qed.

Lemma summarized_answer (req : Request) (rows : list Row) (mt : Meta)
    (s : Spec.Scope) :
  (MIN_N <=? List.length rows) = true ->
  outcome_or_null req
    (json (Unfiltered.summarize rows mt (zip req) (year_from req)
             (year_to req) (Spec.label s))).
Proof.
  intro G.
  destruct (unfiltered_accept rows mt (zip req) (year_from req) (year_to req)
              (Spec.label s))
    as [(_ & He) | (_ & e & He & Hq & Hl & Hs & _ & Hm)]; rewrite He.
  - now left.
  - right. right. exists e. repeat split; trivial.
    + now exists s.
    + rewrite Hs. now apply Nat.leb_le.
Qed.

Lemma unfiltered_returns (req : Request) :
  Notions.returns (outcome_or_null req) (Unfiltered.cascade c req).
Proof.
  unfold Unfiltered.cascade. cbv zeta.
  pose proof (fun rows mt s => @summarized_answer req rows mt s) as R.
  apply returns_bind with (Q := fun _ => True); [apply returns_any |].
  intros q1 _.
  destruct (MIN_N <=? List.length q1) eqn:G1;
    [apply returns_ret, (R _ _ Spec.Exact G1) |].
  apply returns_bind with (Q := fun _ => True); [apply returns_any |].
  intros q2 _.
  destruct (MIN_N <=? List.length q2) eqn:G2;
    [apply returns_ret, (R _ _ Spec.Prefix G2) |].
  apply returns_bind with (Q := fun _ => True); [apply returns_any |].
  intros zg _.
  eapply returns_bind
    with (Q := fun o => match o with
                        | Some r => outcome_or_null req r
                        | None => True
                        end).
  { destruct (hd_error zg) as [g|]; [| now apply returns_ret].
    apply returns_bind with (Q := fun _ => True); [apply returns_any |].
    intros q3 _.
    destruct (MIN_N <=? List.length q3) eqn:G3; [| now apply returns_ret].
    apply returns_bind with (Q := fun _ => True); [apply returns_any |].
    intros rep _. apply returns_ret, (R _ _ Spec.Radius G3). }
  intros [r|] H3; [now apply returns_ret |].
  eapply returns_bind
    with (Q := fun o => match o with
                        | Some r => outcome_or_null req r
                        | None => True
                        end).
  { destruct (hd_error zg) as [g|]; [| now apply returns_ret].
    destruct (truthy (g_state g)); [| now apply returns_ret].
    cbv zeta.
    apply returns_bind with (Q := fun _ => True); [apply returns_any |].
    intros q4 _.
    destruct (MIN_N <=? List.length q4) eqn:G4; [| now apply returns_ret].
    apply returns_ret, (R _ _ Spec.Region G4). }
  intros [r|] H4; [now apply returns_ret |].
  apply returns_bind with (Q := fun _ => True); [apply returns_any |].
  intros q5 _.
  destruct (MIN_N <=? List.length q5) eqn:G5;
    [apply returns_ret, (R _ _ Spec.National G5) |].
  apply returns_ret. right. now left.
Qed.

(** Counting the queries. *)
Lemma within_ret (A : Type) (n : nat) (a : A) : Notions.within n (ret a).
Proof.
  intro log. exists []. simpl. rewrite app_nil_r.
  repeat split; [lia | tauto].
Qed.

Lemma bind_assoc (A B C : Type) (m : M A) (f : A -> M B) (k : B -> M C)
    (log : list Event) :
  bind (bind m f) k log = bind m (fun a => bind (f a) k) log.
Proof. unfold bind. now destruct (m log) as [log' [e | a]]. Qed.

Lemma within_assoc (A B C : Type) (n : nat) (m : M A) (f : A -> M B)
    (k : B -> M C) :
  Notions.within n (bind m (fun a => bind (f a) k)) ->
  Notions.within n (bind (bind m f) k).
Proof. intros H log. rewrite bind_assoc. apply H. Qed.

Lemma within_ret_bind (A B : Type) (n : nat) (a : A) (k : A -> M B) :
  Notions.within n (k a) -> Notions.within n (bind (ret a) k).
Proof. intros H log. apply H. Qed.

Lemma within_step (A B : Type) (n : nat) (ev : Event) (res : Result A)
    (k : A -> M B) :
  ev <> ERelease ->
  (forall x, Notions.within n (k x)) ->
  forall log, exists added,
    fst (bind (fun log => (log ++ [ev], res)) k log) = log ++ ev :: added
    /\ (List.length added <= n)%nat
    /\ ~ In ERelease added.
Proof.
  intros Hev Hk log. unfold bind. destruct res as [e | x]; simpl.
  - exists []. repeat split; [simpl; lia | tauto].
  - destruct (Hk x (log ++ [ev])) as (added & E & L & N).
    exists added. rewrite E, <- app_assoc. now repeat split.
Qed.

Lemma within_claims (A : Type) (n : nat) (q : ClaimsQuery)
    (k : list Row -> M A) :
  (forall x, Notions.within n (k x)) ->
  Notions.within (S n) (bind (await_claims c q) k).
Proof.
  intros Hk log.
  destruct (@within_step _ _ n (EClaims q) (claims c q) k) with (log := log)
    as (added & E & L & N); [discriminate | exact Hk |].
  exists (EClaims q :: added). split; [exact E |]. split; [simpl; lia |].
  intros [C | C]; [discriminate | contradiction].
Qed.

Lemma within_geo (A : Type) (n : nat) (z : string)
    (k : list GeoRow -> M A) :
  (forall x, Notions.within n (k x)) ->
  Notions.within (S n) (bind (await_geo c z) k).
Proof.
  intros Hk log.
  destruct (@within_step _ _ n (EGeo z) (geo c z) k) with (log := log)
    as (added & E & L & N); [discriminate | exact Hk |].
  exists (EGeo z :: added). split; [exact E |]. split; [simpl; lia |].
  intros [C | C]; [discriminate | contradiction].
Qed.

Lemma within_nearest (A : Type) (n : nat) (a b : Q)
    (k : list NearRow -> M A) :
  (forall x, Notions.within n (k x)) ->
  Notions.within (S n) (bind (await_nearest c a b) k).
Proof.
  intros Hk log.
  destruct (@within_step _ _ n (ENearest a b) (nearest c a b) k)
    with (log := log) as (added & E & L & N); [discriminate | exact Hk |].
  exists (ENearest a b :: added). split; [exact E |]. split; [simpl; lia |].
  intros [C | C]; [discriminate | contradiction].
Qed.

Ltac counting :=
  repeat first
    [ apply within_ret
    | apply within_assoc
    | apply within_ret_bind
    | apply within_claims; intro
    | apply within_geo; intro
    | apply within_nearest; intro
    | progress unfold Filtered.runQuery
    | progress cbv beta zeta
    | match goal with
      | |- Notions.within _ (bind (if ?b then _ else _) _) => destruct b
      | |- Notions.within _ (bind (match ?x with Some _ => _ | None => _ end) _)
        => destruct x
      | |- Notions.within _ (if ?b then _ else _) => destruct b
      | |- Notions.within _ (match ?x with Some _ => _ | None => _ end) =>
          destruct x
      end ].

(** Both cascades start with the exact-ZIP query and send at most five
    more queries after it. *)
Lemma filtered_queries (req : Request) (log : list Event) :
  exists added,
    fst (Filtered.cascade c req log)
    = log ++ EClaims (ByZip (zip req) (cpt req) (year_from req) (year_to req))
             :: added
    /\ (List.length added <= 5)%nat
    /\ ~ In ERelease added.
Proof.
  unfold Filtered.cascade. cbv zeta. unfold Filtered.runQuery at 1.
  rewrite bind_assoc.
  apply within_step; [discriminate |]. intro rows. counting.
Qed.

Lemma unfiltered_queries (req : Request) (log : list Event) :
  exists added,
    fst (Unfiltered.cascade c req log)
    = log ++ EClaims (ByZip (zip req) (cpt req) (year_from req) (year_to req))
             :: added
    /\ (List.length added <= 5)%nat
    /\ ~ In ERelease added.
Proof.
  unfold Unfiltered.cascade. cbv zeta.
  apply within_step; [discriminate |]. intro rows. counting.
Qed.
End Runs.

(** X9 ([handler], src/unnamed/part_000 and part_001).  A preflight is
    answered 200 and a request with a malformed [zip] or [cpt] 400, both
    without a connection taken or a query sent; a refused connection sends
    no query either.  So whenever the store was touched the request had
    passed the parameter check and the pool had handed out a client. *)
Theorem cascade_checks_before_store (pool : Db.Pool) (req : Db.Request) :
  (String.eqb (Db.method req) "OPTIONS" = true ->
   Filtered.handler pool req = ([], Wire.End_ 200)
   /\ Unfiltered.handler pool req = ([], Wire.End_ 200))
  /\ (String.eqb (Db.method req) "OPTIONS" = false ->
      Db.zip_ok (Db.zip req) = false \/ Db.cpt_ok (Db.cpt req) = false ->
      Filtered.handler pool req = ([], Wire.Json 400 Wire.BBadParams)
      /\ Unfiltered.handler pool req = ([], Wire.Json 400 Wire.BBadParams))
  /\ (fst (Filtered.handler pool req) <> []
      \/ fst (Unfiltered.handler pool req) <> [] ->
      Spec.valid req /\ exists c, pool = inr c).
Proof.
  unfold Filtered.handler, Unfiltered.handler, Spec.valid.
  destruct (String.eqb (Db.method req) "OPTIONS").
  - repeat split; try discriminate; simpl in *; tauto.
  - destruct (Db.zip_ok (Db.zip req)), (Db.cpt_ok (Db.cpt req)); simpl;
      (split; [discriminate |]); (split; [intros _ [C | C]; try discriminate;
                                          now split |]);
      try (intros [C | C]; now elim C).
    destruct pool as [msg | c]; [intros [C | C]; now elim C |].
    intros _. repeat split. now exists c.
Qed.

Lemma cascade_answers (pool : Db.Pool) (req : Db.Request) :
  Spec.valid req ->
  ((exists msg, snd (Filtered.handler pool req) = Db.server_error req msg)
   \/ Notions.outcome req (snd (Filtered.handler pool req)))
  /\ snd (Filtered.handler pool req) <> Wire.Json 200 Wire.BNull
  /\ ((exists msg, snd (Unfiltered.handler pool req) = Db.server_error req msg)
      \/ snd (Unfiltered.handler pool req) = Wire.Json 200 Wire.BNull
      \/ Notions.outcome req (snd (Unfiltered.handler pool req))).
Proof.
  intro V.
  assert (F : (exists msg, snd (Filtered.handler pool req)
                           = Db.server_error req msg)
              \/ Notions.outcome req (snd (Filtered.handler pool req))).
  { destruct pool as [msg | c].
    - left. exists msg.
      now rewrite (proj1 (@handler_connect_rejected req msg V)).
    - rewrite (@filtered_handler_run c req V). simpl.
      pose proof (@filtered_returns c req []) as R.
      destruct (snd (Filtered.cascade c req [])) as [msg | r].
      + left. now exists msg.
      + now right. }
  split; [exact F |]. split.
  - intro C. rewrite C in F.
    destruct F as [[msg F] | [F | (e & F & _)]]; discriminate.
  - destruct pool as [msg | c].
    + left. exists msg.
      now rewrite (proj2 (@handler_connect_rejected req msg V)).
    + rewrite (@unfiltered_handler_run c req V). simpl.
      pose proof (@unfiltered_returns c req []) as R.
      destruct (snd (Unfiltered.cascade c req [])) as [msg | r].
      * left. now exists msg.
      * right. destruct R as [R | R]; [now left | now right].
Qed.

(** X10 ([handler], [runQuery] and [summarize], src/unnamed/part_000 and
    part_001).  Whatever the store answers or rejects, a request that
    passes the parameter check gets one of: the status-500 server error;
    the no-data result; an envelope that names one of the five levels, has
    non-null metrics and a sample size of at least [MIN_N]; and, from the
    cascade without row filters only, a [null] body.  The filtered cascade
    never sends a [null] body. *)
Theorem cascade_answers_are_well_formed (pool : Db.Pool) (req : Db.Request) :
  Spec.valid req ->
  ((exists msg, snd (Filtered.handler pool req) = Db.server_error req msg)
   \/ Notions.outcome req (snd (Filtered.handler pool req)))
  /\ snd (Filtered.handler pool req) <> Wire.Json 200 Wire.BNull
  /\ ((exists msg, snd (Unfiltered.handler pool req) = Db.server_error req msg)
      \/ snd (Unfiltered.handler pool req) = Wire.Json 200 Wire.BNull
      \/ Notions.outcome req (snd (Unfiltered.handler pool req))).
Proof. apply cascade_answers. Qed.

(** A store whose every query is rejected. *)
Lemma cascade_answers_are_well_formed_witness :
  let req := {| Db.method := "GET"; Db.zip := "10001"; Db.cpt := "99213";
                Db.year_from := JS.Fin 2021; Db.year_to := JS.Fin 2025;
                Db.debug := false; Db.exclude_zero := false;
                Db.min_paid := JS.Fin 0 |} in
  let down : Db.Pool :=
    inr {| Db.claims := fun _ => inl "timeout"%string;
           Db.geo := fun _ => inl "timeout"%string;
           Db.nearest := fun _ _ => inl "timeout"%string |} in
  Spec.valid req
  /\ snd (Filtered.handler down req) <> Wire.Json 200 Wire.BNull.
Proof.
  intros req down.
  assert (V : Spec.valid req) by (repeat split).
  split; [exact V |].
  exact (proj1 (proj2 (@cascade_answers_are_well_formed down req V))).
Defined.

(** X11 ([handler], src/unnamed/part_000 and part_001).  Once a client is
    taken for a request that passes the parameter check, the first query is
    the exact-ZIP one, at most five more queries follow, and the client is
    released exactly once, as the last thing, whether a scope is accepted,
    none is, or a query is rejected. *)
Theorem cascade_releases_once_after_at_most_six_queries (c : Db.Client)
    (req : Db.Request) :
  Spec.valid req ->
  let first := Db.EClaims (Db.ByZip (Db.zip req) (Db.cpt req)
                             (Db.year_from req) (Db.year_to req)) in
  (exists more,
      fst (Filtered.handler (inr c) req) = first :: more ++ [Db.ERelease]
      /\ (List.length more <= 5)%nat /\ ~ In Db.ERelease more)
  /\ (exists more,
      fst (Unfiltered.handler (inr c) req) = first :: more ++ [Db.ERelease]
      /\ (List.length more <= 5)%nat /\ ~ In Db.ERelease more).
Proof.
  intros V first. split.
  - rewrite (@filtered_handler_run c req V). simpl.
    destruct (@filtered_queries c req []) as (more & E & L & N).
    exists more. rewrite E. now repeat split.
  - rewrite (@unfiltered_handler_run c req V). simpl.
    destruct (@unfiltered_queries c req []) as (more & E & L & N).
    exists more. rewrite E. now repeat split.
Qed.

(** A store that answers the exact-ZIP query and rejects the next one. *)
Lemma cascade_releases_once_after_at_most_six_queries_witness :
  let req := {| Db.method := "GET"; Db.zip := "10001"; Db.cpt := "99213";
                Db.year_from := JS.Fin 2021; Db.year_to := JS.Fin 2025;
                Db.debug := false; Db.exclude_zero := false;
                Db.min_paid := JS.Fin 0 |} in
  let c := {| Db.claims := fun q => match q with
                                    | Db.ByZip _ _ _ _ => inr []
                                    | _ => inl "timeout"%string
                                    end;
              Db.geo := fun _ => inr [];
              Db.nearest := fun _ _ => inr [] |} in
  Spec.valid req
  /\ exists more,
      fst (Filtered.handler (inr c) req)
      = Db.EClaims (Db.ByZip "10001" "99213" (JS.Fin 2021) (JS.Fin 2025))
        :: more ++ [Db.ERelease]
      /\ (List.length more <= 5)%nat /\ ~ In Db.ERelease more.
Proof.
  intros req c.
  assert (V : Spec.valid req) by (repeat split).
  split; [exact V |].
  exact (proj1 (@cascade_releases_once_after_at_most_six_queries c req V)).
Defined.

(** X12 ([handler], src/unnamed/part_000 and part_001).  Over a store that
    answers, the response is computed from the rows of the accepted scope
    alone: two stores that differ only in the rows of other scopes, while
    the same scope is the first to qualify, get the same response.  Rows of
    a narrower scope that was tried and fell short are not merged in. *)
Theorem cascade_uses_rows_of_accepted_scope_only
    (rowsf rowsf' : Db.ClaimsQuery -> list Wire.Row)
    (geof : string -> list Db.GeoRow) (nearf : Q -> Q -> list Db.NearRow)
    (req : Db.Request) (s : Spec.Scope) (q : Db.ClaimsQuery) :
  Spec.valid req ->
  rowsf q = rowsf' q ->
  let cands := Spec.candidates req (hd_error (geof (Db.zip req))) in
  let kept (f : Db.ClaimsQuery -> list Wire.Row) q :=
    List.length (Filtered.filterRows (f q) (Db.exclude_zero req)
                   (Db.min_paid req)) in
  let raw (f : Db.ClaimsQuery -> list Wire.Row) q := List.length (f q) in
  (Spec.first_qualifying (kept rowsf) cands = Some (s, q) ->
   Spec.first_qualifying (kept rowsf') cands = Some (s, q) ->
   snd (Filtered.handler (inr (Spec.total_client rowsf geof nearf)) req)
   = snd (Filtered.handler (inr (Spec.total_client rowsf' geof nearf)) req))
  /\ (Spec.first_qualifying (raw rowsf) cands = Some (s, q) ->
      Spec.first_qualifying (raw rowsf') cands = Some (s, q) ->
      snd (Unfiltered.handler (inr (Spec.total_client rowsf geof nearf)) req)
      = snd (Unfiltered.handler (inr (Spec.total_client rowsf' geof nearf))
               req)).
Proof.
  intros V E cands kept raw. split; intros F F'.
  - destruct (@filtered_total rowsf geof nearf req V) as [_ H].
    destruct (@filtered_total rowsf' geof nearf req V) as [_ H'].
    fold cands in H, H'.
    change (fun q0 => List.length
              (Filtered.filterRows (rowsf q0) (Db.exclude_zero req)
                 (Db.min_paid req))) with (kept rowsf) in H.
    change (fun q0 => List.length
              (Filtered.filterRows (rowsf' q0) (Db.exclude_zero req)
                 (Db.min_paid req))) with (kept rowsf') in H'.
    rewrite F in H. rewrite F' in H'.
    destruct H as (e & He & ->). destruct H' as (e' & He' & ->).
    rewrite E in He. congruence.
  - destruct (@unfiltered_total rowsf geof nearf req V) as [_ H].
    destruct (@unfiltered_total rowsf' geof nearf req V) as [_ H'].
    fold cands in H, H'.
    change (fun q0 => List.length (rowsf q0)) with (raw rowsf) in H.
    change (fun q0 => List.length (rowsf' q0)) with (raw rowsf') in H'.
    rewrite F in H. rewrite F' in H'. rewrite H, H', E. reflexivity.
Qed.

(** Five exact-ZIP rows in one store, none in the other; twelve ZIP3 rows
    in both. *)
Lemma cascade_uses_rows_of_accepted_scope_only_witness :
  let req := {| Db.method := "GET"; Db.zip := "10001"; Db.cpt := "99213";
                Db.year_from := JS.Fin 2021; Db.year_to := JS.Fin 2025;
                Db.debug := false; Db.exclude_zero := false;
                Db.min_paid := JS.Fin 0 |} in
  let row a := {| Wire.paid_amt := JS.Fin a; Wire.dos_year := JS.Fin 2022 |} in
  let rowsf q := match q with
                 | Db.ByZip _ _ _ _ => repeat (row 900) 5
                 | Db.ByZip3 _ _ _ _ => repeat (row 100) 12
                 | _ => []
                 end in
  let rowsf' q := match q with
                  | Db.ByZip3 _ _ _ _ => repeat (row 100) 12
                  | _ => []
                  end in
  Spec.valid req
  /\ snd (Filtered.handler
            (inr (Spec.total_client rowsf (fun _ => []) (fun _ _ => []))) req)
     = snd (Filtered.handler
              (inr (Spec.total_client rowsf' (fun _ => []) (fun _ _ => [])))
              req).
Proof.
  intros req row rowsf rowsf'.
  assert (V : Spec.valid req) by (repeat split).
  split; [exact V |].
  refine (proj1 (@cascade_uses_rows_of_accepted_scope_only rowsf rowsf'
                   (fun _ => []) (fun _ _ => []) req Spec.Prefix
                   (Db.ByZip3 "100" "99213" (JS.Fin 2021) (JS.Fin 2025))
                   V eq_refl) _ _); reflexivity.
Defined.

(** *** The yearly groups cover the sample *)

Section GroupSizes.
Variables K V : Type.
Variable same : K -> K -> bool.

Let sizes (m : list (K * list V)) : nat :=
  list_sum (map (fun e => List.length (snd e)) m).

Lemma push_size (k : K) (v : V) (m : list (K * list V)) :
  sizes (JS.push same k v m) = S (sizes m).
Proof.
  unfold sizes. induction m as [|[k' vs] m IH]; simpl; trivial.
  destruct (same k k'); simpl.
  - rewrite length_app. simpl. lia.
  - rewrite IH. lia.
Qed.

Lemma run_size (kvs : list (K * V)) (m : list (K * list V)) :
  sizes (fold_left (fun m kv => JS.push same (fst kv) (snd kv) m) kvs m)
  = (List.length kvs + sizes m)%nat.
Proof.
  revert m. induction kvs as [|kv kvs IH]; intro m; simpl; trivial.
  rewrite IH, push_size. lia.
Qed.

Lemma groups_le_sizes (m : list (K * list V)) :
  (forall e, In e m -> snd e <> []) -> (List.length m <= sizes m)%nat.
Proof.
  unfold sizes. induction m as [|e m IH]; intro H; simpl; trivial.
  assert (snd e <> []) by (apply H; now left).
  assert (List.length m <= list_sum (map (fun e => List.length (snd e)) m))%nat
    by (apply IH; intros; apply H; now right).
  destruct (snd e); [contradiction | simpl; lia].
Qed.
End GroupSizes.

(** X13 ([summarize], src/unnamed/part_000 and part_001).  The year of
    every trend entry lies inside the year window, every row inside the
    window finds its year in the trend, each such row sits in exactly one
    yearly group, and the trend has no more entries than there are rows
    inside the window.  A row whose year is [NaN] is in no group. *)
Theorem cascade_trend_covers_the_window (rows : list Wire.Row)
    (y0 y1 : JS.number) :
  let groups := Unfiltered.byYear rows y0 y1 in
  let trend := Unfiltered.trend groups in
  let inside := filter (Spec.in_window y0 y1) rows in
  Filtered.trend (Filtered.byYear rows y0 y1) = trend
  /\ (forall t, In t trend ->
        JS.ge (Wire.year t) y0 = true /\ JS.le (Wire.year t) y1 = true
        /\ Wire.year t <> JS.NaN)
  /\ (forall r, In r inside ->
        exists t, In t trend
                  /\ JS.same_key (Wire.dos_year r) (Wire.year t) = true)
  /\ list_sum (map (fun g => List.length (snd g)) groups)
     = List.length inside
  /\ (List.length trend <= List.length inside)%nat
  /\ (List.length inside <= List.length rows)%nat.
Proof.
  intros groups trend inside.
  split; [reflexivity |].
  pose proof (by_year_as_run rows y0 y1) as E. fold groups in E.
  set (pairs := map (fun r => (Wire.dos_year r, Wire.paid_amt r))
                    (filter (Spec.in_window y0 y1) rows)) in E.
  destruct (@run_inv JS.number JS.number JS.same_key same_key_refl
              same_key_comm same_key_trans pairs) as (_ & Hs & Hc).
  rewrite <- E in Hs, Hc.
  assert (W : forall k v, In (k, v) pairs ->
                JS.ge k y0 = true /\ JS.le k y1 = true /\ k <> JS.NaN).
  { intros k v H. unfold pairs in H. apply in_map_iff in H.
    destruct H as (r & Er & Hr). injection Er as <- _.
    apply filter_In in Hr. destruct Hr as [_ Hw].
    unfold Spec.in_window in Hw. apply andb_true_iff in Hw.
    destruct Hw as [A B]. repeat split; trivial.
    exact (@ge_not_nan (Wire.dos_year r) y0 A). }
  assert (Z : list_sum (map (fun g => List.length (snd g)) groups)
              = List.length inside).
  { rewrite E, run_size. simpl. unfold pairs. rewrite length_map.
    fold inside. lia. }
  split; [| split; [| split; [exact Z | split]]].
  - intros t Ht. unfold trend, Unfiltered.trend in Ht.
    apply (sort_in _ (map Unfiltered.year_entry groups) t) in Ht.
    apply in_map_iff in Ht. destruct Ht as ([k vs] & <- & Hin).
    destruct (Hs k vs Hin) as (_ & v & Hv).
    exact (W k v Hv).
  - intros r Hr.
    assert (Hp : In (Wire.dos_year r, Wire.paid_amt r) pairs)
      by (unfold pairs; apply in_map_iff; now exists r).
    destruct (Hc _ Hp) as (e & He & Hk). simpl in Hk.
    exists (Unfiltered.year_entry e). split; [| exact Hk].
    unfold trend, Unfiltered.trend.
    apply (sort_in _ (map Unfiltered.year_entry groups)).
    now apply in_map.
  - unfold trend, Unfiltered.trend. rewrite sort_length, length_map, <- Z.
    apply groups_le_sizes. intros [k vs] He.
    destruct (Hs k vs He) as (Hv & w & Hw). simpl. rewrite Hv.
    unfold Spec.grouped. intro C.
    assert (Hin : In (k, w) (filter (fun kv => JS.same_key (fst kv) k) pairs))
      by (apply filter_In; split; [exact Hw | apply same_key_refl]).
    apply (in_map snd) in Hin. rewrite C in Hin. contradiction.
  - apply filter_length_le.
Qed.

(** *** The loops of the exact-ZIP handler *)

Lemma collect_amounts_from (ignoreZero : bool) (claims : list Wire.Row)
    (st : list Q * list (Q * list Q)) :
  fst (fold_left
         (fun st r =>
            match ZipMetrics.toNum (Wire.paid_amt r),
                  ZipMetrics.toNum (Wire.dos_year r) with
            | Some amt, Some yr =>
                if ignoreZero && Qle_bool amt 0 then st
                else (fst st ++ [amt], JS.push Qeq_bool yr amt (snd st))
            | _, _ => st
            end) claims st)
  = fst st ++ map snd (Notions.zip_rows ignoreZero claims).
Proof.
  revert st. induction claims as [|r claims IH]; intro st; simpl.
  - now rewrite app_nil_r.
  - rewrite IH. unfold Spec.zip_kept.
    destruct (ZipMetrics.toNum (Wire.paid_amt r)) as [amt|];
      destruct (ZipMetrics.toNum (Wire.dos_year r)) as [yr|]; simpl; trivial.
    destruct (ignoreZero && Qle_bool amt 0); simpl; trivial.
    now rewrite <- app_assoc.
Qed.

Lemma collect_amounts (ignoreZero : bool) (claims : list Wire.Row) :
  fst (ZipMetrics.collect ignoreZero claims)
  = map snd (Notions.zip_rows ignoreZero claims).
Proof. unfold ZipMetrics.collect. now rewrite collect_amounts_from. Qed.

Lemma zip_rows_length (ignoreZero : bool) (claims : list Wire.Row) :
  (List.length (Notions.zip_rows ignoreZero claims) <= List.length claims)%nat.
Proof.
  induction claims as [|r claims IH]; simpl; trivial.
  rewrite length_app. destruct (Spec.zip_kept ignoreZero r); simpl; lia.
Qed.

Lemma zip_rows_in (ignoreZero : bool) (claims : list Wire.Row) (p : Q * Q) :
  In p (Notions.zip_rows ignoreZero claims)
  <-> exists r, In r claims /\ Spec.zip_kept ignoreZero r = Some p.
Proof.
  unfold Notions.zip_rows. rewrite in_flat_map. split.
  - intros (r & Hr & Hp). exists r. split; trivial.
    destruct (Spec.zip_kept ignoreZero r) as [p'|]; simpl in Hp;
      [| contradiction].
    destruct Hp as [-> | []]. reflexivity.
  - intros (r & Hr & E). exists r. split; trivial. rewrite E. now left.
Qed.

Lemma collect_partition (ignoreZero : bool)
    (claims : list Wire.Row) :
  let st := ZipMetrics.collect ignoreZero claims in
  let trend := ZipMetrics.trend_by_year (snd st) in
  fst st = map snd (Notions.zip_rows ignoreZero claims)
  /\ list_sum (map (fun g => List.length (snd g)) (snd st))
     = List.length (fst st)
  /\ (forall r yr amt, In r claims ->
        Spec.zip_kept ignoreZero r = Some (yr, amt) ->
        In amt (fst st)
        /\ exists y m, In (y, m) trend /\ (yr == y)%Q)
  /\ (List.length trend <= List.length (fst st))%nat
  /\ (List.length (fst st) <= List.length claims)%nat.
Proof.
  intros st trend.
  pose proof (collect_amounts ignoreZero claims) as A. fold st in A.
  set (pairs := Notions.zip_rows ignoreZero claims) in *.
  assert (E : snd st
              = fold_left (fun m kv => JS.push Qeq_bool (fst kv) (snd kv) m)
                          pairs [])
    by apply collect_as_run.
  destruct (@run_inv Q Q Qeq_bool Qeq_bool_refl Qeq_bool_comm Qeq_bool_trans
              pairs) as (_ & Hs & Hc).
  rewrite <- E in Hs, Hc.
  assert (Z : list_sum (map (fun g => List.length (snd g)) (snd st))
              = List.length (fst st)).
  { rewrite E, run_size, A, length_map. simpl. lia. }
  split; [exact A |]. split; [exact Z |]. split; [| split].
  - intros r yr amt Hr Hk.
    assert (Hp : In (yr, amt) pairs)
      by (apply zip_rows_in; now exists r).
    split.
    + rewrite A. apply in_map_iff. now exists (yr, amt).
    + destruct (Hc _ Hp) as ([y vs] & He & Hy). simpl in Hy.
      exists y, (ZipMetrics.median64 (map JS.Fin (JS.sortQ vs))). split.
      * unfold trend, ZipMetrics.trend_by_year. apply in_map_iff.
        exists (y, vs). split; trivial.
        now apply (sort_in _ (snd st) (y, vs)).
      * now apply Qeq_bool_iff.
  - unfold trend, ZipMetrics.trend_by_year.
    rewrite length_map, sort_length, <- Z.
    apply groups_le_sizes. intros [k vs] He.
    destruct (Hs k vs He) as (Hv & w & Hw). simpl. rewrite Hv.
    unfold Spec.grouped. intro C.
    assert (Hin : In (k, w) (filter (fun kv => Qeq_bool (fst kv) k) pairs))
      by (apply filter_In; split; [exact Hw | apply Qeq_bool_refl]).
    apply (in_map snd) in Hin. rewrite C in Hin. contradiction.
  - rewrite A, length_map. apply zip_rows_length.
Qed.

(** X14 (the claims loop of [handler], src/unnamed/part_002).  The loop
    keeps the rows with a finite amount and a finite year, less the
    amounts at or below zero when [ignoreZero] is set, in row order.  Every
    kept amount sits in exactly one yearly group, so the group sizes add up
    to the sample size; every kept row finds its year in the trend; and the
    sample is never larger than the number of rows fetched. *)
Theorem collect_partitions_the_sample (ignoreZero : bool)
    (claims : list Wire.Row) :
  let st := ZipMetrics.collect ignoreZero claims in
  let trend := ZipMetrics.trend_by_year (snd st) in
  fst st = map snd (Notions.zip_rows ignoreZero claims)
  /\ list_sum (map (fun g => List.length (snd g)) (snd st))
     = List.length (fst st)
  /\ (forall r yr amt, In r claims ->
        Spec.zip_kept ignoreZero r = Some (yr, amt) ->
        In amt (fst st)
        /\ exists y m, In (y, m) trend /\ (yr == y)%Q)
  /\ (List.length trend <= List.length (fst st))%nat
  /\ (List.length (fst st) <= List.length claims)%nat.
Proof. apply collect_partition. Qed.

Lemma zip_rows_ignore_zero (claims : list Wire.Row) :
  Notions.zip_rows true claims
  = filter (fun p => negb (Qle_bool (snd p) 0)) (Notions.zip_rows false claims).
Proof.
  unfold Notions.zip_rows.
  induction claims as [|r claims IH]; simpl; trivial.
  rewrite filter_app, IH. f_equal. unfold Spec.zip_kept.
  destruct (ZipMetrics.toNum (Wire.paid_amt r)) as [amt|];
    destruct (ZipMetrics.toNum (Wire.dos_year r)) as [yr|]; simpl; trivial.
  now destruct (Qle_bool amt 0).
Qed.

Lemma filter_map_swap (A B : Type) (f : A -> B) (p : B -> bool)
    (l : list A) :
  filter p (map f l) = map f (filter (fun x => p (f x)) l).
Proof.
  induction l as [|x l IH]; simpl; trivial.
  destruct (p (f x)); simpl; now rewrite IH.
Qed.

(** X15 (the claims loop of [handler], src/unnamed/part_002).  With
    [ignoreZero] the sample is the sample without it, less the amounts at
    or below zero, in the same order: every amount is positive and the
    sample never grows. *)
Theorem ignore_zero_only_removes (claims : list Wire.Row) :
  let kept := fst (ZipMetrics.collect true claims) in
  let all := fst (ZipMetrics.collect false claims) in
  kept = filter (fun a => negb (Qle_bool a 0)) all
  /\ (List.length kept <= List.length all)%nat
  /\ (forall a, In a kept -> (0 < a)%Q)
  /\ forall a, In a all -> (0 < a)%Q -> In a kept.
Proof.
  intros kept all.
  assert (E : kept = filter (fun a => negb (Qle_bool a 0)) all).
  { unfold kept, all. rewrite !collect_amounts, zip_rows_ignore_zero.
    now rewrite filter_map_swap. }
  split; [exact E |]. split; [rewrite E; apply filter_length_le |].
  split; intros a H.
  - rewrite E in H. apply filter_In in H. destruct H as [_ H].
    apply negb_true_iff in H. apply Qnot_le_lt. intro C.
    apply Qle_bool_iff in C. congruence.
  - intro P. rewrite E. apply filter_In. split; trivial.
    apply negb_true_iff. destruct (Qle_bool a 0) eqn:C; trivial.
    apply Qle_bool_iff in C. lra.
Qed.

(** *** The wRVU table and the ratios of the exact-ZIP handler *)

Lemma map_get_set (k' k v : Q) (m : list (Q * Q)) :
  ZipMetrics.map_get k' (ZipMetrics.map_set k v m)
  = if Qeq_bool k' k then Some v else ZipMetrics.map_get k' m.
Proof.
  unfold ZipMetrics.map_get.
  induction m as [|[k0 v0] m IH]; simpl.
  - now destruct (Qeq_bool k' k).
  - destruct (Qeq_bool k k0) eqn:E; simpl.
    + destruct (Qeq_bool k' k) eqn:F.
      * now rewrite (Qeq_bool_trans _ _ _ F E).
      * destruct (Qeq_bool k' k0) eqn:G; trivial.
        rewrite Qeq_bool_comm in E.
        now rewrite (Qeq_bool_trans _ _ _ G E) in F.
    + destruct (Qeq_bool k' k0) eqn:G; simpl.
      * destruct (Qeq_bool k' k) eqn:F; trivial.
        rewrite Qeq_bool_comm in F.
        now rewrite (Qeq_bool_trans _ _ _ F G) in E.
      * exact IH.
Qed.

Lemma wrvu_snoc (l : list ZipMetrics.RvuRow) (r : ZipMetrics.RvuRow) :
  ZipMetrics.wrvuByYear_of (l ++ [r])
  = match Notions.rvu_entry r with
    | Some (yr, w) => ZipMetrics.map_set yr w (ZipMetrics.wrvuByYear_of l)
    | None => ZipMetrics.wrvuByYear_of l
    end.
Proof.
  unfold ZipMetrics.wrvuByYear_of, Notions.rvu_entry.
  rewrite fold_left_app. simpl.
  destruct (ZipMetrics.toNum (ZipMetrics.r_year r)) as [yr|];
    destruct (ZipMetrics.toNum (ZipMetrics.r_wrvu r)) as [w|]; trivial.
  now destruct (negb (Qeq_bool yr 0) && ZipMetrics.positive w).
Qed.

Lemma latest_snoc (y : Q) (l : list ZipMetrics.RvuRow)
    (r : ZipMetrics.RvuRow) :
  Notions.latest_wrvu y (l ++ [r])
  = match Notions.rvu_entry r with
    | Some (yr, w) =>
        if Qeq_bool y yr then Some w else Notions.latest_wrvu y l
    | None => Notions.latest_wrvu y l
    end.
Proof.
  unfold Notions.latest_wrvu.
  rewrite flat_map_app, filter_app, map_app. simpl.
  destruct (Notions.rvu_entry r) as [[yr w]|]; simpl;
    [| now rewrite app_nil_r].
  destruct (Qeq_bool y yr); simpl; [apply last_last | now rewrite app_nil_r].
Qed.

Lemma wrvu_lookup (y : Q) (rvuRows : list ZipMetrics.RvuRow) :
  ZipMetrics.map_get y (ZipMetrics.wrvuByYear_of rvuRows)
  = Notions.latest_wrvu y rvuRows.
Proof.
  induction rvuRows as [|r l IH] using rev_ind; [reflexivity |].
  rewrite wrvu_snoc, latest_snoc.
  destruct (Notions.rvu_entry r) as [[yr w]|]; trivial.
  rewrite map_get_set. now rewrite IH.
Qed.

Lemma last_some_in (A : Type) (l : list A) (x : A) :
  last (map Some l) None = Some x -> In x l.
Proof.
  induction l as [|a l IH] using rev_ind; [discriminate |].
  rewrite map_app. simpl. rewrite last_last. intro E. injection E as ->.
  apply in_or_app. right. now left.
Qed.

Lemma positive_spec (w : Q) : ZipMetrics.positive w = true <-> (0 < w)%Q.
Proof.
  unfold ZipMetrics.positive. split.
  - intro H. apply andb_true_iff in H. destruct H as [_ H].
    apply negb_true_iff in H. apply Qnot_le_lt. intro C.
    apply Qle_bool_iff in C. congruence.
  - intro H. apply andb_true_iff. split; apply negb_true_iff.
    + destruct (Qeq_bool w 0) eqn:C; trivial.
      apply Qeq_bool_iff in C. lra.
    + destruct (Qle_bool w 0) eqn:C; trivial.
      apply Qle_bool_iff in C. lra.
Qed.

Lemma latest_wrvu_entry (y w : Q) (rvuRows : list ZipMetrics.RvuRow) :
  Notions.latest_wrvu y rvuRows = Some w ->
  (0 < w)%Q /\ ~ (y == 0)%Q
  /\ exists r yr, In r rvuRows /\ Notions.rvu_entry r = Some (yr, w)
                  /\ (y == yr)%Q.
Proof.
  unfold Notions.latest_wrvu. intro H.
  set (es := filter _ _) in H.
  assert (I : exists p, In p es /\ snd p = w).
  { clearbody es. induction es as [|a es IH] using rev_ind; [discriminate |].
    rewrite map_app in H. simpl in H. rewrite last_last in H.
    injection H as H. exists a. split; trivial.
    apply in_or_app. right. now left. }
  destruct I as ([yr w'] & Hin & Hw). simpl in Hw. subst w'.
  unfold es in Hin. apply filter_In in Hin. destruct Hin as [Hin Hy].
  simpl in Hy. apply Qeq_bool_iff in Hy.
  apply in_flat_map in Hin. destruct Hin as (r & Hr & Hp).
  destruct (Notions.rvu_entry r) as [p|] eqn:E; [| contradiction].
  destruct Hp as [-> | []].
  assert (G : negb (Qeq_bool yr 0) && ZipMetrics.positive w = true).
  { unfold Notions.rvu_entry in E.
    destruct (ZipMetrics.toNum (ZipMetrics.r_year r)) as [a|];
      destruct (ZipMetrics.toNum (ZipMetrics.r_wrvu r)) as [b|];
      try discriminate.
    destruct (negb (Qeq_bool a 0) && ZipMetrics.positive b) eqn:G;
      try discriminate.
    injection E as <- <-. exact G. }
  apply andb_true_iff in G. destruct G as [G1 G2].
  apply positive_spec in G2. apply negb_true_iff in G1.
  apply Qeq_bool_neq in G1.
  repeat split; trivial.
  - intro C. apply G1. now rewrite <- Hy.
  - now exists r, yr.
Qed.

(** X16 (the [wrvuByYear] loop of [handler], src/unnamed/part_002).  After
    the loop, looking a year up gives the wRVU of the last row of that year
    that has a finite non-zero year and a finite positive wRVU, and nothing
    if there is no such row: a later row overrides an earlier one, every
    stored wRVU is positive, and year 0 is never stored. *)
Theorem wrvu_lookup_is_latest_positive (rvuRows : list ZipMetrics.RvuRow)
    (y : Q) :
  ZipMetrics.map_get y (ZipMetrics.wrvuByYear_of rvuRows)
  = Notions.latest_wrvu y rvuRows
  /\ (forall r, ZipMetrics.map_get y (ZipMetrics.wrvuByYear_of (rvuRows ++ [r]))
                = match Notions.rvu_entry r with
                  | Some (yr, w) =>
                      if Qeq_bool y yr then Some w
                      else ZipMetrics.map_get y
                             (ZipMetrics.wrvuByYear_of rvuRows)
                  | None =>
                      ZipMetrics.map_get y (ZipMetrics.wrvuByYear_of rvuRows)
                  end)
  /\ (forall w, ZipMetrics.map_get y (ZipMetrics.wrvuByYear_of rvuRows)
                = Some w ->
        (0 < w)%Q /\ ~ (y == 0)%Q
        /\ exists r yr, In r rvuRows /\ Notions.rvu_entry r = Some (yr, w)
                        /\ (y == yr)%Q)
  /\ ZipMetrics.map_get y (ZipMetrics.wrvuByYear_of []) = None.
Proof.
  split; [apply wrvu_lookup |]. split; [| split; [| reflexivity]].
  - intro r. rewrite !wrvu_lookup. apply latest_snoc.
  - intros w H. rewrite wrvu_lookup in H. now apply latest_wrvu_entry.
Qed.

Lemma ratios_from (ignoreZero : bool) (claims : list Wire.Row)
    (table : list (Q * Q)) (acc : list JS.number) :
  fold_left
    (fun ratios r =>
       match ZipMetrics.toNum (Wire.paid_amt r),
             ZipMetrics.toNum (Wire.dos_year r) with
       | Some amt, Some yr =>
           if ignoreZero && Qle_bool amt 0 then ratios
           else
             match ZipMetrics.map_get yr table with
             | Some w =>
                 if ZipMetrics.positive w
                 then ratios ++ [JS.div (JS.Fin amt) (JS.Fin w)]
                 else ratios
             | None => ratios
             end
       | _, _ => ratios
       end)
    claims acc
  = acc ++ flat_map
             (fun p => match ZipMetrics.map_get (fst p) table with
                       | Some w =>
                           if ZipMetrics.positive w
                           then [JS.div (JS.Fin (snd p)) (JS.Fin w)]
                           else []
                       | None => []
                       end)
             (Notions.zip_rows ignoreZero claims).
Proof.
  revert acc. induction claims as [|r claims IH]; intro acc.
  - cbn [fold_left Notions.zip_rows flat_map]. now rewrite app_nil_r.
  - cbn [fold_left Notions.zip_rows flat_map]. rewrite IH, flat_map_app.
    unfold Spec.zip_kept.
    destruct (ZipMetrics.toNum (Wire.paid_amt r)) as [amt|];
      destruct (ZipMetrics.toNum (Wire.dos_year r)) as [yr|];
      cbn [flat_map app]; trivial.
    destruct (ignoreZero && Qle_bool amt 0); cbn [flat_map app fst snd];
      trivial.
    destruct (ZipMetrics.map_get yr table) as [w|]; cbn [app]; trivial.
    destruct (ZipMetrics.positive w); cbn [app]; trivial.
    now rewrite <- app_assoc.
Qed.

Lemma flat_map_short (A B : Type) (f : A -> list B) (l : list A) :
  (forall x, (List.length (f x) <= 1)%nat) ->
  (List.length (flat_map f l) <= List.length l)%nat.
Proof.
  intro H. induction l as [|x l IH]; simpl; trivial.
  rewrite length_app. specialize (H x). lia.
Qed.

Lemma ratios_spec (ignoreZero : bool)
    (claims : list Wire.Row) (rvuRows : list ZipMetrics.RvuRow) :
  let rs := ZipMetrics.ratios ignoreZero claims
              (ZipMetrics.wrvuByYear_of rvuRows) in
  rs = flat_map
         (fun p => match Notions.latest_wrvu (fst p) rvuRows with
                   | Some w => [JS.div (JS.Fin (snd p)) (JS.Fin w)]
                   | None => []
                   end)
         (Notions.zip_rows ignoreZero claims)
  /\ (List.length rs
      <= List.length (fst (ZipMetrics.collect ignoreZero claims)))%nat
  /\ (forall x, In x rs ->
        exists yr amt w,
          In (yr, amt) (Notions.zip_rows ignoreZero claims)
          /\ Notions.latest_wrvu yr rvuRows = Some w
          /\ (0 < w)%Q /\ x = JS.fl (amt / w) /\ x <> JS.NaN
          /\ (ignoreZero = true -> JS.ge x (JS.Fin 0) = true))
  /\ ZipMetrics.ratios ignoreZero claims (ZipMetrics.wrvuByYear_of []) = [].
Proof.
  intro rs.
  assert (E : rs = flat_map
                     (fun p => match Notions.latest_wrvu (fst p) rvuRows with
                               | Some w => [JS.div (JS.Fin (snd p)) (JS.Fin w)]
                               | None => []
                               end)
                     (Notions.zip_rows ignoreZero claims)).
  { unfold rs, ZipMetrics.ratios. rewrite ratios_from. cbn [app].
    apply flat_map_ext. intros [yr amt]. cbn [fst snd]. rewrite wrvu_lookup.
    destruct (Notions.latest_wrvu yr rvuRows) as [w|] eqn:L; trivial.
    destruct (latest_wrvu_entry _ _ L) as (P & _).
    apply positive_spec in P. now rewrite P. }
  split; [exact E |]. split; [| split].
  - rewrite E, collect_amounts, length_map. apply flat_map_short.
    intros [yr amt]. cbn [fst snd].
    destruct (Notions.latest_wrvu yr rvuRows); simpl; lia.
  - intros x H. rewrite E in H. apply in_flat_map in H.
    destruct H as ([yr amt] & Hin & Hx). cbn [fst snd] in Hx.
    destruct (Notions.latest_wrvu yr rvuRows) as [w|] eqn:L;
      [| contradiction].
    destruct Hx as [<- | []].
    destruct (latest_wrvu_entry _ _ L) as (P & _).
    rewrite (div_positive amt P).
    exists yr, amt, w.
    split; [exact Hin |]. split; [exact L |]. split; [exact P |].
    split; [reflexivity |]. split; [apply fl_not_nan |].
    intros ->. apply zip_rows_in in Hin. destruct Hin as (r & _ & K).
    unfold Spec.zip_kept in K.
    destruct (ZipMetrics.toNum (Wire.paid_amt r)) as [a|];
      destruct (ZipMetrics.toNum (Wire.dos_year r)) as [b|];
      try discriminate.
    simpl in K. destruct (Qle_bool a 0) eqn:C; try discriminate.
    injection K as _ <-.
    assert (0 < a)%Q.
    { apply Qnot_le_lt. intro D. apply Qle_bool_iff in D. congruence. }
    apply fl_nonneg. apply Qle_shift_div_l; trivial. lra.
  - unfold ZipMetrics.ratios. rewrite ratios_from. cbn [app].
    clear E. generalize (Notions.zip_rows ignoreZero claims). intro l.
    induction l as [|p l IH]; simpl; trivial.
Qed.

(** X17 (the ratios loop of [handler], src/unnamed/part_002).  There is
    one ratio for each kept row whose year has a wRVU in the table, none
    for the others, in row order; each is the amount over a positive wRVU,
    rounded to binary64, so nothing is divided by zero and no ratio is
    [NaN].  The ratio sample is never larger than the sample and is empty
    when [rvu_master] has no row.  With [ignoreZero] no ratio is negative;
    a ratio can be 0, when the quotient is too small for binary64. *)
Theorem ratios_are_amounts_over_positive_wrvu (ignoreZero : bool)
    (claims : list Wire.Row) (rvuRows : list ZipMetrics.RvuRow) :
  let rs := ZipMetrics.ratios ignoreZero claims
              (ZipMetrics.wrvuByYear_of rvuRows) in
  rs = flat_map
         (fun p => match Notions.latest_wrvu (fst p) rvuRows with
                   | Some w => [JS.div (JS.Fin (snd p)) (JS.Fin w)]
                   | None => []
                   end)
         (Notions.zip_rows ignoreZero claims)
  /\ (List.length rs
      <= List.length (fst (ZipMetrics.collect ignoreZero claims)))%nat
  /\ (forall x, In x rs ->
        exists yr amt w,
          In (yr, amt) (Notions.zip_rows ignoreZero claims)
          /\ Notions.latest_wrvu yr rvuRows = Some w
          /\ (0 < w)%Q /\ x = JS.fl (amt / w) /\ x <> JS.NaN
          /\ (ignoreZero = true -> JS.ge x (JS.Fin 0) = true))
  /\ ZipMetrics.ratios ignoreZero claims (ZipMetrics.wrvuByYear_of []) = [].
Proof. apply ratios_spec. Qed.

(** The least positive binary64 amount over a wRVU of 4: the ratio is 0,
    with [ignoreZero] set. *)
Example ratio_too_small_for_binary64 :
  let tiny := Notions.dbl (5 # 10 ^ 324) in
  (0 < tiny)%Q
  /\ ZipMetrics.ratios true
       [ {| Wire.paid_amt := JS.Fin tiny; Wire.dos_year := JS.Fin 2022 |} ]
       (ZipMetrics.wrvuByYear_of
          [ {| ZipMetrics.r_year := JS.Fin 2022;
               ZipMetrics.r_wrvu := JS.Fin 4 |} ])
     = [JS.Fin 0].
Proof. vm_compute. split; reflexivity. Qed.

(** *** What the exact-ZIP handler answers *)

(** X18 ([handler], src/unnamed/part_002).  The checks run in the order
    preflight (204), method (405), [zip] (400), [cpt] (400), and their
    answer does not depend on the store.  A [cpt] of four digits, which the
    cascade handlers accept, is refused here. *)
Theorem zip_handler_checks_in_order (method zip cpt : string)
    (ignoreZero : bool) (year : Z)
    (claimsRes claimsRes' : ZipMetrics.SbResult Wire.Row)
    (rvuRes rvuRes' : ZipMetrics.SbResult ZipMetrics.RvuRow) :
  let run := ZipMetrics.handler method zip cpt ignoreZero year in
  (String.eqb method "OPTIONS" = true ->
   run claimsRes rvuRes = ZipMetrics.ZEnd 204)
  /\ (String.eqb method "OPTIONS" = false ->
      String.eqb method "GET" = false ->
      run claimsRes rvuRes = ZipMetrics.ZError 405 "Method not allowed")
  /\ (String.eqb method "GET" = true -> Db.zip_ok zip = false ->
      run claimsRes rvuRes = ZipMetrics.ZError 400 "zip must be 5 digits")
  /\ (String.eqb method "GET" = true -> Db.zip_ok zip = true ->
      String.length cpt = 4%nat ->
      run claimsRes rvuRes = ZipMetrics.ZError 400 "cpt must be 5 digits"
      /\ Db.cpt_ok cpt = Db.all_digits cpt)
  /\ (String.eqb method "GET" = false \/ Db.zip_ok zip = false
      \/ Db.all_digits cpt = false \/ String.length cpt <> 5%nat ->
      run claimsRes rvuRes = run claimsRes' rvuRes').
Proof.
  intro run. unfold run, ZipMetrics.handler.
  assert (G : String.eqb method "GET" = true ->
              String.eqb method "OPTIONS" = false).
  { intro H. apply String.eqb_eq in H. now subst method. }
  destruct (String.eqb method "OPTIONS") eqn:O.
  - split; [reflexivity |]. split; [discriminate |].
    split; [intro H; specialize (G H); discriminate |].
    split; [intro H; specialize (G H); discriminate |].
    reflexivity.
  - split; [discriminate |].
    destruct (String.eqb method "GET") eqn:M; simpl.
    + split; [discriminate |].
      destruct (Db.zip_ok zip) eqn:Zo; simpl.
      * split; [discriminate |]. split.
        -- intros _ _ L. unfold Db.cpt_ok. rewrite L. simpl.
           rewrite andb_false_r, !andb_true_r. now split.
        -- intros [C | [C | [C | C]]]; try discriminate.
           ++ now rewrite C.
           ++ apply Nat.eqb_neq in C. rewrite C.
              now rewrite andb_false_r.
      * split; [reflexivity |]. split; [discriminate | reflexivity].
    + split; [reflexivity |]. split; [discriminate |].
      split; [discriminate | reflexivity].
Qed.

(** X19 ([handler], src/unnamed/part_002).  A well-formed GET whose claims
    query did not fail is always answered with the payload, for the window
    of the current year and the four before it, never with a no-data
    result.  The sample size is the number of kept rows; with no kept row
    every statistic is [null] and the trend is empty.  With a kept row, and
    no more rows than the 50000 the query asks for, none of mean, median,
    p25 and p75 is [null]: the mean is the binary64 average of the
    ascending amounts and never [NaN]; the median of an odd number of
    amounts is the middle one, and of an even number the binary64 sum of
    the halves of the two middle ones. *)
Theorem zip_handler_payload (zip cpt : string) (ignoreZero : bool) (year : Z)
    (claimsRes : ZipMetrics.SbResult Wire.Row)
    (rvuRes : ZipMetrics.SbResult ZipMetrics.RvuRow) :
  Db.zip_ok zip = true -> Db.all_digits cpt = true ->
  String.length cpt = 5%nat ->
  ZipMetrics.error claimsRes = None ->
  let claims := match ZipMetrics.data claimsRes with
                | Some l => l
                | None => []
                end in
  let sample := fst (ZipMetrics.collect ignoreZero claims) in
  let s := JS.sortQ sample in
  exists p,
    ZipMetrics.handler "GET" zip cpt ignoreZero year claimsRes rvuRes
    = ZipMetrics.ZOk p
    /\ ZipMetrics.z_year_window (ZipMetrics.z_metrics p)
       = ((year - 4)%Z, year)
    /\ ZipMetrics.z_sample_size p = List.length sample
    /\ (ZipMetrics.z_ratio_sample_size (ZipMetrics.z_metrics p)
        <= ZipMetrics.z_sample_size p)%nat
    /\ (sample = [] ->
        ZipMetrics.z_mean (ZipMetrics.z_metrics p) = None
        /\ ZipMetrics.z_median (ZipMetrics.z_metrics p) = None
        /\ ZipMetrics.z_p25 (ZipMetrics.z_metrics p) = None
        /\ ZipMetrics.z_p75 (ZipMetrics.z_metrics p) = None
        /\ ZipMetrics.z_mean_per_wrvu (ZipMetrics.z_metrics p) = None
        /\ ZipMetrics.z_median_per_wrvu (ZipMetrics.z_metrics p) = None
        /\ ZipMetrics.z_ratio_sample_size (ZipMetrics.z_metrics p) = 0%nat
        /\ ZipMetrics.z_trend_by_year (ZipMetrics.z_metrics p) = [])
    /\ (sample <> [] -> (Z.of_nat (List.length claims) <= 50000)%Z ->
        exists a b c,
          ZipMetrics.z_p25 (ZipMetrics.z_metrics p) = Some a
          /\ ZipMetrics.z_median (ZipMetrics.z_metrics p) = Some b
          /\ ZipMetrics.z_p75 (ZipMetrics.z_metrics p) = Some c
          /\ ZipMetrics.z_mean (ZipMetrics.z_metrics p)
             = Some (Notions.average64 s)
          /\ Notions.average64 s <> JS.NaN
          /\ (forall k, List.length sample = (2 * k + 1)%nat ->
                b = JS.Fin (nth k s 0%Q))
          /\ (forall k, List.length sample = (2 * k + 2)%nat ->
                b = JS.add (JS.mul (JS.Fin (nth k s 0%Q)) (JS.Fin (1 # 2)))
                           (JS.mul (JS.Fin (nth (k + 1) s 0%Q))
                                   (JS.Fin (1 # 2))))).
Proof.
  intros Zo Co Cl Er claims sample s.
  unfold ZipMetrics.handler.
  change (String.eqb "GET" "OPTIONS") with false.
  change (String.eqb "GET" "GET") with true.
  rewrite Zo, Co, Cl, Er. cbv beta iota zeta. simpl negb. cbv iota.
  fold claims. fold sample. fold s.
  eexists. split; [reflexivity |].
  cbn [ZipMetrics.z_metrics ZipMetrics.z_year_window ZipMetrics.z_sample_size
       ZipMetrics.z_ratio_sample_size ZipMetrics.z_mean ZipMetrics.z_median
       ZipMetrics.z_p25 ZipMetrics.z_p75 ZipMetrics.z_mean_per_wrvu
       ZipMetrics.z_median_per_wrvu ZipMetrics.z_trend_by_year].
  pose proof (sortQ_length sample) as L. fold s in L.
  split; [reflexivity |]. split; [now rewrite length_map |].
  set (rvuRows := match ZipMetrics.data rvuRes with
                  | Some l => l
                  | None => []
                  end).
  destruct (ratios_spec ignoreZero claims rvuRows)
    as (_ & RL & _). cbv zeta in RL. fold sample in RL.
  split.
  { unfold JS.sortN. rewrite sort_length, length_map, L. exact RL. }
  split.
  - intro E.
    assert (R0 : ZipMetrics.ratios ignoreZero claims
                   (ZipMetrics.wrvuByYear_of rvuRows) = []).
    { rewrite E in RL. simpl in RL.
      destruct (ZipMetrics.ratios ignoreZero claims
                  (ZipMetrics.wrvuByYear_of rvuRows)); trivial.
      simpl in RL. lia. }
    rewrite R0. unfold s. rewrite E.
    destruct (collect_partition ignoreZero claims)
      as (_ & _ & _ & T & _). cbv zeta in T. fold sample in T.
    rewrite E in T. simpl in T.
    repeat split.
    destruct (ZipMetrics.trend_by_year
                (snd (ZipMetrics.collect ignoreZero claims))); trivial.
    simpl in T. lia.
  - intros N B.
    assert (NS : s <> [])
      by (intro C; apply N; apply length_zero_iff_nil;
          rewrite <- L, C; reflexivity).
    assert (NM : map JS.Fin s <> [])
      by (destruct s; [contradiction | discriminate]).
    destruct (collect_partition ignoreZero claims)
      as (_ & _ & _ & _ & SL). cbv zeta in SL. fold sample in SL.
    assert (B50 : (Z.of_nat (List.length s) <= 2 ^ 50)%Z).
    { rewrite L. apply Z.le_trans with 50000%Z; [lia |].
      intro C. discriminate C. }
    assert (B53 : (Z.of_nat (List.length (map JS.Fin s)) <= 2 ^ 53)%Z).
    { rewrite length_map. apply Z.le_trans with (2 ^ 50)%Z; trivial.
      intro C. discriminate C. }
    destruct (pct64_total NM (JS.Fin (1 # 4)) B53) as (a & Ea).
    destruct (pct64_total NM (JS.Fin (1 # 2)) B53) as (b & Eb).
    destruct (pct64_total NM (JS.Fin (3 # 4)) B53) as (c & Ec).
    exists a, b, c.
    split; [exact Ea |]. split; [exact Eb |]. split; [exact Ec |].
    split.
    { unfold ZipMetrics.mean, Notions.average64, JS.size.
      rewrite length_map. destruct s; [contradiction | reflexivity]. }
    split; [now apply average64_not_nan |].
    split.
    + intros k Lk. rewrite <- L in Lk.
      fold (ZipMetrics.median64 (map JS.Fin s)) in Eb.
      rewrite (median64_odd s k Lk B50) in Eb. now injection Eb.
    + intros k Lk. rewrite <- L in Lk.
      fold (ZipMetrics.median64 (map JS.Fin s)) in Eb.
      rewrite (median64_even s k Lk B50) in Eb. now injection Eb.
Qed.

(** Three rows, one of them with amount zero, and a failed wRVU query:
    the median of the two kept amounts 10 and 30 is 20. *)
Lemma zip_handler_payload_witness :
  let row a y := {| Wire.paid_amt := JS.Fin a; Wire.dos_year := JS.Fin y |} in
  let claimsRes :=
    {| ZipMetrics.data := Some [row 10 2021; row 0 2022; row 30 2022];
       ZipMetrics.error := None |} in
  let rvuRes : ZipMetrics.SbResult ZipMetrics.RvuRow :=
    {| ZipMetrics.data := None;
       ZipMetrics.error := Some "relation does not exist"%string |} in
  Db.zip_ok "10001" = true /\ Db.all_digits "99213" = true
  /\ String.length "99213" = 5%nat
  /\ ZipMetrics.error claimsRes = None
  /\ exists p,
      ZipMetrics.handler "GET" "10001" "99213" true 2025 claimsRes rvuRes
      = ZipMetrics.ZOk p
      /\ ZipMetrics.z_year_window (ZipMetrics.z_metrics p)
         = (2021%Z, 2025%Z)
      /\ ZipMetrics.z_median (ZipMetrics.z_metrics p) = Some (JS.Fin 20).
Proof.
  intros row claimsRes rvuRes.
  assert (H1 : Db.zip_ok "10001" = true) by reflexivity.
  assert (H2 : Db.all_digits "99213" = true) by reflexivity.
  assert (H3 : String.length "99213" = 5%nat) by reflexivity.
  assert (H4 : ZipMetrics.error claimsRes = None) by reflexivity.
  repeat (split; [assumption |]).
  destruct (@zip_handler_payload "10001" "99213" true 2025 claimsRes rvuRes
              H1 H2 H3 H4) as (p & E & W & _ & _ & _ & K).
  destruct K as (a & b & c & _ & Eb & _ & _ & _ & _ & Ev);
    [discriminate | discriminate |].
  exists p. split; [exact E |]. split; [exact W |].
  rewrite Eb, (Ev 0%nat eq_refl). reflexivity.
Defined.

(** Three amounts of 0.1: the mean comes out above each of them. *)
Example mean_above_every_amount :
  let d := Notions.dbl (1 # 10) in
  exists v, Notions.average64 [d; d; d] = JS.Fin v /\ (d < v)%Q.
Proof. eexists. split; [vm_compute; reflexivity | vm_compute; reflexivity]. Qed.

(** *** The cursor-paginated handler *)

Section PagedScan.
Variable fetch : Paged.PScope -> Db.Result (ZipMetrics.SbResult Paged.VRow).

Let skipped (s : Paged.PScope) : Prop :=
  Notions.rows_of (fetch s) = [] /\ exists r, fetch s = inr r.

Lemma scan_spec (scopes : list Paged.PScope) :
  match Paged.scan fetch scopes with
  | inr (Some s, rows) =>
      rows = Notions.rows_of (fetch s) /\ rows <> []
      /\ exists before after,
           scopes = before ++ s :: after
           /\ forall s', In s' before -> skipped s'
  | inr (None, rows) => rows = [] /\ forall s, In s scopes -> skipped s
  | inl msg =>
      exists before s after,
        scopes = before ++ s :: after /\ fetch s = inl msg
        /\ forall s', In s' before -> skipped s'
  end.
Proof.
  induction scopes as [|s rest IH]; simpl.
  - split; trivial. intros s [].
  - assert (K : skipped s ->
              match Paged.scan fetch rest with
              | inr (Some s0, rows) =>
                  rows = Notions.rows_of (fetch s0) /\ rows <> []
                  /\ exists before after,
                       s :: rest = before ++ s0 :: after
                       /\ forall s', In s' before -> skipped s'
              | inr (None, rows) =>
                  rows = [] /\ forall s0, In s0 (s :: rest) -> skipped s0
              | inl msg =>
                  exists before s0 after,
                    s :: rest = before ++ s0 :: after /\ fetch s0 = inl msg
                    /\ forall s', In s' before -> skipped s'
              end).
    { intro Sk. destruct (Paged.scan fetch rest) as [msg | [[s0|] rows]].
      - destruct IH as (before & s0 & after & -> & F & B).
        exists (s :: before), s0, after.
        split; [reflexivity |]. split; [exact F |].
        intros t [Et | Ht]; [subst t |]; auto.
      - destruct IH as (E & N & before & after & -> & B).
        split; [exact E |]. split; [exact N |].
        exists (s :: before), after. split; [reflexivity |].
        intros t [Et | Ht]; [subst t |]; auto.
      - destruct IH as [E B]. split; [exact E |].
        intros t [Et | Ht]; [subst t |]; auto. }
    destruct (fetch s) as [msg | r] eqn:F.
    + exists [], s, rest.
      split; [reflexivity |]. split; [exact F |]. intros t [].
    + destruct (ZipMetrics.error r) as [e|] eqn:Er.
      * apply K. unfold skipped, Notions.rows_of. rewrite F, Er.
        split; [reflexivity | now exists r].
      * destruct (ZipMetrics.data r) as [[|x l]|] eqn:Dr.
        -- apply K. unfold skipped, Notions.rows_of. rewrite F, Er, Dr.
           split; [reflexivity | now exists r].
        -- split; [unfold Notions.rows_of; now rewrite F, Er, Dr |].
           split; [discriminate |].
           exists [], rest. split; [reflexivity |]. intros t [].
        -- apply K. unfold skipped, Notions.rows_of. rewrite F, Er, Dr.
           split; [reflexivity | now exists r].
Qed.
End PagedScan.

(** X20 (the scope loop of [handler], src/pages/api/claim-metrics.ts).
    The loop settles on the first scope, in the order tried, whose fetch
    resolves without error and with at least one row, and takes exactly its
    rows; every scope before it resolved with an error, without data or
    with no row.  If there is no such scope no scope is used and there are
    no rows; a fetch that rejects before one is found ends the loop with
    its message. *)
Theorem paged_scan_takes_first_scope_with_rows
    (fetch : Paged.PScope -> Db.Result (ZipMetrics.SbResult Paged.VRow))
    (scopes : list Paged.PScope) :
  let skipped s :=
    Notions.rows_of (fetch s) = [] /\ exists r, fetch s = inr r in
  match Paged.scan fetch scopes with
  | inr (Some s, rows) =>
      rows = Notions.rows_of (fetch s) /\ rows <> []
      /\ exists before after,
           scopes = before ++ s :: after
           /\ forall s', In s' before -> skipped s'
  | inr (None, rows) => rows = [] /\ forall s, In s scopes -> skipped s
  | inl msg =>
      exists before s after,
        scopes = before ++ s :: after /\ fetch s = inl msg
        /\ forall s', In s' before -> skipped s'
  end.
Proof. intro skipped. apply scan_spec. Qed.

Lemma substring_prefix_length (n : nat) (s : string) :
  String.length (substring 0 n s) = Nat.min n (String.length s).
Proof.
  revert s. induction n as [|n IH]; intros [|c s]; simpl; trivial.
  now rewrite IH.
Qed.

Lemma substring_prefix_twice (n m : nat) (s : string) :
  substring 0 n (substring 0 m s) = substring 0 (Nat.min n m) s.
Proof.
  revert m s. induction n as [|n IH]; intros [|m] [|c s]; simpl; trivial.
  now rewrite IH.
Qed.

Lemma last_some_none (A : Type) (l : list A) :
  last (map Some l) None = None <-> l = [].
Proof.
  destruct l as [|x l] using rev_ind; [split; reflexivity |].
  rewrite map_app. simpl. rewrite last_last. split; [discriminate |].
  intro C. now apply app_eq_nil in C.
Qed.

(** X21 ([zipFallbacks] and the scope list of [handler],
    src/pages/api/claim-metrics.ts).  The two fallbacks are the first five
    and the first three characters of the ZIP given, and both are absent
    when it is missing or empty.  The scopes tried are those of zip5, zip3,
    state, national that have their parameter, in this order, each once:
    national always and last, zip3 exactly when zip5, state exactly when a
    non-empty state is given. *)
Theorem paged_scopes_in_order (req : Paged.PRequest) :
  let zz := Paged.zipFallbacks (Paged.p_zip req) in
  let scopes := Paged.scopes_of req in
  (forall z, Paged.p_zip req = Some z -> z <> EmptyString ->
     zz = (Some (substring 0 5 z), Some (substring 0 3 z))
     /\ String.length (substring 0 5 z) = Nat.min 5 (String.length z)
     /\ String.length (substring 0 3 z) = Nat.min 3 (String.length z))
  /\ (Paged.p_zip req = None \/ Paged.p_zip req = Some EmptyString ->
      zz = (None, None))
  /\ scopes
     = filter (fun s => match s with
                        | Paged.PZip5 | Paged.PZip3 => Db.truthy (Paged.p_zip req)
                        | Paged.PState => Db.truthy (Paged.p_state req)
                        | Paged.PNational => true
                        end)
              [Paged.PZip5; Paged.PZip3; Paged.PState; Paged.PNational]
  /\ last scopes Paged.PZip5 = Paged.PNational
  /\ NoDup scopes
  /\ (1 <= List.length scopes <= 4)%nat.
Proof.
  intros zz scopes. unfold zz, scopes, Paged.scopes_of, Paged.zipFallbacks.
  split; [| split].
  - intros z E N. rewrite E. destruct z as [|c z]; [contradiction |].
    cbv zeta. rewrite substring_prefix_twice, !substring_prefix_length.
    repeat split.
  - intros [E | E]; now rewrite E.
  - destruct (Paged.p_zip req) as [[|c z]|];
      destruct (Paged.p_state req) as [[|d st]|]; simpl;
      repeat split; try lia;
      repeat constructor; simpl; intuition discriminate.
Qed.

Lemma lt_nan_r (a : JS.number) : JS.lt a JS.NaN = false.
Proof. now destruct a. Qed.

(** X22 ([LIMIT] of [handler], src/pages/api/claim-metrics.ts).  The page
    size is 50 when [limit] is absent, the value given when it lies between
    1 and 100, 1 below and 100 above, infinite values included; so it is
    always between 1 and 100, except that a [limit] that is not a number
    leaves it [NaN]. *)
Theorem page_limit_is_clamped (limit : option JS.number) :
  Paged.page_limit None = JS.Fin 50
  /\ (limit = Some JS.NaN <-> Paged.page_limit limit = JS.NaN)
  /\ (limit <> Some JS.NaN ->
      exists q, Paged.page_limit limit = JS.Fin q
                /\ (1 <= q)%Q /\ (q <= 100)%Q)
  /\ (forall q, (1 <= q)%Q -> (q <= 100)%Q ->
        Paged.page_limit (Some (JS.Fin q)) = JS.Fin q)
  /\ Paged.page_limit (Some (Paged.page_limit limit))
     = Paged.page_limit limit.
Proof.
  split; [reflexivity |].
  assert (R : limit <> Some JS.NaN ->
              exists q, Paged.page_limit limit = JS.Fin q
                        /\ (1 <= q)%Q /\ (q <= 100)%Q).
  { intro N. destruct limit as [[q| | |]|]; simpl.
    - destruct (JS.lt (JS.Fin q) (JS.Fin 1)) eqn:A.
      + exists 1%Q. repeat split; lra.
      + apply lt_finite_false in A.
        destruct (JS.gt (JS.Fin q) (JS.Fin 100)) eqn:B.
        * exists 100%Q. repeat split; lra.
        * exists q. repeat split; trivial.
          rewrite gt_lt in B. now apply lt_finite_false in B.
    - now elim N.
    - exists 100%Q. repeat split; lra.
    - exists 1%Q. repeat split; lra.
    - exists 50%Q. repeat split; lra. }
  assert (I : forall q, (1 <= q)%Q -> (q <= 100)%Q ->
              Paged.page_limit (Some (JS.Fin q)) = JS.Fin q).
  { intros q A B. simpl.
    apply lt_finite_false in A. rewrite A.
    assert (C : JS.gt (JS.Fin q) (JS.Fin 100) = false)
      by (rewrite gt_lt; now apply lt_finite_false).
    now rewrite C. }
  split; [| split; [exact R | split; [exact I |]]].
  - split; [now intros -> |].
    intro E. destruct limit as [[q| | |]|]; trivial; simpl in E;
      try discriminate.
    destruct (JS.lt (JS.Fin q) (JS.Fin 1)); try discriminate.
    destruct (JS.gt (JS.Fin q) (JS.Fin 100)); discriminate.
  - destruct limit as [[q| | |]|] eqn:E; try reflexivity;
      destruct R as (x & Ex & A & B); try discriminate;
      rewrite Ex; now apply I.
Qed.

(** X23 ([handler], src/pages/api/claim-metrics.ts).  A 200 payload names a
    used scope exactly when it has results, and then one of the scopes
    tried; its cursor is the id of the last result and absent exactly when
    there is no result; every result carries the claim number of its own
    id under the organisation of the request, [org_demo] when the header is
    missing or empty.  A 500 carries a non-empty message. *)
Theorem paged_payload_is_consistent (digest : string -> Z -> string)
    (fetch : Paged.PScope -> Db.Result (ZipMetrics.SbResult Paged.VRow))
    (req : Paged.PRequest) :
  match Paged.handler digest fetch req with
  | Paged.POk p =>
      Paged.pp_query_zip p = Paged.p_zip req
      /\ (Paged.pp_used_scope p = None <-> Paged.pp_results p = [])
      /\ (forall s, Paged.pp_used_scope p = Some s ->
            In s (Paged.scopes_of req)
            /\ map fst (Paged.pp_results p) = Notions.rows_of (fetch s))
      /\ (Paged.pp_nextCursor p = None <-> Paged.pp_results p = [])
      /\ (forall x rest, Paged.pp_results p = rest ++ [x] ->
            Paged.pp_nextCursor p = Some (Paged.v_id (fst x)))
      /\ (exists org,
            (org = "org_demo"%string \/ Paged.p_org req = Some org)
            /\ org <> EmptyString
            /\ forall x, In x (Paged.pp_results p) ->
                 snd x = digest org (Paged.v_id (fst x)))
  | Paged.PError msg => msg <> EmptyString
  end.
Proof.
  unfold Paged.handler.
  pose proof (@scan_spec fetch (Paged.scopes_of req)) as S.
  destruct (Paged.scan fetch (Paged.scopes_of req)) as [msg | [used rows]].
  - destruct msg; discriminate.
  - cbv zeta.
    cbn [Paged.pp_query_zip Paged.pp_used_scope Paged.pp_results
         Paged.pp_nextCursor].
    set (org := if Db.truthy (Paged.p_org req)
                then match Paged.p_org req with
                     | Some o => o
                     | None => EmptyString
                     end
                else "org_demo"%string).
    set (results := map (fun r => (r, digest org (Paged.v_id r))) rows).
    assert (Rn : results = [] <-> rows = []).
    { unfold results. split; [apply map_eq_nil | now intros ->]. }
    split; [reflexivity |]. split; [| split; [| split; [| split]]].
    + destruct used as [s|].
      * destruct S as (_ & N & _). split; [discriminate |].
        intro C. apply Rn in C. contradiction.
      * destruct S as [-> _]. split; reflexivity.
    + intros s E. destruct used as [s0|]; [| discriminate].
      injection E as ->.
      destruct S as (Er & _ & before & after & Es & _).
      split.
      * rewrite Es. apply in_or_app. right. now left.
      * unfold results. rewrite map_map. simpl. rewrite map_id. exact Er.
    + split; intro C.
      * destruct (last (map Some results) None) as [x|] eqn:E;
          [discriminate |].
        now apply last_some_none in E.
      * rewrite C. reflexivity.
    + intros x rest E. rewrite E, map_app. simpl. now rewrite last_last.
    + exists org. split; [| split].
      * unfold org. destruct (Paged.p_org req) as [[|c o]|]; simpl; auto.
      * unfold org. destruct (Paged.p_org req) as [[|c o]|]; simpl;
          discriminate.
      * intros x Hx. unfold results in Hx. apply in_map_iff in Hx.
        destruct Hx as (r & <- & _). reflexivity.
Qed.

(** *** The claim number *)

Lemma digit_for_is_digit (c : ascii) :
  ClaimNumber.is_af c = true -> Db.is_digit (ClaimNumber.digit_for c) = true.
Proof.
  unfold ClaimNumber.is_af, ClaimNumber.digit_for, Db.is_digit. intro H.
  apply andb_true_iff in H. destruct H as [A B].
  apply Nat.leb_le in A, B.
  rewrite nat_ascii_embedding by lia.
  apply andb_true_iff. split; apply Nat.leb_le; lia.
Qed.

Lemma replace_af_digits (h : string) :
  Notions.all_hex h = true -> Db.all_digits (ClaimNumber.replace_af h) = true.
Proof.
  induction h as [|c h IH]; simpl; trivial. intro H.
  apply andb_true_iff in H. destruct H as [Hc Hh].
  rewrite (IH Hh), andb_true_r.
  destruct (ClaimNumber.is_af c) eqn:A; [now apply digit_for_is_digit |].
  unfold Notions.is_hex in Hc. now rewrite A, orb_false_r in Hc.
Qed.

Lemma replace_af_length (h : string) :
  String.length (ClaimNumber.replace_af h) = String.length h.
Proof. induction h as [|c h IH]; simpl; congruence. Qed.

Lemma substring_digits (n : nat) (s : string) :
  Db.all_digits s = true -> Db.all_digits (substring 0 n s) = true.
Proof.
  revert s. induction n as [|n IH]; intros [|c s]; simpl; trivial.
  intro H. apply andb_true_iff in H. destruct H as [Hc Hs].
  now rewrite Hc, (IH s Hs).
Qed.

Lemma replace_af_prefix (n : nat) (h : string) :
  substring 0 n (ClaimNumber.replace_af h)
  = ClaimNumber.replace_af (substring 0 n h).
Proof.
  revert h. induction n as [|n IH]; intros [|c h]; simpl; trivial.
  now rewrite IH.
Qed.

Lemma claim_number_digits (sha : string -> string) (orgId : string)
    (rowId : Z) :
  (forall s, Notions.all_hex (sha s) = true
             /\ String.length (sha s) = 64%nat) ->
  String.length (ClaimNumber.makeStableClaimNumber sha orgId rowId) = 10%nat
  /\ Db.all_digits (ClaimNumber.makeStableClaimNumber sha orgId rowId) = true.
Proof.
  intro H. unfold ClaimNumber.makeStableClaimNumber. cbv zeta.
  set (h := sha _). destruct (H (orgId ++ ":" ++
                 NilZero.string_of_int (Z.to_int rowId))%string) as [A B].
  fold h in A, B. split.
  - rewrite substring_prefix_length, replace_af_length, B. reflexivity.
  - apply substring_digits, replace_af_digits, A.
Qed.

(** X24 ([makeStableClaimNumber] and [handler],
    src/pages/api/claim-metrics.ts).  For a digest of 64 lower-case
    hexadecimal characters the claim number is exactly ten decimal digits,
    and so is the number of every result of the handler.  It is read off
    the first ten characters of the digest alone, each letter [a]..[f]
    giving the digit [0]..[5]: two digests that differ only by a letter
    against its digit give the same number. *)
Theorem claim_number_is_ten_digits (sha : string -> string) :
  (forall s, Notions.all_hex (sha s) = true
             /\ String.length (sha s) = 64%nat) ->
  (forall orgId rowId,
      String.length (ClaimNumber.makeStableClaimNumber sha orgId rowId)
      = 10%nat
      /\ Db.all_digits (ClaimNumber.makeStableClaimNumber sha orgId rowId)
         = true)
  /\ (forall fetch req p,
        Paged.handler (ClaimNumber.makeStableClaimNumber sha) fetch req
        = Paged.POk p ->
        forall x, In x (Paged.pp_results p) ->
          String.length (snd x) = 10%nat /\ Db.all_digits (snd x) = true)
  /\ (forall h t,
        String.length h = 10%nat ->
        substring 0 10 (ClaimNumber.replace_af (h ++ t))
        = ClaimNumber.replace_af h)
  /\ ClaimNumber.replace_af "abcdef0123456789" = "0123450123456789"%string.
Proof.
  intro H. split; [intros; now apply claim_number_digits |].
  split; [| split; [| reflexivity]].
  - intros fetch req p E x Hx. unfold Paged.handler in E.
    destruct (Paged.scan fetch (Paged.scopes_of req)) as [msg | [used rows]];
      [discriminate |].
    injection E as <-. cbn [Paged.pp_results] in Hx.
    apply in_map_iff in Hx. destruct Hx as (r & <- & _).
    now apply claim_number_digits.
  - intros h t L. rewrite replace_af_prefix. f_equal.
    revert L. generalize 10%nat. clear.
    induction h as [|c h IH]; intros [|n] L; simpl in *; try discriminate.
    + now destruct t.
    + f_equal. apply IH. now injection L.
Qed.

(** A stand-in digest that is constant. *)
Lemma claim_number_is_ten_digits_witness :
  let sha (_ : string) :=
    "a3f0c29e5b7d1846a3f0c29e5b7d1846a3f0c29e5b7d1846a3f0c29e5b7d1846"%string
  in
  (forall s, Notions.all_hex (sha s) = true
             /\ String.length (sha s) = 64%nat)
  /\ String.length (ClaimNumber.makeStableClaimNumber sha "org_demo" 7)
     = 10%nat
  /\ Db.all_digits (ClaimNumber.makeStableClaimNumber sha "org_demo" 7) = true.
Proof.
  intro sha.
  assert (H : forall s, Notions.all_hex (sha s) = true
                        /\ String.length (sha s) = 64%nat)
    by (intro s; split; reflexivity).
  split; [exact H |].
  exact (proj1 (@claim_number_is_ten_digits sha H) "org_demo"%string 7%Z).
Defined.

(** *** The queries over the tables *)

Lemma filter_narrower (A : Type) (p q : A -> bool) (l : list A) :
  (forall x, p x = true -> q x = true) ->
  filter p l = filter p (filter q l).
Proof.
  intro H. induction l as [|x l IH]; simpl; trivial.
  destruct (p x) eqn:P.
  - rewrite (H x P). simpl. rewrite P. now f_equal.
  - destruct (q x); simpl; [rewrite P |]; exact IH.
Qed.

Lemma narrower_rows (p q : Sql.Claim -> bool) (l : list Sql.Claim) :
  (forall x, p x = true -> q x = true) ->
  incl (map Sql.project (filter p l)) (map Sql.project (filter q l))
  /\ (List.length (map Sql.project (filter p l))
      <= List.length (map Sql.project (filter q l)))%nat.
Proof.
  intro H. rewrite (filter_narrower p q l H). split.
  - intros r Hr. apply in_map_iff in Hr. destruct Hr as (c & <- & Hc).
    apply in_map. apply filter_In in Hc. tauto.
  - rewrite !length_map. apply filter_length_le.
Qed.

Lemma cpt_years_window (cpt : string) (y0 y1 : JS.number) (c : Sql.Claim) :
  Sql.cpt_years cpt y0 y1 c = true ->
  Spec.in_window y0 y1 (Sql.project c) = true.
Proof.
  unfold Sql.cpt_years, Spec.in_window. simpl. intro H.
  apply andb_true_iff in H. destruct H as [H B].
  apply andb_true_iff in H. destruct H as [_ A]. now rewrite A, B.
Qed.

(** X25 (the SQL of [handler], src/unnamed/part_000 and part_001).  Over
    the same tables the exact-ZIP rows are among the ZIP3 rows of the ZIP's
    first three characters, and those, like the rows of any state, are
    among the national rows: widening from exact ZIP to ZIP3 to national
    never loses a row, so the row counts only grow.  Every row that any of
    the five queries returns has its year inside the year window. *)
Theorem sql_scopes_nest (dist : Q -> Q -> Q -> Q -> Q) (db : Sql.Tables)
    (zip cpt st : string) (y0 y1 : JS.number) :
  let rows := Sql.run_claims dist db in
  let exact := rows (Db.ByZip zip cpt y0 y1) in
  let prefix := rows (Db.ByZip3 (substring 0 3 zip) cpt y0 y1) in
  let region := rows (Db.ByState st cpt y0 y1) in
  let national := rows (Db.Nationwide cpt y0 y1) in
  incl exact prefix /\ incl prefix national /\ incl region national
  /\ (List.length exact <= List.length prefix)%nat
  /\ (List.length prefix <= List.length national)%nat
  /\ (List.length region <= List.length national)%nat
  /\ forall q r,
       (exists a b n, q = Db.ByRadius a b n cpt y0 y1)
       \/ In q [Db.ByZip zip cpt y0 y1;
                Db.ByZip3 (substring 0 3 zip) cpt y0 y1;
                Db.ByState st cpt y0 y1; Db.Nationwide cpt y0 y1] ->
       In r (rows q) -> Spec.in_window y0 y1 r = true.
Proof.
  intros rows exact prefix region national.
  unfold exact, prefix, region, national, rows, Sql.run_claims.
  set (T := Sql.claims_table db).
  assert (A : forall x : Sql.Claim,
            String.eqb (Sql.c_zip5 x) zip && Sql.cpt_years cpt y0 y1 x = true ->
            String.eqb (substring 0 3 (Sql.c_zip5 x)) (substring 0 3 zip)
            && Sql.cpt_years cpt y0 y1 x = true).
  { intros x H. apply andb_true_iff in H. destruct H as [H1 H2].
    apply String.eqb_eq in H1. rewrite H1, String.eqb_refl. exact H2. }
  assert (B : forall (f : Sql.Claim -> bool) (x : Sql.Claim),
            f x && Sql.cpt_years cpt y0 y1 x = true ->
            Sql.cpt_years cpt y0 y1 x = true).
  { intros f x H. apply andb_true_iff in H. tauto. }
  destruct (narrower_rows _ _ T A) as [I1 L1].
  destruct (narrower_rows _ _ T
              (B (fun c => String.eqb (substring 0 3 (Sql.c_zip5 c))
                             (substring 0 3 zip)))) as [I2 L2].
  destruct (narrower_rows _ _ T
              (B (fun c => match Sql.c_state c with
                           | Some s => String.eqb s st
                           | None => false
                           end))) as [I3 L3].
  repeat (split; [assumption |]).
  assert (W : forall (f : Sql.Claim -> bool) r,
            In r (map Sql.project
                    (filter (fun c => f c && Sql.cpt_years cpt y0 y1 c) T)) ->
            Spec.in_window y0 y1 r = true).
  { intros f r Hr. apply in_map_iff in Hr. destruct Hr as (c & <- & Hc).
    apply filter_In in Hc. destruct Hc as [_ Hc].
    apply (cpt_years_window cpt). exact (B f c Hc). }
  intros q r Hq Hr.
  destruct Hq as [(a & b & n & ->) | [<- | [<- | [<- | [<- | []]]]]].
  - apply in_flat_map in Hr. destruct Hr as (nr & _ & Hr).
    exact (W _ r Hr).
  - exact (W _ r Hr).
  - exact (W _ r Hr).
  - exact (W _ r Hr).
  - apply in_map_iff in Hr. destruct Hr as (c & <- & Hc).
    apply filter_In in Hc. now apply (cpt_years_window cpt).
Qed.

Lemma in_firstn (A : Type) (n : nat) (l : list A) (x : A) :
  In x (firstn n l) -> In x l.
Proof.
  intro H. rewrite <- (firstn_skipn n l). apply in_or_app. now left.
Qed.

Lemma in_skipn (A : Type) (n : nat) (l : list A) (x : A) :
  In x (skipn n l) -> In x l.
Proof.
  intro H. rewrite <- (firstn_skipn n l). apply in_or_app. now right.
Qed.

Lemma sorted_firstn (A : Type) (R : A -> A -> Prop) (n : nat) (l : list A) :
  StronglySorted R l -> StronglySorted R (firstn n l).
Proof.
  intro S. revert n. induction S as [|a l S IH Hall]; intros [|n]; simpl;
    try constructor; auto.
  rewrite Forall_forall in *. intros x Hx. apply Hall.
  exact (@in_firstn _ _ _ _ Hx).
Qed.

Lemma sorted_split (A : Type) (R : A -> A -> Prop) (n : nat) (l : list A) :
  StronglySorted R l ->
  forall a b, In a (firstn n l) -> In b (skipn n l) -> R a b.
Proof.
  intro S. revert n. induction S as [|x l S IH Hall]; intros n a b Ha Hb.
  - destruct n; contradiction.
  - destruct n as [|n]; [contradiction |]. simpl in Ha, Hb.
    destruct Ha as [<- | Ha].
    + rewrite Forall_forall in Hall. apply Hall.
      exact (@in_skipn _ _ _ _ Hb).
    + exact (IH n a b Ha Hb).
Qed.

(** X26 (the [nearest] CTE and the nearest-1 query of [handler],
    src/unnamed/part_000 and part_001).  The radius candidates are the
    [limit] locations of [zip_geometry] nearest to the query centroid, all
    of them when there are fewer: listed by ascending distance, none farther
    than a location left out, each a location of the table with its own
    distance. *)
Theorem sql_nearest_are_the_nearest (dist : Q -> Q -> Q -> Q -> Q)
    (db : Sql.Tables) (qlat qlon : Q) (limit : nat) :
  let far z := dist qlat qlon (Sql.z_lat z) (Sql.z_lon z) in
  let ordered := Sql.by_distance dist db qlat qlon in
  let near := Sql.nearest_rows dist db qlat qlon limit in
  Permutation ordered (Sql.zip_geometry db)
  /\ List.length near = Nat.min limit (List.length (Sql.zip_geometry db))
  /\ StronglySorted
       (fun a b => JS.le (Db.n_dist_mi a) (Db.n_dist_mi b) = true) near
  /\ (forall n, In n near ->
        exists z, In z (Sql.zip_geometry db) /\ In z (firstn limit ordered)
                  /\ Db.n_zip5 n = Sql.z_zip5 z
                  /\ Db.n_dist_mi n = JS.Fin (far z))
  /\ (forall z z', In z (firstn limit ordered) -> In z' (skipn limit ordered) ->
        (far z <= far z')%Q).
Proof.
  intros far ordered near.
  pose proof (sort_by_key_sorted far (Sql.zip_geometry db)) as S.
  change (JS.sort _ (Sql.zip_geometry db)) with ordered in S.
  assert (P : Permutation ordered (Sql.zip_geometry db))
    by apply sort_perm.
  split; [exact P |]. split; [| split; [| split]].
  - unfold near, Sql.nearest_rows. fold ordered.
    rewrite length_map, length_firstn, (Permutation_length P). reflexivity.
  - unfold near, Sql.nearest_rows. fold ordered.
    apply sorted_map. simpl.
    apply (sorted_firstn limit) in S.
    revert S. generalize (firstn limit ordered). intros l S.
    induction S as [|a l S IH Hall]; constructor; trivial.
    rewrite Forall_forall in *. intros b Hb. apply le_finite.
    now apply Hall.
  - intros n Hn. unfold near, Sql.nearest_rows in Hn. fold ordered in Hn.
    apply in_map_iff in Hn. destruct Hn as (z & <- & Hz).
    exists z. repeat split; trivial.
    apply (Permutation_in _ P). exact (@in_firstn _ _ _ _ Hz).
  - intros z z' Hz Hz'.
    exact (@sorted_split _ (fun a b => (far a <= far b)%Q) limit ordered S
             z z' Hz Hz').
Qed.

(** *** The masked connection string *)

Lemma no_at_no_match (s : string) (k : nat) :
  Notions.occurs "@" s = false -> DebugDb.after_last_at k s = None.
Proof.
  revert k. induction s as [|c s IH]; intros k H;
    cbn [Notions.occurs DebugDb.after_last_at] in *; trivial.
  apply orb_false_iff in H. destruct H as [Hc Hs].
  rewrite (IH (S k) Hs). rewrite Ascii.eqb_sym in Hc. rewrite Hc.
  now destruct (DebugDb.line_end c).
Qed.

Lemma last_at_found (mid post : string) (k : nat) :
  Notions.one_line mid = true -> Notions.occurs "@" post = false ->
  (1 <= k + String.length mid)%nat ->
  DebugDb.after_last_at k (mid ++ String "@" post) = Some post.
Proof.
  intros L N. revert k. induction mid as [|c mid IH]; intros k K;
    cbn [append Notions.one_line DebugDb.after_last_at String.length] in *.
  - rewrite (no_at_no_match post (S k) N).
    change (DebugDb.line_end "@") with false.
    change (Ascii.eqb "@" "@") with true.
    replace (1 <=? k) with true by (symmetry; apply Nat.leb_le; lia).
    reflexivity.
  - apply andb_true_iff in L. destruct L as [Lc Lm].
    apply negb_true_iff in Lc. rewrite Lc.
    rewrite (IH Lm (S k)) by lia. reflexivity.
Qed.

Lemma mask_before_colon (pre s : string) :
  Notions.occurs ":" pre = false ->
  DebugDb.mask (pre ++ s) = (pre ++ DebugDb.mask s)%string.
Proof.
  induction pre as [|c pre IH]; intro H;
    cbn [append Notions.occurs DebugDb.mask] in *; trivial.
  apply orb_false_iff in H. destruct H as [Hc Hp].
  rewrite Ascii.eqb_sym in Hc. rewrite Hc. now rewrite (IH Hp).
Qed.

Lemma mask_without_at (raw : string) :
  Notions.occurs "@" raw = false -> DebugDb.mask raw = raw.
Proof.
  induction raw as [|c raw IH]; intro H;
    cbn [Notions.occurs DebugDb.mask] in *; trivial.
  apply orb_false_iff in H. destruct H as [_ Hr].
  rewrite (no_at_no_match raw 0 Hr), (IH Hr).
  now destruct (Ascii.eqb c ":").
Qed.

Lemma mask_without_colon (raw : string) :
  Notions.occurs ":" raw = false -> DebugDb.mask raw = raw.
Proof.
  induction raw as [|c raw IH]; intro H;
    cbn [Notions.occurs DebugDb.mask] in *; trivial.
  apply orb_false_iff in H. destruct H as [Hc Hr].
  rewrite Ascii.eqb_sym in Hc. now rewrite Hc, (IH Hr).
Qed.

(** X27 (the masked echo of src/api/debug-db.js).  In a connection string
    the text from the first colon up to the last [@] after it is replaced
    by [:*****@]: nothing of what stood between them is echoed, also when
    the password itself holds a colon or an [@]; what precedes the colon
    and what follows the [@] are echoed unchanged.  A string without a
    colon or without an [@] is echoed as it is.  As the scheme's colon is
    the first one, the [//] and the user name are masked with the
    password. *)
Theorem mask_hides_from_first_colon_to_last_at (pre mid post : string) :
  Notions.occurs ":" pre = false ->
  mid <> EmptyString ->
  Notions.one_line mid = true ->
  Notions.occurs "@" post = false ->
  DebugDb.mask (pre ++ ":" ++ mid ++ "@" ++ post)
  = (pre ++ ":*****@" ++ post)%string
  /\ DebugDb.mask pre = pre
  /\ DebugDb.mask post = post
  /\ DebugDb.mask EmptyString = EmptyString.
Proof.
  intros P M L N. split; [| split; [| split; [| reflexivity]]].
  - rewrite (@mask_before_colon pre _ P). f_equal.
    change (":" ++ mid ++ "@" ++ post)%string
      with (String ":" (mid ++ String "@" post)).
    cbn [DebugDb.mask]. change (Ascii.eqb ":" ":") with true. cbv iota.
    rewrite (@last_at_found mid post 0 L N); [reflexivity |].
    destruct mid; [contradiction | simpl; lia].
  - now apply mask_without_colon.
  - now apply mask_without_at.
Qed.

(** A Postgres URL whose password holds an [@] and a colon. *)
Lemma mask_hides_from_first_colon_to_last_at_witness :
  Notions.occurs ":" "postgresql" = false
  /\ "//app:p@ss:w0rd"%string <> EmptyString
  /\ Notions.one_line "//app:p@ss:w0rd" = true
  /\ Notions.occurs "@" "db.example.com:5432/postgres" = false
  /\ DebugDb.mask "postgresql://app:p@ss:w0rd@db.example.com:5432/postgres"
     = "postgresql:*****@db.example.com:5432/postgres"%string.
Proof.
  assert (P : Notions.occurs ":" "postgresql" = false) by reflexivity.
  assert (M : "//app:p@ss:w0rd"%string <> EmptyString) by discriminate.
  assert (L : Notions.one_line "//app:p@ss:w0rd" = true) by reflexivity.
  assert (N : Notions.occurs "@" "db.example.com:5432/postgres" = false)
    by reflexivity.
  repeat (split; [assumption |]).
  exact (proj1 (@mask_hides_from_first_colon_to_last_at
                  "postgresql" "//app:p@ss:w0rd"
                  "db.example.com:5432/postgres" P M L N)).
Defined.

(** *** The distance reported with the radius scope *)

Lemma geo_row_source (db : Sql.Tables) (zip : string) (g : Db.GeoRow) :
  hd_error (Sql.run_geo db zip) = Some g ->
  exists z, In z (Sql.zip_geometry db) /\ Sql.z_zip5 z = zip
            /\ Db.g_lat g = Sql.z_lat z /\ Db.g_lon g = Sql.z_lon z
            /\ Db.g_state g = Sql.z_state z.
Proof.
  unfold Sql.run_geo. intro H.
  destruct (filter (fun z => String.eqb (Sql.z_zip5 z) zip)
                   (Sql.zip_geometry db)) as [|z l] eqn:E; [discriminate |].
  simpl in H. injection H as <-.
  assert (Hin : In z (filter (fun z => String.eqb (Sql.z_zip5 z) zip)
                             (Sql.zip_geometry db)))
    by (rewrite E; now left).
  apply filter_In in Hin. destruct Hin as [Hin Hz].
  apply String.eqb_eq in Hz. exists z. repeat split; trivial.
Qed.

(** X28 ([handler], src/unnamed/part_000, lines 121-135).  When the
    distance expression is never negative and is zero from a point to
    itself, as the great-circle distance is, a response of the cascade
    without row filters at the radius scope always carries
    [distance_miles: null]: the query location is itself a row of
    [zip_geometry], so the nearest row is at distance zero, and
    [dist_mi || null] turns zero into [null].  The representative is a
    location at distance zero from the query location. *)
Theorem unfiltered_radius_distance_is_null (dist : Q -> Q -> Q -> Q -> Q)
    (db : Sql.Tables) (req : Db.Request) (e : Wire.Envelope) :
  (forall a b c d, (0 <= dist a b c d)%Q) ->
  (forall a b, (dist a b a b == 0)%Q) ->
  Spec.valid req ->
  Wire.level (Wire.used_scope e) = Some "radius"%string ->
  snd (Unfiltered.handler (inr (Sql.client dist db)) req)
  = Wire.Json 200 (Wire.BEnvelope e) ->
  Wire.distance_miles (Wire.meta (Wire.used_scope e)) = Some None
  /\ exists g z,
       hd_error (Sql.run_geo db (Db.zip req)) = Some g
       /\ In z (Sql.zip_geometry db)
       /\ (dist (Db.g_lat g) (Db.g_lon g) (Sql.z_lat z) (Sql.z_lon z) == 0)%Q
       /\ Wire.representative_zip (Wire.meta (Wire.used_scope e))
          = Some (if Db.truthy (Some (Sql.z_zip5 z)) then Sql.z_zip5 z
                  else Db.zip req).
Proof.
  intros Pos Zero Hv Hlvl Hresp.
  set (rowsf := Sql.run_claims dist db).
  set (geof := Sql.run_geo db).
  set (nearf := fun a b => Sql.nearest_rows dist db a b 1).
  change (Sql.client dist db) with (Spec.total_client rowsf geof nearf)
    in Hresp.
  destruct (unfiltered_total rowsf geof nearf Hv) as [_ UR].
  rewrite UR in Hresp. clear UR.
  destruct (Spec.first_qualifying _ _) as [[s q]|] eqn:F.
  2:{ injection Hresp as <-. discriminate. }
  match type of Hresp with
  | context [Db.json (Unfiltered.summarize ?r ?m ?z ?a ?b ?l)] =>
      destruct (unfiltered_accept r m z a b l)
        as [(_ & Hj) | (_ & e' & Hj & _ & Hl & _ & Hmeta & _)];
      rewrite Hj in Hresp; [discriminate |]
  end.
  injection Hresp as <-. rewrite Hl in Hlvl. injection Hlvl as Hs.
  apply label_radius in Hs. subst s.
  destruct (first_qualifying_some _ _ F) as [Hin _].
  destruct (hd_error (geof (Db.zip req))) as [g|] eqn:Eg.
  2:{ simpl in Hin. intuition discriminate. }
  destruct (@nearest_one dist db (Db.g_lat g) (Db.g_lon g)
              (@geo_row_in_table db (Db.zip req) g Eg))
    as (z & Hz & Hrows & Hzin & Hmin).
  destruct (@geo_row_source db (Db.zip req) g Eg)
    as (z0 & Hz0 & _ & Hlat & Hlon & _).
  assert (D : (dist (Db.g_lat g) (Db.g_lon g) (Sql.z_lat z) (Sql.z_lon z)
               == 0)%Q).
  { pose proof (Hmin z0 Hz0) as M. rewrite <- Hlat, <- Hlon in M.
    rewrite Zero in M.
    pose proof (Pos (Db.g_lat g) (Db.g_lon g) (Sql.z_lat z) (Sql.z_lon z)).
    lra. }
  rewrite Hmeta. simpl. unfold nearf. rewrite Hrows. split.
  - unfold Unfiltered.repDist. cbn [Db.n_dist_mi].
    apply Qeq_bool_iff in D. now rewrite D.
  - exists g, z. repeat split; trivial.
Qed.

(** Twelve claims at a neighbouring location; the distance is a planar
    stand-in for the great-circle one. *)
Lemma unfiltered_radius_distance_is_null_witness :
  let dist (qlat qlon lat lon : Q) :=
    ((lat - qlat) * (lat - qlat) + (lon - qlon) * (lon - qlon))%Q in
  let claim := {| Sql.c_zip5 := "20002"; Sql.c_state := Some "DC"%string;
                  Sql.c_cpt := "99213"; Sql.c_paid_amt := JS.Fin 100;
                  Sql.c_dos_year := JS.Fin 2022 |} in
  let db := {| Sql.claims_table := repeat claim 12;
               Sql.zip_geometry :=
                 [ {| Sql.z_zip5 := "20002"; Sql.z_state := Some "DC"%string;
                      Sql.z_lat := 39; Sql.z_lon := -77 |};
                   {| Sql.z_zip5 := "10001"; Sql.z_state := None;
                      Sql.z_lat := 40; Sql.z_lon := -74 |} ] |} in
  let req := {| Db.method := "GET"; Db.zip := "10001"; Db.cpt := "99213";
                Db.year_from := JS.Fin 2021; Db.year_to := JS.Fin 2025;
                Db.debug := false; Db.exclude_zero := false;
                Db.min_paid := JS.Fin 0 |} in
  exists e,
    (forall a b c d, (0 <= dist a b c d)%Q)
    /\ (forall a b, (dist a b a b == 0)%Q)
    /\ Spec.valid req
    /\ Wire.level (Wire.used_scope e) = Some "radius"%string
    /\ snd (Unfiltered.handler (inr (Sql.client dist db)) req)
       = Wire.Json 200 (Wire.BEnvelope e)
    /\ Wire.distance_miles (Wire.meta (Wire.used_scope e)) = Some None.
Proof.
  intros dist claim db req.
  assert (Pos : forall a b c d, (0 <= dist a b c d)%Q).
  { intros a b c d. unfold dist.
    assert (forall x : Q, (0 <= x * x)%Q) by (intro x; nra).
    pose proof (H (c - a)%Q). pose proof (H (d - b)%Q). lra. }
  assert (Zero : forall a b, (dist a b a b == 0)%Q)
    by (intros a b; unfold dist; ring).
  assert (V : Spec.valid req) by (repeat split).
  destruct (snd (Unfiltered.handler (inr (Sql.client dist db)) req))
    as [| st [e | | |]] eqn:E; try (vm_compute in E; discriminate).
  assert (Hst : st = 200%nat) by (vm_compute in E; congruence).
  subst st.
  assert (L : Wire.level (Wire.used_scope e) = Some "radius"%string)
    by (vm_compute in E; injection E as <-; reflexivity).
  exists e. repeat (split; [assumption || reflexivity |]).
  exact (proj1 (@unfiltered_radius_distance_is_null dist db req e
                  Pos Zero V L E)).
Defined.

(** *** What the 500 answer discloses *)

(** X29 (the [catch] block of [handler], src/unnamed/part_000 and
    part_001).  A cascade handler sends the server-error body only with
    status 500, and its [detail] exactly when the request asks for
    [debug=1]: without it no message of the store is disclosed. *)
Theorem server_error_detail_only_under_debug (pool : Db.Pool)
    (req : Db.Request) (status : nat) (detail : option string) :
  snd (Filtered.handler pool req)
    = Wire.Json status (Wire.BServerError detail)
  \/ snd (Unfiltered.handler pool req)
     = Wire.Json status (Wire.BServerError detail) ->
  status = 500%nat
  /\ (Db.debug req = false -> detail = None)
  /\ (Db.debug req = true -> detail <> None).
Proof.
  assert (K : forall r : Wire.Response,
            (exists msg, r = Db.server_error req msg)
            \/ r = Wire.Json 200 Wire.BNull \/ Notions.outcome req r
            \/ r = Wire.End_ 200 \/ r = Wire.Json 400 Wire.BBadParams ->
            r = Wire.Json status (Wire.BServerError detail) ->
            status = 500%nat
            /\ (Db.debug req = false -> detail = None)
            /\ (Db.debug req = true -> detail <> None)).
  { intros r H E. subst r.
    destruct H as [[msg H] | [H | [[H | (e & H & _)] | [H | H]]]];
      try discriminate.
    unfold Db.server_error in H. injection H as -> ->.
    split; trivial. destruct (Db.debug req); split; intro; congruence. }
  assert (C : Spec.valid req
              \/ (forall pool,
                    (snd (Filtered.handler pool req) = Wire.End_ 200
                     \/ snd (Filtered.handler pool req)
                        = Wire.Json 400 Wire.BBadParams)
                    /\ (snd (Unfiltered.handler pool req) = Wire.End_ 200
                        \/ snd (Unfiltered.handler pool req)
                           = Wire.Json 400 Wire.BBadParams))).
  { unfold Spec.valid, Filtered.handler, Unfiltered.handler.
    destruct (String.eqb (Db.method req) "OPTIONS");
      [right; intro; split; now left |].
    destruct (Db.zip_ok (Db.zip req)), (Db.cpt_ok (Db.cpt req)); simpl;
      try (right; intro; split; now right).
    left. repeat split. }
  destruct C as [V | I].
  - destruct (@cascade_answers pool req V) as (F & _ & U).
    intros [E | E]; apply (K _) in E; trivial; tauto.
  - destruct (I pool) as [F U].
    intros [E | E]; apply (K _) in E; trivial; tauto.
Qed.

(** A refused connection, under [debug=1]. *)
Lemma server_error_detail_only_under_debug_witness :
  let req := {| Db.method := "GET"; Db.zip := "10001"; Db.cpt := "99213";
                Db.year_from := JS.Fin 2021; Db.year_to := JS.Fin 2025;
                Db.debug := true; Db.exclude_zero := false;
                Db.min_paid := JS.Fin 0 |} in
  let pool : Db.Pool := inl "pool exhausted"%string in
  (snd (Filtered.handler pool req)
     = Wire.Json 500 (Wire.BServerError (Some "pool exhausted"%string))
   \/ snd (Unfiltered.handler pool req)
      = Wire.Json 500 (Wire.BServerError (Some "pool exhausted"%string)))
  /\ 500%nat = 500%nat
  /\ (Db.debug req = false -> Some "pool exhausted"%string = None)
  /\ (Db.debug req = true -> Some "pool exhausted"%string <> None).
Proof.
  intros req pool.
  assert (H : snd (Filtered.handler pool req)
              = Wire.Json 500 (Wire.BServerError (Some "pool exhausted"%string))
              \/ snd (Unfiltered.handler pool req)
                 = Wire.Json 500
                     (Wire.BServerError (Some "pool exhausted"%string)))
    by (left; reflexivity).
  split; [exact H |].
  exact (@server_error_detail_only_under_debug pool req 500
           (Some "pool exhausted"%string) H).
Defined.

(** *** The two cascades side by side *)

Lemma filter_keeps_all (A : Type) (f : A -> bool) (l : list A) :
  (forall x, In x l -> f x = true) -> filter f l = l.
Proof.
  induction l as [|x l IH]; intro H; simpl; trivial.
  rewrite (H x (or_introl eq_refl)). f_equal. apply IH.
  intros y Hy. apply H. now right.
Qed.

Lemma first_qualifying_ext (c1 c2 : Db.ClaimsQuery -> nat)
    (l : list (Spec.Scope * Db.ClaimsQuery)) :
  (forall q, c1 q = c2 q) ->
  Spec.first_qualifying c1 l = Spec.first_qualifying c2 l
  /\ Spec.tried c1 l = Spec.tried c2 l.
Proof.
  intro H. unfold Spec.first_qualifying.
  induction l as [|sq l IH]; [split; reflexivity |].
  cbn [find Spec.tried]. rewrite H. destruct IH as [-> ->].
  split; reflexivity.
Qed.

(** X30 ([handler] of src/unnamed/part_000 against src/unnamed/part_001).
    Over a store that answers and whose rows all pass the row filter of
    the request, the two cascade handlers send the same claim queries,
    accept the same scope and report the same level, sample size, year
    window, mean, median, p25 and trend; where no scope qualifies both send
    the no-data result.  They can then differ only in p75 and in the
    metadata of the scope. *)
Theorem cascades_agree_when_nothing_is_filtered
    (rowsf : Db.ClaimsQuery -> list Wire.Row)
    (geof : string -> list Db.GeoRow) (nearf : Q -> Q -> list Db.NearRow)
    (req : Db.Request) :
  Spec.valid req ->
  (forall q r, In r (rowsf q) ->
     Filtered.keep_row (Db.exclude_zero req) (Db.min_paid req) r = true) ->
  let c := Spec.total_client rowsf geof nearf in
  let shown (e : Wire.Envelope) :=
    (Wire.query_zip e, Wire.level (Wire.used_scope e),
     Wire.sample_size (Wire.used_scope e),
     option_map (fun t => (Wire.year_window t, Wire.mean t, Wire.median t,
                           Wire.p25 t, Wire.trend_by_year t))
                (Wire.metrics e)) in
  exists e f,
    snd (Filtered.handler (inr c) req) = Wire.Json 200 (Wire.BEnvelope e)
    /\ snd (Unfiltered.handler (inr c) req) = Wire.Json 200 (Wire.BEnvelope f)
    /\ shown e = shown f
    /\ Spec.claim_queries (fst (Filtered.handler (inr c) req))
       = Spec.claim_queries (fst (Unfiltered.handler (inr c) req)).
Proof.
  intros V K c shown.
  assert (FR : forall q, Filtered.filterRows (rowsf q) (Db.exclude_zero req)
                           (Db.min_paid req) = rowsf q)
    by (intro q; apply filter_keeps_all; apply K).
  destruct (@filtered_total rowsf geof nearf req V) as [LF HF].
  destruct (@unfiltered_total rowsf geof nearf req V) as [LU HU].
  fold c in LF, HF, LU, HU.
  set (cands := Spec.candidates req (hd_error (geof (Db.zip req)))) in *.
  destruct (@first_qualifying_ext
              (fun q => List.length
                 (Filtered.filterRows (rowsf q) (Db.exclude_zero req)
                    (Db.min_paid req)))
              (fun q => List.length (rowsf q)) cands) as [E1 E2];
    [intro q; now rewrite FR |].
  rewrite E1 in HF. rewrite E2 in LF.
  assert (Q : Spec.claim_queries (fst (Filtered.handler (inr c) req))
              = Spec.claim_queries (fst (Unfiltered.handler (inr c) req)))
    by (now rewrite LF, LU).
  destruct (Spec.first_qualifying (fun q => List.length (rowsf q)) cands)
    as [[s q]|] eqn:F.
  - destruct HF as (e & He & Re). rewrite FR in He.
    destruct (first_qualifying_some _ _ F) as [_ G].
    assert (N : JS.finite_only (map Wire.paid_amt (rowsf q)) <> []).
    { intro C.
      assert (L : List.length (JS.finite_only (map Wire.paid_amt (rowsf q)))
                  = List.length (rowsf q)).
      { apply finite_only_all. apply Forall_forall. intros r Hr.
        exact (@keep_row_finite _ _ _ (K q r Hr)). }
      rewrite C in L. simpl in L. unfold MIN_N in G. lia. }
    rewrite (filtered_summarize (rowsf q) (Spec.meta_filtered req _ s)
               (Db.zip req) (Db.year_from req)
               (Db.year_to req) (Spec.label s) N) in He.
    rewrite (unfiltered_summarize (rowsf q) (Spec.meta_unfiltered req _ _ s)
               (Db.zip req) (Db.year_from req)
               (Db.year_to req) (Spec.label s) N) in HU.
    injection He as <-.
    eexists _, _. split; [exact Re |]. split; [exact HU |].
    split; [reflexivity | exact Q].
  - eexists _, _. split; [exact HF |]. split; [exact HU |].
    split; [reflexivity | exact Q].
Qed.

(** Default parameters over a store of positive finite amounts. *)
Lemma cascades_agree_when_nothing_is_filtered_witness :
  let req := {| Db.method := "GET"; Db.zip := "10001"; Db.cpt := "99213";
                Db.year_from := JS.Fin 2021; Db.year_to := JS.Fin 2025;
                Db.debug := false; Db.exclude_zero := false;
                Db.min_paid := JS.Fin 0 |} in
  let row a := {| Wire.paid_amt := JS.Fin a; Wire.dos_year := JS.Fin 2022 |} in
  let rowsf (q : Db.ClaimsQuery) := repeat (row 100) 12 in
  let c := Spec.total_client rowsf (fun _ => []) (fun _ _ => []) in
  Spec.valid req
  /\ (forall q r, In r (rowsf q) ->
        Filtered.keep_row (Db.exclude_zero req) (Db.min_paid req) r = true)
  /\ exists e f,
      snd (Filtered.handler (inr c) req) = Wire.Json 200 (Wire.BEnvelope e)
      /\ snd (Unfiltered.handler (inr c) req)
         = Wire.Json 200 (Wire.BEnvelope f)
      /\ Wire.sample_size (Wire.used_scope e)
         = Wire.sample_size (Wire.used_scope f).
Proof.
  intros req row rowsf c.
  assert (V : Spec.valid req) by (repeat split).
  assert (K : forall q r, In r (rowsf q) ->
              Filtered.keep_row (Db.exclude_zero req) (Db.min_paid req) r
              = true).
  { intros q r H. apply repeat_spec in H. subst r. reflexivity. }
  split; [exact V |]. split; [exact K |].
  destruct (@cascades_agree_when_nothing_is_filtered rowsf (fun _ => [])
              (fun _ _ => []) req V K) as (e & f & Ee & Ef & S & _).
  exists e, f. split; [exact Ee |]. split; [exact Ef |].
  now injection S.
Defined.
